(** * Momentum FC: pressure index, forecast, chart and poll cycle

    A shallow embedding of [src/app.py].

    Numbers.  Python [int] values are [Z].  Python [float] values are
    modelled by the rational numbers they denote ([Q], compared with
    [==]).  In the forecast, whose result is truncated to an integer,
    every float operation rounds, and infinities and NaN are values
    ([pyfloat], [round64], [numeric_laws]); elsewhere binary64 rounding
    is not modelled.  SQLite [INTEGER] columns are [Z], [REAL] columns
    are [Q], [TEXT] columns are [string].

    Exceptions.  A function that can raise returns an [outcome]; a poll
    cycle that raises commits nothing.

    Library code.  What the program calls but does not define (numpy's
    [polyfit], [datetime.fromisoformat], number formatting) is collected
    in the class [PyLib]; every definition that calls the library takes
    an instance of it, and the theorems hold for all instances.  The
    class [WebLib] does the same for the pages of the prediction game
    ([str.strip], [len], SQLite's column affinity). *)

From Stdlib Require Import ZArith QArith Qabs Qminmax Qround Lia Lqa Ascii String.
From stdpp Require Import gmap strings list fin_maps pretty sorting.

Local Open Scope Z_scope.
Local Open Scope Q_scope.

(** ** Python and numpy primitives *)

Module Py.

(** [a < b] on floats, as a boolean. *)
Definition ltb (a b : Q) : bool :=
  (Qnum a * Zpos (Qden b) <? Qnum b * Zpos (Qden a))%Z.

(** The builtin [min(a, b)]: the first argument unless the second is
    strictly smaller. *)
Definition min (a b : Q) : Q := if ltb b a then b else a.

(** The builtin [max(a, b)]: the first argument unless the second is
    strictly greater. *)
Definition max (a b : Q) : Q := if ltb a b then b else a.

(** [int(x)] on a float: truncation towards zero. *)
Definition int (x : Q) : Z := (Qnum x ÷ Zpos (Qden x))%Z.

(** [np.clip(x, lo, hi)] is [minimum(maximum(x, lo), hi)]; on integers *)
Definition clip_int (x lo hi : Z) : Z := Z.min (Z.max x lo) hi.

(** and on floats. *)
Definition clip (x lo hi : Q) : Q :=
  let m := if ltb x lo then lo else x in
  if ltb hi m then hi else m.

(** [d.get(key, default)] on a dict entry that may be absent. *)
Definition get {A} (entry : option A) (default : A) : A :=
  match entry with Some v => v | None => default end.

(** [l[-n:]]: the last [n] items, all of them when there are fewer. *)
Definition last_n {A} (n : nat) (l : list A) : list A :=
  drop (length l - n) l.

(** [list(range(n))] as floats. *)
Definition range (n : nat) : list Q :=
  (λ i : nat, inject_Z (Z.of_nat i)) <$> seq 0 n.

End Py.

(** ** Data model *)

(** A row of the [snapshots] table. *)
Record snapshot := {
  s_id : Z;
  s_match_id : Z;
  s_timestamp : Z;
  s_minute : Z;
  s_score_home : Z;
  s_score_away : Z;
  s_pressure_index : Q
}.

(** The dict passed to [calculate_pressure_index]; a key may be absent. *)
Record snapshot_data := {
  sd_minute : option Z;
  sd_score_home : option Z;
  sd_score_away : option Z
}.

(** ** Momentum calculation *)

Definition calculate_pressure_index
    (data : snapshot_data) (previous_snapshots : list snapshot) : Q :=
  let minute := Py.get (sd_minute data) 0%Z in
  let score_home := Py.get (sd_score_home data) 0%Z in
  let score_away := Py.get (sd_score_away data) 0%Z in
  let base_pressure := (inject_Z minute / 90) * 20 in
  let score_diff := (score_home - score_away)%Z in
  let score_impact := Py.clip_int (score_diff * 30) (-60) 60 in
  let trend_impact := 0%Z in
  let trend_impact :=
    match previous_snapshots with
    | [] => trend_impact
    | last :: _ =>
        let trend_impact :=
          if (last.(s_score_home) <? score_home)%Z
          then (trend_impact + 40)%Z else trend_impact in
        if (last.(s_score_away) <? score_away)%Z
        then (trend_impact - 40)%Z else trend_impact
    end in
  let pressure :=
    base_pressure + inject_Z score_impact + inject_Z trend_impact in
  Py.clip pressure (-100) 100.

(** The pressure formula as the specification words it, over the
    rationals throughout. *)
Module PressureSpec.

Definition clamp (x lo hi : Q) : Q := Qmin (Qmax x lo) hi.

Definition base (minute : Z) : Q := (inject_Z minute / 90) * 20.

Definition score_impact (score_home score_away : Z) : Q :=
  clamp (inject_Z (score_home - score_away) * 30) (-60) 60.

Definition trend_impact (score_home score_away : Z) (prior : option snapshot) : Q :=
  match prior with
  | None => 0
  | Some p =>
      (if decide (p.(s_score_home) < score_home)%Z then 40 else 0)
      + (if decide (p.(s_score_away) < score_away)%Z then -40 else 0)
  end.

Definition pressure (minute score_home score_away : Z) (prior : option snapshot) : Q :=
  clamp (base minute + score_impact score_home score_away
         + trend_impact score_home score_away prior) (-100) 100.

End PressureSpec.

(** ** Floats and exceptions *)

(** A Python [float] or numpy [float64] where its rounding matters (the
    forecast): a finite binary64 value, given by the rational number it
    denotes, an infinity, or NaN.  A zero has no sign here. *)
Inductive pyfloat :=
  | Fin (q : Q)
  | PosInf
  | NegInf
  | NaN.

(** What a call gives its caller: a value, or an exception. *)
Inductive outcome (A : Type) :=
  | Returns (v : A)
  | Raises (exception : string).

Arguments Returns {A} v.
Arguments Raises {A} exception.

(** Statements in sequence: the first exception ends the run. *)
#[global] Instance outcome_ret : MRet outcome := λ A v, Returns v.

#[global] Instance outcome_bind : MBind outcome := λ A B k r,
  match r with
  | Returns v => k v
  | Raises e => Raises e
  end.

(** [d[key]] on a dict entry that may be absent. *)
Definition subscript {A} (entry : option A) : outcome A :=
  match entry with
  | Some v => Returns v
  | None => Raises "KeyError"
  end.

(** ** Library interface *)

(** A [datetime]: its wall-clock reading in microseconds since the epoch
    of its own zone, and its [tzinfo] as a UTC offset in microseconds
    ([None] for a naive datetime). *)
Record datetime := {
  wall_us : Z;
  tzinfo : option Z
}.

Class PyLib := {
  (** The binary64 value nearest to a real number, an infinity beyond
      the range: how the result of a float operation is rounded. *)
  round64 : Q → pyfloat;
  (** [np.polyfit(x, y, 1)]: [(slope, intercept)], or [None] when it
      raises. *)
  np_polyfit : list Q → list Q → option (pyfloat * pyfloat);
  (** [np.var(y)] *)
  np_var : list Q → pyfloat;
  (** [f"{v:.Nf}"] *)
  format_fixed : nat → pyfloat → string;
  (** [f"{v}"] for a float [v] *)
  format_float : Q → string;
  (** [datetime.fromisoformat(s)], or [None] when it raises. *)
  fromisoformat : string → option datetime;
  (** [str(d)] for a datetime [d] *)
  str_datetime : datetime → string;
  (** the UTC offset of the local zone, used by [datetime.now()] *)
  local_utcoffset_us : Z
}.

(** Float operations with their IEEE 754 special cases; a finite result
    is the exact one, rounded. *)
Module Float.

(** [a < b]: false when either is NaN. *)
Definition ltb (a b : pyfloat) : bool :=
  match a, b with
  | Fin x, Fin y => Py.ltb x y
  | NegInf, Fin _ | NegInf, PosInf | Fin _, PosInf => true
  | _, _ => false
  end.

(** The builtins [min(a, b)] and [max(a, b)]. *)
Definition min (a b : pyfloat) : pyfloat := if ltb b a then b else a.

Definition max (a b : pyfloat) : pyfloat := if ltb a b then b else a.

Definition neg (a : pyfloat) : pyfloat :=
  match a with
  | Fin x => Fin (- x)
  | PosInf => NegInf
  | NegInf => PosInf
  | NaN => NaN
  end.

Definition add `{PyLib} (a b : pyfloat) : pyfloat :=
  match a, b with
  | Fin x, Fin y => round64 (x + y)
  | NaN, _ | _, NaN => NaN
  | PosInf, NegInf | NegInf, PosInf => NaN
  | PosInf, _ | _, PosInf => PosInf
  | NegInf, _ | _, NegInf => NegInf
  end.

Definition sub `{PyLib} (a b : pyfloat) : pyfloat := add a (neg b).

(** [a * c] and [a / c] for a positive number [c]. *)
Definition mul `{PyLib} (a : pyfloat) (c : Q) : pyfloat :=
  match a with
  | Fin x => round64 (x * c)
  | _ => a
  end.

Definition div `{PyLib} (a : pyfloat) (c : Q) : pyfloat :=
  match a with
  | Fin x => round64 (x / c)
  | _ => a
  end.

(** [int(a)]: truncation towards zero; NaN and the infinities have no
    integer. *)
Definition int (a : pyfloat) : outcome Z :=
  match a with
  | Fin x => Returns (Py.int x)
  | NaN => Raises "ValueError"
  | PosInf | NegInf => Raises "OverflowError"
  end.

(** [a <= b] as an order on the values that are not NaN. *)
Definition le (a b : pyfloat) : Prop :=
  match a, b with
  | Fin x, Fin y => x <= y
  | NegInf, (Fin _ | PosInf | NegInf) => True
  | (Fin _ | PosInf), PosInf => True
  | _, _ => False
  end.

End Float.

(** ** Forecast *)

Record forecast := {
  level : string;
  probability : Z;
  explanation : string
}.

Definition Qsum (l : list Q) : Q := foldr Qplus 0 l.

Definition np_mean (y : list Q) : Q := Qsum y / inject_Z (Z.of_nat (length y)).

(** The variance with divisor [n], the mean of the squared deviations
    from the mean, over the rationals: what [np.var] computes in
    binary64 (numpy's default is [ddof=0]). *)
Definition population_variance (y : list Q) : Q :=
  np_mean ((λ v, (v - np_mean y) * (v - np_mean y)) <$> y).

(** What the model assumes of binary64 rounding and of [np.var].
    Rounding is monotone, leaves the integers up to [2^53] as they are,
    and on a number up to [2^20] in size gives a finite value with a
    relative error of at most [2^-53] (up to [2^-60] more near zero).
    [np.var] gives no negative value, and on at most ten numbers
    between -100 and 100 it is within [2^-20] of the variance. *)
Record numeric_laws `{PyLib} : Prop := {
  round64_mono : ∀ x y, x <= y → Float.le (round64 x) (round64 y);
  round64_int : ∀ n : Z,
    (Z.abs n ≤ 2 ^ 53)%Z → ∃ r, round64 (inject_Z n) = Fin r ∧ r == inject_Z n;
  round64_near : ∀ x,
    Qabs x <= inject_Z (2 ^ 20) →
    ∃ r, round64 x = Fin r
         ∧ Qabs (r - x) <= Qabs x / inject_Z (2 ^ 53) + 1 / inject_Z (2 ^ 60);
  np_var_sign : ∀ y, np_var y = NaN ∨ Float.le (Fin 0) (np_var y);
  np_var_near : ∀ y,
    y ≠ [] → (length y ≤ 10)%nat → Forall (λ v, -100 <= v <= 100) y →
    ∃ v, np_var y = Fin v
         ∧ Qabs (v - population_variance y) <= 1 / inject_Z (2 ^ 20)
}.

Definition get_forecast `{PyLib} (snapshots : list snapshot) : outcome forecast :=
  if (length snapshots <? 3)%nat then
    Returns {| level := "Inconclusive"; probability := 0;
               explanation := "Insufficient data for trend analysis." |}
  else
    let y := s_pressure_index <$> Py.last_n 10 snapshots in
    let x := Py.range (length y) in
    match np_polyfit x y with
    | None =>
        Returns {| level := "Moderate"; probability := 50;
                   explanation := "Calculating..." |}
    | Some (slope, intercept) =>
        let variance := np_var y in
        let volatility_penalty := Float.min (Float.div variance 10) (Fin 20) in
        let probability :=
          Float.min
            (Float.max
               (Float.sub (Float.add (Fin 50) (Float.mul slope 10)) volatility_penalty)
               (Fin 0))
            (Fin 100) in
        let level :=
          if Float.ltb (Fin 1) slope then "High"
          else if Float.ltb (Fin (-1)) slope then "Moderate"
          else "Low" in
        let explanation :=
          "Slope: " +:+ format_fixed 2 slope +:+ ", Var: "
          +:+ format_fixed 1 variance +:+ ". " in
        let explanation :=
          explanation +:+
          (if Float.ltb (Fin 0) slope then "Upward trend." else "Downward pressure.") in
        match Float.int probability with
        | Returns p =>
            Returns {| level := level; probability := p; explanation := explanation |}
        | Raises e => Raises e
        end
    end.

(** The number [get_forecast] hands to [int] on its last line. *)
Definition forecast_value `{PyLib} (slope : pyfloat) (y : list Q) : pyfloat :=
  Float.min
    (Float.max
       (Float.sub (Float.add (Fin 50) (Float.mul slope 10))
          (Float.min (Float.div (np_var y) 10) (Fin 20)))
       (Fin 0))
    (Fin 100).

(** *** Least squares, for reference *)

(** The sum of squared residuals of the line [a * x + b]. *)
Fixpoint sse (x y : list Q) (a b : Q) : Q :=
  match x, y with
  | xi :: x', yi :: y' =>
      (yi - (a * xi + b)) * (yi - (a * xi + b)) + sse x' y' a b
  | _, _ => 0
  end.

(** [(a, b)] is a first-degree least-squares fit of [y] against [x]. *)
Definition least_squares (x y : list Q) (a b : Q) : Prop :=
  ∀ a' b', sse x y a b <= sse x y a' b'.

Fixpoint Qdot (x y : list Q) : Q :=
  match x, y with
  | xi :: x', yi :: y' => xi * yi + Qdot x' y'
  | _, _ => 0
  end.

(** The closed-form solution of the normal equations; [None] when they
    are singular. *)
Definition lstsq_line (x y : list Q) : option (Q * Q) :=
  let n := inject_Z (Z.of_nat (length x)) in
  let det := n * Qdot x x - Qsum x * Qsum x in
  if Qeq_bool det 0 then None
  else
    let slope := (n * Qdot x y - Qsum x * Qsum y) / det in
    let intercept := (Qsum y - slope * Qsum x) / n in
    Some (Qred slope, Qred intercept).

(** The variance with Bessel's correction (divisor [n - 1]), which
    statistics calls the sample variance. *)
Definition sample_variance (y : list Q) : Q :=
  Qsum ((λ v, (v - np_mean y) * (v - np_mean y)) <$> y)
  / inject_Z (Z.of_nat (length y) - 1).

(** The probability formula of the specification over the real numbers,
    before it is truncated, for a given slope and variance. *)
Definition probability_formula (slope variance : Q) : Q :=
  PressureSpec.clamp (50 + slope * 10 - Qmin (variance / 10) 20) 0 100.

(** How far the float arithmetic of the forecast can be from the
    formula: [2^-20]. *)
Definition forecast_tolerance : Q := 1 / inject_Z (2 ^ 20).

(** ** Chart *)

Module Str.

(** The double quote and the line feed. *)
Definition dq : string := String "034"%char EmptyString.
Definition nl : string := String "010"%char EmptyString.

(** [s.replace(old, new)] for a one-character [old]. *)
Fixpoint replace (old : ascii) (new : string) (s : string) : string :=
  match s with
  | EmptyString => EmptyString
  | String c s' =>
      if decide (c = old) then new +:+ replace old new s'
      else String c (replace old new s')
  end.

(** [sep.join(l)] *)
Fixpoint join (sep : string) (l : list string) : string :=
  match l with
  | [] => EmptyString
  | [s] => s
  | s :: l' => s +:+ sep +:+ join sep l'
  end.

(** [pat in s] *)
Definition contains (pat s : string) : bool :=
  match String.index 0 pat s with Some _ => true | None => false end.

(** An attribute [name="value"]. *)
Definition attr (name value : string) : string :=
  name +:+ "=" +:+ dq +:+ value +:+ dq.

End Str.

(** The coordinates computed by the loop of [generate_svg_chart]. *)
Definition chart_points
    (snapshots : list snapshot) (width height padding : Z) : list (Q * Q) :=
  imap (λ (i : nat) (s : snapshot),
    let x :=
      inject_Z padding
      + (inject_Z (Z.of_nat i * (width - 2 * padding))
         / inject_Z (Z.max (Z.of_nat (length snapshots) - 1) 1)) in
    let y :=
      inject_Z height / 2
      - (s.(s_pressure_index) * (inject_Z height / 2 - inject_Z padding) / 100) in
    (x, y)) snapshots.

(** The text of one point, [f"{x},{y}"]. *)
Definition point_text `{PyLib} (p : Q * Q) : string :=
  format_float p.1 +:+ "," +:+ format_float p.2.

Definition generate_svg_chart `{PyLib}
    (snapshots : list snapshot) (width height padding : Z) (color : string)
    : string :=
  match snapshots with
  | [] => EmptyString
  | _ =>
      let points := point_text <$> chart_points snapshots width height padding in
      let polyline := Str.join " " points in
      let grad := "grad-" +:+ Str.replace "#"%char EmptyString color in
      let half := format_float (inject_Z height / 2) in
      Str.join EmptyString [
        "<svg "; Str.attr "width" (pretty width); " ";
        Str.attr "height" (pretty height); " ";
        Str.attr "viewBox" ("0 0 " +:+ pretty width +:+ " " +:+ pretty height);
        " "; Str.attr "xmlns" "http://www.w3.org/2000/svg"; ">"; Str.nl;
        "        <defs>"; Str.nl;
        "            <linearGradient "; Str.attr "id" grad; " ";
        Str.attr "x1" "0%"; " "; Str.attr "y1" "0%"; " ";
        Str.attr "x2" "100%"; " "; Str.attr "y2" "0%"; ">"; Str.nl;
        "                <stop "; Str.attr "offset" "0%"; " ";
        Str.attr "style" ("stop-color:" +:+ color +:+ ";stop-opacity:0.2");
        " />"; Str.nl;
        "                <stop "; Str.attr "offset" "100%"; " ";
        Str.attr "style" ("stop-color:" +:+ color +:+ ";stop-opacity:1");
        " />"; Str.nl;
        "            </linearGradient>"; Str.nl;
        "        </defs>"; Str.nl;
        "        <line "; Str.attr "x1" (pretty padding); " ";
        Str.attr "y1" half; " ";
        Str.attr "x2" (pretty (width - padding)%Z); " ";
        Str.attr "y2" half; " ";
        Str.attr "stroke" "rgba(255,255,255,0.1)"; " ";
        Str.attr "stroke-dasharray" "4"; "/>"; Str.nl;
        "        <polyline "; Str.attr "points" polyline; " ";
        Str.attr "fill" "none"; " ";
        Str.attr "stroke" ("url(#" +:+ grad +:+ ")"); " ";
        Str.attr "stroke-width" "3"; " ";
        Str.attr "stroke-linejoin" "round"; " />"; Str.nl;
        "    </svg>"
      ]
  end.

(** The keyword defaults of [generate_svg_chart]. *)
Definition generate_svg_chart_default `{PyLib} (snapshots : list snapshot) : string :=
  generate_svg_chart snapshots 600 200 20 "#a855f7".

Definition generate_sparkline `{PyLib} (snapshots : list snapshot) : string :=
  generate_svg_chart snapshots 120 40 5 "#22c55e".

(** ** Stored state *)

(** A JSON value found under [utcDate]: [null], a string or an integer. *)
Inductive json_scalar :=
  | JNull
  | JStr (s : string)
  | JInt (n : Z).

(** SQLite stores an integer in 64 bits. *)
Definition int64 (n : Z) : Prop := (- 2 ^ 63 ≤ n < 2 ^ 63)%Z.

#[global] Instance int64_dec (n : Z) : Decision (int64 n).
Proof. unfold int64. apply _. Defined.

(** Binding a Python [int] to a [?] of a statement: [sqlite3] raises
    [OverflowError] when it does not fit. *)
Definition bind_int (n : Z) : outcome () :=
  if decide (int64 n) then Returns () else Raises "OverflowError".

(** Binding [None], a [str] or an [int]. *)
Definition bind_value (v : json_scalar) : outcome () :=
  match v with
  | JInt n => bind_int n
  | JNull | JStr _ => Returns ()
  end.

(** A row of the [matches] table, without its primary key [id]: the
    table is a map from [id] to the rest of the row. *)
Record match_row := {
  m_name : string;
  m_home_team : string;
  m_away_team : string;
  m_status : string;
  m_utc_date : json_scalar;
  m_score_home : Z;
  m_score_away : Z;
  m_last_updated : Z
}.

(** The two tables the poll cycle writes, and the [AUTOINCREMENT]
    counter of [snapshots].  ([score_predictions], which the cycle calls
    last, reads [matches] and writes only [predictions] and [users];
    those tables are left out.) *)
Record database := {
  matches_tbl : gmap Z match_row;
  snapshots_tbl : list snapshot;
  snapshots_seq : Z
}.

(** The global [api_status] dict. *)
Record api_state := {
  a_status : string;
  a_last_check : option string;
  a_error : option string
}.

Record state := {
  api_status : api_state;
  db : database
}.

(** The state after [init_db] on a fresh database file. *)
Definition init_state : state := {|
  api_status := {| a_status := "Unknown"; a_last_check := None; a_error := None |};
  db := {| matches_tbl := ∅; snapshots_tbl := []; snapshots_seq := 0 |}
|}.

(** ** The feed *)

(** A match object of the feed: a dict with an integer [id] and with
    the strings [homeTeam.name], [awayTeam.name] and [status], as the
    feed documents them.  [f_utcDate] is the entry [utcDate]: [None]
    when the dict has no such key, and otherwise [null], a string or an
    integer.  [f_score_home] and [f_score_away] are
    [score.fullTime.home] and [score.fullTime.away], [None] when absent
    or [null]; [f_competition_id] is [competition.id], [None] when the
    record has no [competition] dict or the dict has no [id]. *)
Record feed_match := {
  f_id : Z;
  f_home_name : string;
  f_away_name : string;
  f_status : string;
  f_score_home : option Z;
  f_score_away : option Z;
  f_utcDate : option json_scalar;
  f_competition_id : option Z
}.

(** What [response.json()] gives: it raises, or it is a dict with an
    optional [message] and an optional [matches] list. *)
Inductive json_body :=
  | JsonRaises (e : string)
  | JsonDict (message : option string) (matches : option (list feed_match)).

(** What [requests.get] gives: it raises (network error, timeout), or it
    returns a response. *)
Inductive http_result :=
  | RequestRaises (e : string)
  | Response (status_code : Z) (body : json_body).

(** What one cycle reads from its environment: the clock (microseconds
    since the epoch, UTC), the configured API key and the outcome of the
    HTTP request. *)
Record cycle_input := {
  clock_us : Z;
  current_key : option string;
  http : http_result
}.

(** ** Clock *)

(** [datetime.now(tz)] *)
Definition datetime_now `{PyLib} (clock : Z) (tz : option Z) : datetime :=
  {| wall_us := (clock + match tz with Some off => off | None => local_utcoffset_us end)%Z;
     tzinfo := tz |}.

(** [(a - b).total_seconds()] *)
Definition total_seconds (a b : datetime) : Q :=
  let us :=
    match tzinfo a, tzinfo b with
    | Some oa, Some ob => ((wall_us a - oa) - (wall_us b - ob))%Z
    | _, _ => (wall_us a - wall_us b)%Z
    end in
  inject_Z us / 1000000.

(** SQLite's [CURRENT_TIMESTAMP], in whole seconds. *)
Definition CURRENT_TIMESTAMP (clock : Z) : Z := (clock `div` 1000000)%Z.

(** ** Poll cycle *)

(** [TOP_COMPETITIONS = "2021,2014,2001,2002,2019,2015"], split and
    converted. *)
Definition top_comp_ids : list Z := [2021; 2014; 2001; 2002; 2019; 2015]%Z.

Definition is_demo (current_key : option string) : bool :=
  match current_key with
  | None => true
  | Some k =>
      if decide (k = EmptyString) then true
      else Str.contains "your_api_key_here" k
  end.

Definition demo_matches (now : string) : list feed_match := [
  {| f_id := 1001; f_home_name := "Demo United"; f_away_name := "Mock City";
     f_status := "LIVE"; f_score_home := Some 2%Z; f_score_away := Some 1%Z;
     f_utcDate := Some (JStr now); f_competition_id := None |};
  {| f_id := 1002; f_home_name := "Synthetic FC"; f_away_name := "Silicon Real";
     f_status := "LIVE"; f_score_home := Some 0%Z; f_score_away := Some 0%Z;
     f_utcDate := Some (JStr now); f_competition_id := None |}
].

(** The first half of [poll_live_matches]: the new [api_status] and the
    match list, or [None] where the function returns early.  Every path
    assigns all three keys of the dict, so its old value is not read. *)
Definition fetch_matches `{PyLib} (inp : cycle_input) (api : api_state)
    : api_state * option (list feed_match) :=
  let last_check := Some (str_datetime (datetime_now inp.(clock_us) None)) in
  if is_demo inp.(current_key) then
    ({| a_status := "Demo Mode"; a_last_check := last_check;
        a_error := Some "Using synthetic data. Add a real API key in .env to see live matches." |},
     Some (demo_matches (str_datetime (datetime_now inp.(clock_us) None))))
  else
    let connection_error e :=
      ({| a_status := "Connection Error"; a_last_check := last_check;
          a_error := Some ("Failed to connect to API: " +:+ e) |}, None) in
    match inp.(http) with
    | RequestRaises e => connection_error e
    | Response status_code body =>
        if decide (status_code ≠ 200%Z) then
          match body with
          | JsonRaises e => connection_error e
          | JsonDict message _ =>
              ({| a_status := "API Error"; a_last_check := last_check;
                  a_error := Some ("Error " +:+ pretty status_code +:+ ": "
                                   +:+ Py.get message "Unknown") |}, None)
          end
        else
          match body with
          | JsonRaises e => connection_error e
          | JsonDict _ matches =>
              ({| a_status := "Healthy"; a_last_check := last_check;
                  a_error := None |}, Some (Py.get matches []))
          end
    end.

(** The statuses of the [UPDATE ... SET status='FINISHED'] statement. *)
Definition active_statuses : list string := ["LIVE"; "IN_PLAY"; "TIMED"; "STARTING"].

Definition set_status (status : string) (r : match_row) : match_row :=
  {| m_name := r.(m_name); m_home_team := r.(m_home_team);
     m_away_team := r.(m_away_team); m_status := status;
     m_utc_date := r.(m_utc_date); m_score_home := r.(m_score_home);
     m_score_away := r.(m_score_away); m_last_updated := r.(m_last_updated) |}.

(** [UPDATE matches SET status='FINISHED' WHERE status IN active_statuses
    AND id NOT IN seen_ids], and without the second condition when
    [seen_ids] is empty. *)
Definition mark_finished (seen_ids : list Z) (ms : gmap Z match_row)
    : gmap Z match_row :=
  match seen_ids with
  | _ :: _ =>
      map_imap (λ id r,
        Some (if decide (r.(m_status) ∈ active_statuses ∧ id ∉ seen_ids)
              then set_status "FINISHED" r else r)) ms
  | [] =>
      map_imap (λ id r,
        Some (if decide (r.(m_status) ∈ active_statuses)
              then set_status "FINISHED" r else r)) ms
  end.

(** [INSERT INTO matches ... ON CONFLICT(id) DO UPDATE SET status,
    score_home, score_away, last_updated]. *)
Definition upsert_match (match_id : Z) (new : match_row) (ms : gmap Z match_row)
    : gmap Z match_row :=
  match ms !! match_id with
  | None => <[match_id := new]> ms
  | Some r =>
      <[match_id :=
          {| m_name := r.(m_name); m_home_team := r.(m_home_team);
             m_away_team := r.(m_away_team); m_status := new.(m_status);
             m_utc_date := r.(m_utc_date); m_score_home := new.(m_score_home);
             m_score_away := new.(m_score_away);
             m_last_updated := new.(m_last_updated) |}]> ms
  end.

(** [a] is not older than [b]. *)
Definition newer_or_equal (a b : snapshot) : Prop :=
  (b.(s_timestamp) ≤ a.(s_timestamp))%Z.

#[global] Instance newer_or_equal_dec : RelDecision newer_or_equal :=
  λ a b, decide (b.(s_timestamp) ≤ a.(s_timestamp))%Z.

(** The order of [ORDER BY timestamp DESC] as SQLite produces it: it
    reads the table by ascending [id] and its sort keeps rows with equal
    timestamps in the order read. *)
Definition desc_order (a b : snapshot) : Prop :=
  (b.(s_timestamp) < a.(s_timestamp))%Z
  ∨ (b.(s_timestamp) = a.(s_timestamp) ∧ (a.(s_id) ≤ b.(s_id))%Z).

#[global] Instance desc_order_dec : RelDecision desc_order.
Proof. intros a b. unfold desc_order. apply _. Defined.

(** [... WHERE match_id = ?] *)
Definition of_match (match_id : Z) (rows : list snapshot) : list snapshot :=
  filter (λ s, s.(s_match_id) = match_id) rows.

(** [SELECT * FROM snapshots WHERE match_id = ? ORDER BY timestamp DESC] *)
Definition snapshots_desc (match_id : Z) (rows : list snapshot) : list snapshot :=
  merge_sort desc_order (of_match match_id rows).

(** The cap of the [DELETE ... LIMIT -1 OFFSET 2000] statement. *)
Definition SNAPSHOT_CAP : nat := 2000.

(** [DELETE FROM snapshots WHERE id IN (SELECT id FROM snapshots WHERE
    match_id=? ORDER BY timestamp DESC LIMIT -1 OFFSET 2000)] *)
Definition trim_snapshots (match_id : Z) (rows : list snapshot) : list snapshot :=
  let old_ids := s_id <$> drop SNAPSHOT_CAP (snapshots_desc match_id rows) in
  filter (λ s, s.(s_id) ∉ old_ids) rows.

(** The string handed to [fromisoformat]: [m.get('utcDate')], which is
    [None] when the key is absent, turned into a string when it is not
    one (the empty string when it is falsy), with every [Z] replaced by
    [+00:00]. *)
Definition utc_date_str (utcDate : option json_scalar) : string :=
  let utc_val :=
    match utcDate with
    | Some (JStr s) => s
    | None | Some JNull => EmptyString
    | Some (JInt n) => if decide (n = 0%Z) then EmptyString else pretty n
    end in
  Str.replace "Z"%char "+00:00" utc_val.

(** The minute computed inside the [try] of the loop body, with the
    fallback of its [except]. *)
Definition dynamic_minute `{PyLib} (clock : Z) (utcDate : option json_scalar) : Z :=
  let utc_date_str := utc_date_str utcDate in
  if decide (utc_date_str = EmptyString) then 45%Z
  else
    match fromisoformat utc_date_str with
    | None => 45%Z
    | Some match_start =>
        let now_utc := datetime_now clock match_start.(tzinfo) in
        let minute := Py.int (total_seconds now_utc match_start / 60) in
        Z.max 1 (Z.min minute 120)
    end.

(** One iteration of [for m in matches].  The tuple of the first
    statement subscripts [m['utcDate']] and binds it with the id and
    the scores; this happens ahead of the [try] of the minute. *)
Definition process_match `{PyLib} (clock : Z) (d : database) (m : feed_match)
    : outcome database :=
  let match_id := m.(f_id) in
  let home_name := m.(f_home_name) in
  let away_name := m.(f_away_name) in
  let name := home_name +:+ " vs " +:+ away_name in
  let status := m.(f_status) in
  let score_home := Py.get m.(f_score_home) 0%Z in
  let score_away := Py.get m.(f_score_away) 0%Z in
  utcDate ← subscript m.(f_utcDate);
  bind_int match_id;;
  bind_value utcDate;;
  bind_int score_home;;
  bind_int score_away;;
  let matches' :=
    upsert_match match_id
      {| m_name := name; m_home_team := home_name; m_away_team := away_name;
         m_status := status; m_utc_date := utcDate;
         m_score_home := score_home; m_score_away := score_away;
         m_last_updated := CURRENT_TIMESTAMP clock |} d.(matches_tbl) in
  let prev_snapshots := take 20 (snapshots_desc match_id d.(snapshots_tbl)) in
  let minute := dynamic_minute clock m.(f_utcDate) in
  let p_index :=
    calculate_pressure_index
      {| sd_minute := Some minute; sd_score_home := Some score_home;
         sd_score_away := Some score_away |} prev_snapshots in
  let new_id := (d.(snapshots_seq) + 1)%Z in
  let inserted :=
    d.(snapshots_tbl) ++
    [{| s_id := new_id; s_match_id := match_id;
        s_timestamp := CURRENT_TIMESTAMP clock; s_minute := minute;
        s_score_home := score_home; s_score_away := score_away;
        s_pressure_index := p_index |}] in
  mret {| matches_tbl := matches';
          snapshots_tbl := trim_snapshots match_id inserted;
          snapshots_seq := new_id |}.

(** [for m in matches: ...] *)
Fixpoint process_matches `{PyLib} (clock : Z) (matches : list feed_match)
    (d : database) : outcome database :=
  match matches with
  | [] => mret d
  | m :: matches => d ← process_match clock d m; process_matches clock matches d
  end.

(** The allow-list test of the feed filter: [m.get('competition')] is a
    dict whose [id] is in [top_comp_ids]. *)
Definition in_top_competitions (m : feed_match) : bool :=
  match m.(f_competition_id) with
  | Some c => bool_decide (c ∈ top_comp_ids)
  | None => false
  end.

(** The second half of [poll_live_matches] up to [db.commit()]:
    filter, clean up, store.  The clean-up statement binds the ids seen
    when there are any. *)
Definition write_matches `{PyLib} (clock : Z) (feed : list feed_match) (d : database)
    : outcome database :=
  let matches :=
    filter (λ m, in_top_competitions m) feed in
  let seen_ids := f_id <$> matches in
  mapM bind_int seen_ids;;
  let d :=
    {| matches_tbl := mark_finished seen_ids d.(matches_tbl);
       snapshots_tbl := d.(snapshots_tbl); snapshots_seq := d.(snapshots_seq) |} in
  process_matches clock matches d.

(** The database the second half leaves: what it wrote once
    [db.commit()] is reached, and the old content when an exception
    ends the call ahead of it (the connection is closed with the
    transaction open). *)
Definition persist_matches `{PyLib} (clock : Z) (feed : list feed_match) (d : database)
    : database :=
  match write_matches clock feed d with
  | Returns d' => d'
  | Raises _ => d
  end.

(** The state a call of [poll_live_matches] leaves, whether it returns
    or raises. *)
Definition poll_live_matches `{PyLib} (inp : cycle_input) (st : state) : state :=
  match fetch_matches inp st.(api_status) with
  | (api, None) => {| api_status := api; db := st.(db) |}
  | (api, Some feed) =>
      {| api_status := api; db := persist_matches inp.(clock_us) feed st.(db) |}
  end.

(** A record that an iteration stores without an exception. *)
Definition storable (m : feed_match) : Prop :=
  int64 m.(f_id)
  ∧ int64 (Py.get m.(f_score_home) 0%Z)
  ∧ int64 (Py.get m.(f_score_away) 0%Z)
  ∧ match m.(f_utcDate) with
    | None => False
    | Some (JInt n) => int64 n
    | Some JNull | Some (JStr _) => True
    end.

(** The feed is not obtained: no demo mode, and the request raises, or
    the response is not a 200, or its body does not decode. *)
Definition fetch_fails (inp : cycle_input) : Prop :=
  is_demo inp.(current_key) = false
  ∧ match inp.(http) with
    | RequestRaises _ => True
    | Response status_code body =>
        status_code ≠ 200%Z ∨ ∃ e, body = JsonRaises e
    end.

(** Several cycles in a row. *)
Definition run `{PyLib} (inputs : list cycle_input) (st : state) : state :=
  foldl (λ st inp, poll_live_matches inp st) st inputs.

(** The states the scheduler can reach from a fresh database. *)
Inductive reachable `{PyLib} : state → Prop :=
  | reachable_init : reachable init_state
  | reachable_poll inp st :
      reachable st → reachable (poll_live_matches inp st).

(** The [snapshots] table is well formed: [id] is a key, and no id
    exceeds the [AUTOINCREMENT] counter. *)
Definition snapshots_wf (d : database) : Prop :=
  NoDup (s_id <$> d.(snapshots_tbl))
  ∧ Forall (λ s, (s.(s_id) ≤ d.(snapshots_seq))%Z) d.(snapshots_tbl).

(** No match has more than [SNAPSHOT_CAP] snapshots. *)
Definition capped (d : database) : Prop :=
  ∀ match_id, (length (of_match match_id d.(snapshots_tbl)) ≤ SNAPSHOT_CAP)%nat.

(** ** Library instances for running the definitions *)

(** Numbers are printed as fractions. *)
Definition show_Q (q : Q) : string :=
  pretty (Qnum q) +:+ "/" +:+ pretty (Zpos (Qden q)).

Definition show_float (a : pyfloat) : string :=
  match a with
  | Fin q => show_Q q
  | PosInf => "inf"
  | NegInf => "-inf"
  | NaN => "nan"
  end.

(** A parser that knows 2024-05-01 18:00:00 in two spellings. *)
Definition sample_fromisoformat (s : string) : option datetime :=
  if decide (s = "2024-05-01T18:00:00+00:00") then
    Some {| wall_us := 1714586400000000; tzinfo := Some 0%Z |}
  else if decide (s = "2024-05-01 18:00:00") then
    Some {| wall_us := 1714586400000000; tzinfo := None |}
  else None.

(** A library with the given fit: no rounding error, the exact
    variance, the sample parser, a UTC host. *)
Definition lib_with_fit (fit : list Q → list Q → option (pyfloat * pyfloat)) : PyLib := {|
  round64 := Fin;
  np_polyfit := fit;
  np_var := λ y, Fin (population_variance y);
  format_fixed := λ _ a, show_float a;
  format_float := show_Q;
  fromisoformat := sample_fromisoformat;
  str_datetime := λ d, pretty d.(wall_us);
  local_utcoffset_us := 0
|}.

(** Exact least squares. *)
Definition exact_lib : PyLib :=
  lib_with_fit (λ x y, (λ p : Q * Q, (Fin p.1, Fin p.2)) <$> lstsq_line x y).



(** A fit with the rounding error a binary64 solver can leave on a
    constant series: a slope of [-2^-49] where the exact one is 0. *)
Definition rounded_fit_lib : PyLib :=
  lib_with_fit (λ _ y, Some (Fin (- (1 / inject_Z (2 ^ 49))), Fin (Py.get (head y) 0))).

(** A snapshot that carries only a pressure index. *)
Definition snapshot_of_pressure (p : Q) : snapshot :=
  {| s_id := 0; s_match_id := 0; s_timestamp := 0; s_minute := 0;
     s_score_home := 0; s_score_away := 0; s_pressure_index := p |}.

(** The probability the specification states: its formula with the
    sample variance, truncated. *)
Definition claimed_probability (slope : Q) (y : list Q) : Z :=
  Py.int (probability_formula slope (sample_variance y)).

(** The forecast sentence of the specification, on one snapshot list:
    whenever the fit gives a finite slope, the forecast returned has
    the probability stated. *)
Definition forecast_claim `{PyLib} (snapshots : list snapshot) : Prop :=
  let y := s_pressure_index <$> Py.last_n 10 snapshots in
  ∀ slope intercept,
    np_polyfit (Py.range (length y)) y = Some (Fin slope, intercept) →
    ∃ f, get_forecast snapshots = Returns f
         ∧ f.(probability) = claimed_probability slope y.

(** ** Sample states and inputs *)

Definition sample_row (status : string) : match_row :=
  {| m_name := "Home vs Away"; m_home_team := "Home"; m_away_team := "Away";
     m_status := status; m_utc_date := JStr "2024-05-01T18:00:00Z";
     m_score_home := 1; m_score_away := 0; m_last_updated := 1714588170 |}.

(** Two stored matches, one PAUSED and one IN_PLAY, and one snapshot. *)
Definition sample_state : state := {|
  api_status := {| a_status := "Healthy"; a_last_check := None; a_error := None |};
  db := {|
    matches_tbl := <[1%Z := sample_row "PAUSED"]> (<[2%Z := sample_row "IN_PLAY"]> ∅);
    snapshots_tbl :=
      [{| s_id := 1; s_match_id := 2; s_timestamp := 1714588170; s_minute := 29;
          s_score_home := 1; s_score_away := 0; s_pressure_index := 329 # 9 |}];
    snapshots_seq := 1
  |}
|}.

(** A match of the Premier League as the feed reports it. *)
Definition sample_feed_match : feed_match :=
  {| f_id := 2; f_home_name := "Home"; f_away_name := "Away";
     f_status := "IN_PLAY"; f_score_home := Some 1%Z; f_score_away := Some 0%Z;
     f_utcDate := Some (JStr "2024-05-01T18:00:00Z");
     f_competition_id := Some 2021%Z |}.

(** A match of the feed without [utcDate]. *)
Definition undated_feed_match : feed_match :=
  {| f_id := 3; f_home_name := "Third"; f_away_name := "Fourth";
     f_status := "IN_PLAY"; f_score_home := Some 0%Z; f_score_away := Some 0%Z;
     f_utcDate := None; f_competition_id := Some 2021%Z |}.

(** A match of the feed whose id does not fit 64 bits. *)
Definition huge_feed_match : feed_match :=
  {| f_id := 2 ^ 63; f_home_name := "Fifth"; f_away_name := "Sixth";
     f_status := "IN_PLAY"; f_score_home := Some 0%Z; f_score_away := Some 0%Z;
     f_utcDate := Some (JStr "2024-05-01T18:00:00Z");
     f_competition_id := Some 2021%Z |}.

(** The sample match with a [utcDate] that is not a date. *)
Definition unparsed_feed_match : feed_match :=
  {| f_id := 2; f_home_name := "Home"; f_away_name := "Away";
     f_status := "IN_PLAY"; f_score_home := Some 1%Z; f_score_away := Some 0%Z;
     f_utcDate := Some (JStr "kickoff"); f_competition_id := Some 2021%Z |}.

(** A cycle with a real key whose request returns the given matches. *)
Definition feed_input (clock : Z) (feed : list feed_match) : cycle_input :=
  {| clock_us := clock; current_key := Some "f00dfeed";
     http := Response 200 (JsonDict None (Some feed)) |}.

(** A cycle with a real key whose request times out. *)
Definition timeout_input : cycle_input :=
  {| clock_us := 1714588230000000; current_key := Some "f00dfeed";
     http := RequestRaises "Read timed out." |}.

(** A cycle without a key. *)
Definition demo_input : cycle_input :=
  {| clock_us := 1714588230000000; current_key := None;
     http := RequestRaises "unused" |}.

(** [n] cycles one minute apart, from kickoff on, each reporting the
    sample match. *)
Definition minute_inputs (n : nat) : list cycle_input :=
  (λ i : nat, feed_input (1714586400000000 + 60000000 * Z.of_nat i)
                [sample_feed_match]) <$> seq 0 n.

(** A database whose [snapshots] table holds 2000 rows of match 2, one
    a minute from kickoff on. *)
Definition full_db : database := {|
  matches_tbl := <[2%Z := sample_row "IN_PLAY"]> ∅;
  snapshots_tbl :=
    (λ i : Z, {| s_id := i; s_match_id := 2;
                 s_timestamp := 1714586400 + 60 * i; s_minute := Z.min i 120;
                 s_score_home := 1; s_score_away := 0;
                 s_pressure_index := 30 |}) <$> seqZ 1 2000;
  snapshots_seq := 2000
|}.

(** Two snapshots of match 2 taken in the same second, one before the
    home goal and one after it. *)
Definition same_second_db : database := {|
  matches_tbl := <[2%Z := sample_row "IN_PLAY"]> ∅;
  snapshots_tbl :=
    [{| s_id := 1; s_match_id := 2; s_timestamp := 1714588230; s_minute := 45;
        s_score_home := 0; s_score_away := 0; s_pressure_index := 10 |};
     {| s_id := 2; s_match_id := 2; s_timestamp := 1714588230; s_minute := 45;
        s_score_home := 1; s_score_away := 0; s_pressure_index := 80 |}];
  snapshots_seq := 2
|}.

(** Two rows of [matches] agree on the columns that describe the match:
    name, teams and kickoff date. *)
Definition same_description (r r' : match_row) : Prop :=
  r'.(m_name) = r.(m_name) ∧ r'.(m_home_team) = r.(m_home_team)
  ∧ r'.(m_away_team) = r.(m_away_team) ∧ r'.(m_utc_date) = r.(m_utc_date).

(** ** Prediction game *)

(** A row of the [users] table, without its primary key [id]. *)
Record user_row := {
  u_username : string;
  u_referral_code : string;
  u_referred_by_code : option string;
  u_points : Z
}.

(** What a column of INTEGER affinity holds: [NULL], an integer, or a
    value SQLite could not turn into an integer without loss (a TEXT or
    a REAL), which [v] names up to SQLite's equality. *)
Inductive column_value :=
  | SqlNull
  | SqlInteger (n : Z)
  | SqlOther (v : string).

#[global] Instance column_value_eq_dec : EqDecision column_value.
Proof. solve_decision. Defined.

(** A row of the [predictions] table, without its primary key [id].
    [p_match_id] is the stored value, which the UNIQUE constraint
    compares.  The two goal columns, which are only ever compared with
    integers, are [Some n] for an integer and [None] for anything else,
    which no integer equals; [p_predicted_outcome] is [None] for
    [NULL]. *)
Record prediction := {
  p_user_id : Z;
  p_match_id : column_value;
  p_predicted_outcome : option string;
  p_predicted_home_goals : option Z;
  p_predicted_away_goals : option Z;
  p_points_awarded : Z;
  p_status : string
}.

(** The tables of the prediction game that [score_predictions] reads
    and writes. *)
Record game := {
  users_tbl : gmap Z user_row;
  predictions_tbl : gmap Z prediction
}.

(** A row of the [SELECT ... JOIN] of [score_predictions]: a prediction
    with its id and the score of its match. *)
Record joined := {
  j_id : Z;
  j_prediction : prediction;
  j_actual_h : Z;
  j_actual_a : Z
}.

(** The join condition and the [WHERE] clause on one prediction. *)
Definition join_finished (ms : gmap Z match_row) (id : Z) (p : prediction)
    : option joined :=
  if decide (p.(p_status) = "PENDING") then
    match p.(p_match_id) with
    | SqlInteger match_id =>
        match ms !! match_id with
        | Some m =>
            if decide (m.(m_status) = "FINISHED") then
              Some {| j_id := id; j_prediction := p;
                      j_actual_h := m.(m_score_home); j_actual_a := m.(m_score_away) |}
            else None
        | None => None
        end
    | SqlNull | SqlOther _ => None
    end
  else None.

(** The rows the [SELECT] returns; SQL leaves their order open, the
    model takes the order of [map_to_list]. *)
Definition pending_finished (ms : gmap Z match_row) (ps : gmap Z prediction)
    : list joined :=
  omap (λ ip : Z * prediction, join_finished ms ip.1 ip.2) (map_to_list ps).

(** The points computed by the loop body. *)
Definition prediction_points (p : prediction) (actual_h actual_a : Z) : Z :=
  let points := 0%Z in
  let pred_h := p.(p_predicted_home_goals) in
  let pred_a := p.(p_predicted_away_goals) in
  let pred_outcome := p.(p_predicted_outcome) in
  let actual_outcome :=
    if (actual_a <? actual_h)%Z then "HOME"
    else if (actual_h <? actual_a)%Z then "AWAY"
    else "DRAW" in
  let points :=
    if decide (pred_outcome = Some actual_outcome) then
      (points + (if decide (actual_outcome = "DRAW") then 120 else 100))%Z
    else points in
  let points :=
    if decide (pred_h = Some actual_h ∧ pred_a = Some actual_a) then
      (points + 200)%Z
    else points in
  points.

Definition joined_points (j : joined) : Z :=
  prediction_points j.(j_prediction) j.(j_actual_h) j.(j_actual_a).

(** [UPDATE predictions SET points_awarded = ?, status = "SCORED"] on a
    row. *)
Definition set_scored (points : Z) (p : prediction) : prediction :=
  {| p_user_id := p.(p_user_id); p_match_id := p.(p_match_id);
     p_predicted_outcome := p.(p_predicted_outcome);
     p_predicted_home_goals := p.(p_predicted_home_goals);
     p_predicted_away_goals := p.(p_predicted_away_goals);
     p_points_awarded := points; p_status := "SCORED" |}.

(** [UPDATE users SET points = points + ?] on a row. *)
Definition add_points (points : Z) (u : user_row) : user_row :=
  {| u_username := u.(u_username); u_referral_code := u.(u_referral_code);
     u_referred_by_code := u.(u_referred_by_code);
     u_points := (u.(u_points) + points)%Z |}.

(** One iteration of [for p in preds]: the two [UPDATE ... WHERE id = ?]
    statements. *)
Definition score_one (g : game) (j : joined) : game :=
  let points := joined_points j in
  {| predictions_tbl := alter (set_scored points) j.(j_id) g.(predictions_tbl);
     users_tbl := alter (add_points points) j.(j_prediction).(p_user_id) g.(users_tbl) |}.

(** [score_predictions], given the [matches] table it reads. *)
Definition score_predictions (ms : gmap Z match_row) (g : game) : game :=
  foldl score_one g (pending_finished ms g.(predictions_tbl)).

(** The points the rows of a [SELECT] result give to one user. *)
Definition points_for_user (user_id : Z) (l : list joined) : Z :=
  foldr (λ j acc,
           if decide (j.(j_prediction).(p_user_id) = user_id)
           then (joined_points j + acc)%Z else acc) 0%Z l.

(** [poll_live_matches] with the call of [score_predictions] at its
    end, which an early return and an exception both skip. *)
Definition poll_and_score `{PyLib} (inp : cycle_input) (sg : state * game)
    : state * game :=
  let st' := poll_live_matches inp sg.1 in
  match (fetch_matches inp sg.1.(api_status)).2 with
  | None => (st', sg.2)
  | Some feed =>
      match write_matches inp.(clock_us) feed sg.1.(db) with
      | Raises _ => (st', sg.2)
      | Returns _ => (st', score_predictions st'.(db).(matches_tbl) sg.2)
      end
  end.

(** Two users, and three predictions on match 2: two PENDING, one
    already SCORED. *)
Definition sample_prediction (user_id : Z) (predicted : string) (h a : Z) (status : string)
    : prediction :=
  {| p_user_id := user_id; p_match_id := SqlInteger 2;
     p_predicted_outcome := Some predicted;
     p_predicted_home_goals := Some h; p_predicted_away_goals := Some a;
     p_points_awarded := 0; p_status := status |}.

Definition sample_game : game := {|
  users_tbl :=
    <[1%Z := {| u_username := "ada"; u_referral_code := "AAAA1111";
                u_referred_by_code := None; u_points := 50 |}]>
      (<[2%Z := {| u_username := "bob"; u_referral_code := "BBBB2222";
                   u_referred_by_code := Some "AAAA1111"; u_points := 0 |}]> ∅);
  predictions_tbl :=
    <[1%Z := sample_prediction 1 "HOME" 1 0 "PENDING"]>
      (<[2%Z := sample_prediction 2 "DRAW" 1 0 "PENDING"]>
         (<[3%Z := sample_prediction 2 "HOME" 2 0 "SCORED"]> ∅))
|}.

(** ** Followed matches *)

Module Cookie.

(** [s.split(sep)] for a one-character [sep]. *)
Fixpoint split (sep : ascii) (s : string) : list string :=
  match s with
  | EmptyString => [EmptyString]
  | String c s' =>
      if decide (c = sep) then EmptyString :: split sep s'
      else
        match split sep s' with
        | [] => [String c EmptyString]
        | w :: ws => String c w :: ws
        end
  end.

(** [c in s] for a character [c]. *)
Fixpoint has_char (c : ascii) (s : string) : bool :=
  match s with
  | EmptyString => false
  | String c' s' => bool_decide (c' = c) || has_char c s'
  end.

(** [l.remove(x)] where [x] is in [l]: the first occurrence goes. *)
Fixpoint remove (x : string) (l : list string) : list string :=
  match l with
  | [] => []
  | y :: l' => if decide (y = x) then l' else y :: remove x l'
  end.

(** An entry that survives a round trip through the cookie: not empty
    and without a comma. *)
Definition entry (w : string) : Prop :=
  w ≠ EmptyString ∧ has_char ","%char w = false.

End Cookie.

(** [[f for f in followed_raw.split(',') if f]] *)
Definition followed_list (followed_raw : string) : list string :=
  filter (λ f, f ≠ EmptyString) (Cookie.split ","%char followed_raw).

(** The value [toggle_follow] stores in the cookie [followed_matches],
    given the value it reads (the empty string when the cookie is not
    set).  The route takes [match_id] from the URL as a string of
    digits. *)
Definition toggle_follow (followed_raw : string) (match_id : N) : string :=
  let followed := followed_list followed_raw in
  let followed :=
    if decide (pretty match_id ∈ followed)
    then Cookie.remove (pretty match_id) followed
    else followed ++ [pretty match_id] in
  Str.join "," followed.

(** [str(match_id) in request.cookies.get('followed_matches', '').split(',')],
    the test of the pages. *)
Definition is_followed (followed_raw : string) (match_id : N) : bool :=
  bool_decide (pretty match_id ∈ Cookie.split ","%char followed_raw).

(** ** Match dashboard *)

Definition older_or_equal (a b : snapshot) : Prop :=
  (a.(s_timestamp) ≤ b.(s_timestamp))%Z.

#[global] Instance older_or_equal_dec : RelDecision older_or_equal :=
  λ a b, decide (a.(s_timestamp) ≤ b.(s_timestamp))%Z.

(** The order of [ORDER BY timestamp ASC] as SQLite produces it: rows
    with equal timestamps by ascending [id]. *)
Definition asc_order (a b : snapshot) : Prop :=
  (a.(s_timestamp) < b.(s_timestamp))%Z
  ∨ (a.(s_timestamp) = b.(s_timestamp) ∧ (a.(s_id) ≤ b.(s_id))%Z).

#[global] Instance asc_order_dec : RelDecision asc_order.
Proof. intros a b. unfold asc_order. apply _. Defined.




(** ** Live page *)


Definition updated_later_or_equal (a b : Z * match_row) : Prop :=
  (b.2.(m_last_updated) ≤ a.2.(m_last_updated))%Z.

#[global] Instance updated_later_or_equal_dec : RelDecision updated_later_or_equal :=
  λ a b, decide (b.2.(m_last_updated) ≤ a.2.(m_last_updated))%Z.


(** ** Registration and predictions *)

(** What [predict_page] calls but does not define.  Strings of the
    program are Python [str] values; how their characters are counted
    and which of them are white space is left to the instance. *)
Class WebLib := {
  (** [s.strip()] *)
  str_strip : string → string;
  (** [len(s)] *)
  str_len : string → nat;
  (** what a column of INTEGER affinity keeps of a text bound to it *)
  integer_affinity : string → column_value
}.

(** A row of the [referrals] table. *)
Record referral := {
  r_id : Z;
  r_referrer_user_id : Z;
  r_referred_user_id : Z;
  r_bonus_points : Z
}.

(** The tables of the prediction game with their [AUTOINCREMENT]
    counters. *)
Record store := {
  tables : game;
  users_seq : Z;
  predictions_seq : Z;
  referrals_tbl : list referral;
  referrals_seq : Z
}.

(** The three tables after [init_db] on a fresh database file. *)
Definition init_store : store := {|
  tables := {| users_tbl := ∅; predictions_tbl := ∅ |};
  users_seq := 0; predictions_seq := 0;
  referrals_tbl := []; referrals_seq := 0
|}.

(** What [predict_page] reads of a request, and the code
    [generate_referral_code()] draws if it is called. *)
Record request := {
  method : string;
  cookie_username : option string;
  cookie_referred_by : option string;
  form_username : option string;
  form_match_id : option string;
  form_outcome : option string;
  form_home_goals : option string;
  form_away_goals : option string;
  url_root : string;
  drawn_referral_code : string
}.

(** The answers of [predict_page]: a text with status 400, the redirect
    to the page itself (with the [username] cookie it sets, if any), the
    two templates, and the status 500 of an exception nothing catches. *)
Inductive response :=
  | BadRequest (body : string)
  | RedirectToPredict (username_cookie : option string)
  | RegistrationForm
  | PredictList (user : Z * user_row) (matches : list (Z * match_row)) (ref_link : string)
  | InternalServerError.

(** A cookie or form value that Python takes as true: present and not
    empty. *)
Definition truthy (v : option string) : option string :=
  match v with
  | Some s => if decide (s = EmptyString) then None else Some s
  | None => None
  end.

(** [SELECT ... FROM users WHERE username = ?] with [fetchone()] *)
Definition user_by_username (us : gmap Z user_row) (username : string)
    : option (Z * user_row) :=
  head (filter (λ ir : Z * user_row, ir.2.(u_username) = username) (map_to_list us)).

(** [SELECT id FROM users WHERE referral_code = ?] with [fetchone()] *)
Definition user_by_referral_code (us : gmap Z user_row) (code : string)
    : option (Z * user_row) :=
  head (filter (λ ir : Z * user_row, ir.2.(u_referral_code) = code) (map_to_list us)).

Definition with_tables (s : store) (g : game) : store :=
  {| tables := g; users_seq := s.(users_seq); predictions_seq := s.(predictions_seq);
     referrals_tbl := s.(referrals_tbl); referrals_seq := s.(referrals_seq) |}.

(** [INSERT INTO users (username, referral_code, referred_by_code)]:
    [None] is the IntegrityError of the two UNIQUE constraints; the new
    row has no points, and its id is the one [AUTOINCREMENT] gives
    while no stored id exceeds the counter. *)
Definition insert_user (s : store) (username referral_code : string)
    (referred_by : option string) : option store :=
  let us := s.(tables).(users_tbl) in
  if decide (is_Some (user_by_username us username)
             ∨ is_Some (user_by_referral_code us referral_code))
  then None
  else
    let new_id := (s.(users_seq) + 1)%Z in
    let row := {| u_username := username; u_referral_code := referral_code;
                  u_referred_by_code := referred_by; u_points := 0 |} in
    Some {| tables := {| users_tbl := <[new_id := row]> us;
                         predictions_tbl := s.(tables).(predictions_tbl) |};
            users_seq := new_id; predictions_seq := s.(predictions_seq);
            referrals_tbl := s.(referrals_tbl); referrals_seq := s.(referrals_seq) |}.

(** The [UPDATE users SET points = points + 50] and the
    [INSERT INTO referrals] of a registration by referral. *)
Definition pay_referral (s : store) (referrer_id new_user_id : Z) : store :=
  let new_id := (s.(referrals_seq) + 1)%Z in
  {| tables := {| users_tbl := alter (add_points 50) referrer_id s.(tables).(users_tbl);
                  predictions_tbl := s.(tables).(predictions_tbl) |};
     users_seq := s.(users_seq); predictions_seq := s.(predictions_seq);
     referrals_tbl :=
       s.(referrals_tbl)
       ++ [{| r_id := new_id; r_referrer_user_id := referrer_id;
              r_referred_user_id := new_user_id; r_bonus_points := 50 |}];
     referrals_seq := new_id |}.

(** The branch "Create user" of a POST without a [username] cookie. *)
Definition register `{WebLib} (req : request) (s : store) : store * response :=
  let candidate_username := str_strip (default EmptyString req.(form_username)) in
  if decide (str_len candidate_username < 3 ∨ 20 < str_len candidate_username)%nat then
    (s, BadRequest "Username must be 3-20 characters")
  else
    let referred_by := req.(cookie_referred_by) in
    let ref_code := req.(drawn_referral_code) in
    let resp := RedirectToPredict (Some candidate_username) in
    match insert_user s candidate_username ref_code referred_by with
    | Some s1 =>
        match truthy referred_by with
        | Some code =>
            match user_by_referral_code s1.(tables).(users_tbl) code with
            | Some referrer =>
                match user_by_username s1.(tables).(users_tbl) candidate_username with
                | Some new_user => (pay_referral s1 referrer.1 new_user.1, resp)
                | None => (s1, InternalServerError)
                end
            | None => (s1, resp)
            end
        | None => (s1, resp)
        end
    | None => (s, resp)
    end.

(** The value bound to an INTEGER column for a form field that is
    absent ([missing]) or holds a text. *)
Definition bind_integer `{WebLib} (missing : column_value) (v : option string)
    : column_value :=
  match v with
  | Some text => integer_affinity text
  | None => missing
  end.

(** A goal column as the scoring reads it. *)
Definition goal_value (v : column_value) : option Z :=
  match v with
  | SqlInteger n => Some n
  | SqlNull | SqlOther _ => None
  end.

(** The rows [UNIQUE(user_id, match_id)] does not let a second time:
    [NULL] is distinct from every value, itself included. *)
Definition same_user_match (user_id : Z) (match_id : column_value) (p : prediction)
    : Prop :=
  match_id ≠ SqlNull ∧ p.(p_user_id) = user_id ∧ p.(p_match_id) = match_id.

#[global] Instance same_user_match_dec user_id match_id p :
  Decision (same_user_match user_id match_id p).
Proof. unfold same_user_match. apply _. Defined.

(** [INSERT INTO predictions (user_id, match_id, predicted_outcome,
    predicted_home_goals, predicted_away_goals)]: [None] is the
    IntegrityError of the UNIQUE constraint; the new row is PENDING
    with no points. *)
Definition insert_prediction (s : store) (user_id : Z) (match_id : column_value)
    (outcome : option string) (h_goals a_goals : column_value) : option store :=
  let ps := s.(tables).(predictions_tbl) in
  if decide (Exists (λ ip : Z * prediction, same_user_match user_id match_id ip.2)
               (map_to_list ps))
  then None
  else
    let new_id := (s.(predictions_seq) + 1)%Z in
    let row := {| p_user_id := user_id; p_match_id := match_id;
                  p_predicted_outcome := outcome;
                  p_predicted_home_goals := goal_value h_goals;
                  p_predicted_away_goals := goal_value a_goals;
                  p_points_awarded := 0; p_status := "PENDING" |} in
    Some {| tables := {| users_tbl := s.(tables).(users_tbl);
                         predictions_tbl := <[new_id := row]> ps |};
            users_seq := s.(users_seq); predictions_seq := new_id;
            referrals_tbl := s.(referrals_tbl); referrals_seq := s.(referrals_seq) |}.

(** The branch "Save prediction" of a POST with the cookie [username]. *)
Definition save_prediction `{WebLib} (req : request) (username : string) (s : store)
    : store * response :=
  let match_id := bind_integer SqlNull req.(form_match_id) in
  let outcome := req.(form_outcome) in
  let h_goals := bind_integer (SqlInteger 0) req.(form_home_goals) in
  let a_goals := bind_integer (SqlInteger 0) req.(form_away_goals) in
  match user_by_username s.(tables).(users_tbl) username with
  | None => (s, RedirectToPredict None)
  | Some user =>
      match insert_prediction s user.1 match_id outcome h_goals a_goals with
      | Some s' => (s', RedirectToPredict None)
      | None => (s, BadRequest "You already predicted this match!")
      end
  end.

(** The statuses of the query of the listing. *)
Definition predictable_statuses : list string :=
  ["LIVE"; "IN_PLAY"; "PAUSED"; "SCHEDULED"; "TIMED"].

(** The text the TEXT column [utc_date] holds. *)
Definition utc_date_text (v : json_scalar) : option string :=
  match v with
  | JNull => None
  | JStr s => Some s
  | JInt n => Some (pretty n)
  end.

(** The order of [ORDER BY utc_date ASC]: [NULL] first, then the texts
    byte by byte. *)
Definition kickoff_le (a b : Z * match_row) : Prop :=
  match utc_date_text a.2.(m_utc_date), utc_date_text b.2.(m_utc_date) with
  | None, _ => True
  | Some _, None => False
  | Some x, Some y => String.leb x y = true
  end.

#[global] Instance kickoff_le_dec : RelDecision kickoff_le.
Proof.
  intros a b. unfold kickoff_le.
  destruct (utc_date_text a.2.(m_utc_date)), (utc_date_text b.2.(m_utc_date)); apply _.
Defined.

(** [s.rstrip(c)] for a character [c]. *)
Fixpoint rstrip (c : ascii) (s : string) : string :=
  match s with
  | EmptyString => EmptyString
  | String a s' =>
      match rstrip c s' with
      | EmptyString => if decide (a = c) then EmptyString else String a EmptyString
      | r => String a r
      end
  end.

(** [SELECT match_id FROM predictions WHERE user_id = ?] *)
Definition pred_ids (user_id : Z) (ps : gmap Z prediction) : list column_value :=
  (λ ip : Z * prediction, ip.2.(p_match_id))
    <$> filter (λ ip : Z * prediction, ip.2.(p_user_id) = user_id) (map_to_list ps).

(** The matches the listing offers to a user. *)
Definition available_matches (user_id : Z) (d : database) (ps : gmap Z prediction)
    : list (Z * match_row) :=
  let matches_raw :=
    merge_sort kickoff_le
      (filter (λ ir : Z * match_row, ir.2.(m_status) ∈ predictable_statuses)
         (map_to_list d.(matches_tbl))) in
  filter (λ ir : Z * match_row, SqlInteger ir.1 ∉ pred_ids user_id ps) matches_raw.

(** The branch "Show form or listing" with the cookie [username]. *)
Definition predict_list (req : request) (username : string) (d : database) (s : store)
    : response :=
  match user_by_username s.(tables).(users_tbl) username with
  | None => InternalServerError
  | Some user_data =>
      let available_matches :=
        available_matches user_data.1 d s.(tables).(predictions_tbl) in
      let ref_link :=
        rstrip "/" req.(url_root) +:+ "/ref/" +:+ user_data.2.(u_referral_code) in
      PredictList user_data available_matches ref_link
  end.

(** [predict_page]: the tables after the request, and the answer. *)
Definition predict_page `{WebLib} (req : request) (d : database) (s : store)
    : store * response :=
  let username := truthy req.(cookie_username) in
  if decide (req.(method) = "POST") then
    match username with
    | None => register req s
    | Some username => save_prediction req username s
    end
  else
    match username with
    | None => (s, RegistrationForm)
    | Some username => (s, predict_list req username d s)
    end.

(** ** Leaderboard *)

Definition points_ge (a b : Z * user_row) : Prop :=
  (b.2.(u_points) ≤ a.2.(u_points))%Z.

#[global] Instance points_ge_dec : RelDecision points_ge :=
  λ a b, decide (b.2.(u_points) ≤ a.2.(u_points))%Z.

(** [SELECT username, points FROM users ORDER BY points DESC LIMIT 50],
    the rows [leaderboard] shows. *)
Definition leaderboard (us : gmap Z user_row) : list (string * Z) :=
  (λ ir : Z * user_row, (ir.2.(u_username), ir.2.(u_points)))
    <$> take 50 (merge_sort points_ge (map_to_list us)).

(** ** The site: poll cycles and requests, one at a time *)

Inductive event :=
  | Cycle (inp : cycle_input)
  | PredictPage (req : request).

Definition site : Type := state * store.

Definition init_site : site := (init_state, init_store).

Definition site_step `{PyLib} `{WebLib} (x : site) (e : event) : site :=
  match e with
  | Cycle inp =>
      let sg := poll_and_score inp (x.1, x.2.(tables)) in
      (sg.1, with_tables x.2 sg.2)
  | PredictPage req => (x.1, (predict_page req x.1.(db) x.2).1)
  end.

Definition site_run `{PyLib} `{WebLib} (es : list event) (x : site) : site :=
  foldl site_step x es.

(** The points prediction rows record for a user. *)
Definition awarded_in (user_id : Z) (l : list (Z * prediction)) : Z :=
  foldr (λ (ip : Z * prediction) acc,
           if decide (ip.2.(p_user_id) = user_id)
           then (ip.2.(p_points_awarded) + acc)%Z else acc)
    0%Z l.

Definition awarded_to (user_id : Z) (ps : gmap Z prediction) : Z :=
  awarded_in user_id (map_to_list ps).

(** The bonus points referral rows record for a user. *)
Definition referral_bonus (user_id : Z) (rs : list referral) : Z :=
  foldr (λ r acc,
           if decide (r.(r_referrer_user_id) = user_id)
           then (r.(r_bonus_points) + acc)%Z else acc)
    0%Z rs.

(** The constraints of the schema and what the code keeps on top of
    them. *)
Record store_wf (s : store) : Prop := {
  wf_users_seq : ∀ id u, s.(tables).(users_tbl) !! id = Some u → (id ≤ s.(users_seq))%Z;
  wf_username_unique : ∀ id id' u u',
    s.(tables).(users_tbl) !! id = Some u → s.(tables).(users_tbl) !! id' = Some u' →
    u.(u_username) = u'.(u_username) → id = id';
  wf_referral_code_unique : ∀ id id' u u',
    s.(tables).(users_tbl) !! id = Some u → s.(tables).(users_tbl) !! id' = Some u' →
    u.(u_referral_code) = u'.(u_referral_code) → id = id';
  wf_predictions_seq : ∀ id p,
    s.(tables).(predictions_tbl) !! id = Some p → (id ≤ s.(predictions_seq))%Z;
  wf_prediction_user : ∀ id p,
    s.(tables).(predictions_tbl) !! id = Some p →
    is_Some (s.(tables).(users_tbl) !! p.(p_user_id));
  wf_prediction_unique : ∀ id id' p p',
    s.(tables).(predictions_tbl) !! id = Some p →
    s.(tables).(predictions_tbl) !! id' = Some p' →
    p.(p_user_id) = p'.(p_user_id) → p.(p_match_id) = p'.(p_match_id) →
    p.(p_match_id) ≠ SqlNull → id = id';
  wf_prediction_status : ∀ id p,
    s.(tables).(predictions_tbl) !! id = Some p →
    (p.(p_status) = "PENDING" ∧ p.(p_points_awarded) = 0%Z)
    ∨ (p.(p_status) = "SCORED" ∧ (0 ≤ p.(p_points_awarded) ≤ 320)%Z);
  wf_referral_users : ∀ r, r ∈ s.(referrals_tbl) →
    is_Some (s.(tables).(users_tbl) !! r.(r_referrer_user_id))
    ∧ is_Some (s.(tables).(users_tbl) !! r.(r_referred_user_id))
    ∧ r.(r_bonus_points) = 50%Z
}.

(** A prediction row after [score_predictions]. *)
Definition scored_row (ms : gmap Z match_row) (id : Z) (p : prediction) : prediction :=
  match join_finished ms id p with
  | Some j => set_scored (prediction_points p j.(j_actual_h) j.(j_actual_a)) p
  | None => p
  end.

(** The points column of every user is the sum of what the other two
    tables record for that user. *)
Definition balanced (s : store) : Prop :=
  ∀ id u, s.(tables).(users_tbl) !! id = Some u →
    u.(u_points)
    = (referral_bonus id s.(referrals_tbl)
       + awarded_to id s.(tables).(predictions_tbl))%Z.

(** *** An instance for ASCII text *)

(** [s.lstrip(c)] for a character [c]. *)
Fixpoint lstrip (c : ascii) (s : string) : string :=
  match s with
  | EmptyString => EmptyString
  | String a s' => if decide (a = c) then lstrip c s' else s
  end.

(** The value of a decimal digit, and of a text of digits. *)
Definition digit_value (c : ascii) : option Z :=
  let n := Z.of_N (N_of_ascii c) in
  if decide (48 ≤ n ≤ 57)%Z then Some (n - 48)%Z else None.

Fixpoint digits_value (acc : Z) (s : string) : option Z :=
  match s with
  | EmptyString => Some acc
  | String c s' =>
      match digit_value c with
      | Some d => digits_value (10 * acc + d) s'
      | None => None
      end
  end.

(** A text of decimal digits is kept as an integer, any other text as
    it is. *)
Definition ascii_affinity (s : string) : column_value :=
  match s with
  | EmptyString => SqlOther s
  | _ => match digits_value 0 s with
         | Some n => SqlInteger n
         | None => SqlOther s
         end
  end.

(** [strip] removes blanks, [len] counts bytes. *)
Definition ascii_lib : WebLib := {|
  str_strip := λ s, lstrip " " (rstrip " " s);
  str_len := String.length;
  integer_affinity := ascii_affinity
|}.

(** A registration form and a prediction form. *)
Definition registration (username : string) (referred_by : option string) (code : string)
    : request :=
  {| method := "POST"; cookie_username := None; cookie_referred_by := referred_by;
     form_username := Some username; form_match_id := None; form_outcome := None;
     form_home_goals := None; form_away_goals := None;
     url_root := "http://localhost:5000/"; drawn_referral_code := code |}.

Definition prediction_form (username match_id outcome h a : string) : request :=
  {| method := "POST"; cookie_username := Some username; cookie_referred_by := None;
     form_username := None; form_match_id := Some match_id;
     form_outcome := Some outcome;
     form_home_goals := Some h; form_away_goals := Some a;
     url_root := "http://localhost:5000/"; drawn_referral_code := EmptyString |}.

(** Two registrations, the second by the referral link of the first, a
    prediction on match 2 while it is in play, and the cycle in which
    the feed no longer names the match. *)
Definition sample_events : list event := [
  PredictPage (registration " ada " None "AAAA1111");
  PredictPage (registration "bob" (Some "AAAA1111") "BBBB2222");
  Cycle (feed_input 1714588170000000 [sample_feed_match]);
  PredictPage (prediction_form "bob" "2" "HOME" "1" "0");
  Cycle (feed_input 1714588230000000 [])
].

(** A GET of [/predict] by a browser that holds the [username] cookie. *)
Definition listing_request (username : string) : request :=
  {| method := "GET"; cookie_username := Some username; cookie_referred_by := None;
     form_username := None; form_match_id := None; form_outcome := None;
     form_home_goals := None; form_away_goals := None;
     url_root := "http://localhost:5000/"; drawn_referral_code := EmptyString |}.

(** * Properties *)

(** ** Python primitives *)

Lemma ltb_lt (a b : Q) : Py.ltb a b = true ↔ a < b.
Proof. unfold Py.ltb, Qlt. apply Z.ltb_lt. Qed.

Lemma ltb_ge (a b : Q) : Py.ltb a b = false ↔ b <= a.
Proof. unfold Py.ltb, Qle. apply Z.ltb_ge. Qed.

Lemma py_min_Qmin (a b : Q) : Py.min a b == Qmin a b.
Proof.
  unfold Py.min. destruct (Py.ltb b a) eqn:E.
  - apply ltb_lt in E. symmetry. apply Q.min_r. lra.
  - apply ltb_ge in E. symmetry. apply Q.min_l. lra.
Qed.

Lemma py_max_Qmax (a b : Q) : Py.max a b == Qmax a b.
Proof.
  unfold Py.max. destruct (Py.ltb a b) eqn:E.
  - apply ltb_lt in E. symmetry. apply Q.max_r. lra.
  - apply ltb_ge in E. symmetry. apply Q.max_l. lra.
Qed.

Lemma clip_clamp (x lo hi : Q) : Py.clip x lo hi == PressureSpec.clamp x lo hi.
Proof.
  unfold Py.clip, PressureSpec.clamp.
  assert (Hm : (if Py.ltb x lo then lo else x) == Qmax x lo).
  { destruct (Py.ltb x lo) eqn:E.
    - apply ltb_lt in E. symmetry. apply Q.max_r. lra.
    - apply ltb_ge in E. symmetry. apply Q.max_l. lra. }
  destruct (Py.ltb hi _) eqn:E.
  - apply ltb_lt in E. symmetry. apply Q.min_r. rewrite <- Hm. lra.
  - apply ltb_ge in E. rewrite Q.min_l; [now symmetry | rewrite <- Hm; lra].
Qed.

Lemma clip_int_clamp (x lo hi : Z) :
  inject_Z (Py.clip_int x lo hi)
  == PressureSpec.clamp (inject_Z x) (inject_Z lo) (inject_Z hi).
Proof.
  unfold Py.clip_int, PressureSpec.clamp.
  destruct (Z.max_spec x lo) as [[H1 ->]|[H1 ->]];
    [ rewrite (Q.max_r (inject_Z x)) by (rewrite <- Zle_Qle; lia)
    | rewrite (Q.max_l (inject_Z x)) by (rewrite <- Zle_Qle; lia) ].
  - destruct (Z.min_spec lo hi) as [[H2 ->]|[H2 ->]];
      [ rewrite Q.min_l by (rewrite <- Zle_Qle; lia)
      | rewrite Q.min_r by (rewrite <- Zle_Qle; lia) ]; reflexivity.
  - destruct (Z.min_spec x hi) as [[H2 ->]|[H2 ->]];
      [ rewrite Q.min_l by (rewrite <- Zle_Qle; lia)
      | rewrite Q.min_r by (rewrite <- Zle_Qle; lia) ]; reflexivity.
Qed.

#[global] Instance clamp_proper :
  Proper (Qeq ==> Qeq ==> Qeq ==> Qeq) PressureSpec.clamp.
Proof.
  intros x x' Hx lo lo' Hlo hi hi' Hhi. unfold PressureSpec.clamp.
  now rewrite Hx, Hlo, Hhi.
Qed.

Lemma clamp_bounds (x lo hi : Q) :
  lo <= hi → lo <= PressureSpec.clamp x lo hi <= hi.
Proof.
  intros H. unfold PressureSpec.clamp. split.
  - apply Q.min_glb; [apply Q.le_max_r | exact H].
  - apply Q.le_min_r.
Qed.

(** ** Pressure index *)

Lemma trend_impact_spec (score_home score_away : Z) (prev : list snapshot) :
  inject_Z
    match prev with
    | [] => 0%Z
    | last :: _ =>
        let t := if (last.(s_score_home) <? score_home)%Z then (0 + 40)%Z else 0%Z in
        if (last.(s_score_away) <? score_away)%Z then (t - 40)%Z else t
    end
  == PressureSpec.trend_impact score_home score_away (head prev).
Proof.
  destruct prev as [|last prev]; simpl; [reflexivity|].
  destruct (Z.ltb_spec (s_score_home last) score_home);
    destruct (Z.ltb_spec (s_score_away last) score_away);
    repeat case_decide; try lia; reflexivity.
Qed.

(** C1.  On every input dict with its three keys and every list of
    prior snapshots (most recent first), [calculate_pressure_index]
    returns the specification's formula evaluated at the head of the
    list; at minute 45 with equal scores and no prior snapshot it
    returns 10. *)
Theorem calculate_pressure_index_formula
    (minute score_home score_away : Z) (prev : list snapshot) :
  calculate_pressure_index
    {| sd_minute := Some minute; sd_score_home := Some score_home;
       sd_score_away := Some score_away |} prev
  == PressureSpec.pressure minute score_home score_away (head prev)
  ∧ calculate_pressure_index
      {| sd_minute := Some 45%Z; sd_score_home := Some score_home;
         sd_score_away := Some score_home |} []
    == 10.
Proof.
  split.
  - unfold calculate_pressure_index, PressureSpec.pressure; cbn [Py.get sd_minute sd_score_home sd_score_away].
    rewrite clip_clamp. apply clamp_proper; try reflexivity.
    rewrite trend_impact_spec.
    unfold PressureSpec.base, PressureSpec.score_impact.
    rewrite clip_int_clamp, inject_Z_mult. reflexivity.
  - unfold calculate_pressure_index; cbn [Py.get sd_minute sd_score_home sd_score_away].
    rewrite Z.sub_diag. reflexivity.
Qed.

(** The worked examples of the specification: a 5-0 lead counts as 60,
    not 150; a home goal since the prior snapshot adds 40; an away goal
    subtracts 40; both at once cancel. *)
Example score_impact_is_clamped :
  calculate_pressure_index
    {| sd_minute := Some 0%Z; sd_score_home := Some 5%Z; sd_score_away := Some 0%Z |} []
  == 60.
Proof. reflexivity. Qed.

Example home_goal_adds_40 :
  calculate_pressure_index
    {| sd_minute := Some 0%Z; sd_score_home := Some 2%Z; sd_score_away := Some 0%Z |}
    [{| s_id := 1; s_match_id := 1; s_timestamp := 0; s_minute := 0;
        s_score_home := 1; s_score_away := 0; s_pressure_index := 30 |}]
  == 60 + 40.
Proof. reflexivity. Qed.

Example away_goal_subtracts_40 :
  calculate_pressure_index
    {| sd_minute := Some 0%Z; sd_score_home := Some 0%Z; sd_score_away := Some 1%Z |}
    [snapshot_of_pressure 0]
  == -30 - 40.
Proof. reflexivity. Qed.

Example both_goals_cancel :
  calculate_pressure_index
    {| sd_minute := Some 90%Z; sd_score_home := Some 1%Z; sd_score_away := Some 1%Z |}
    [snapshot_of_pressure 0]
  == 20.
Proof. reflexivity. Qed.

(** The result always lies in [-100, 100]. *)
Lemma calculate_pressure_index_bounds (data : snapshot_data) (prev : list snapshot) :
  -100 <= calculate_pressure_index data prev <= 100.
Proof.
  unfold calculate_pressure_index. rewrite clip_clamp. apply clamp_bounds. lra.
Qed.

(** ** Forecast *)

#[global] Instance ltb_proper : Proper (Qeq ==> Qeq ==> eq) Py.ltb.
Proof.
  intros a a' Ha b b' Hb.
  destruct (Py.ltb a' b') eqn:E.
  - apply ltb_lt. apply ltb_lt in E. now rewrite Ha, Hb.
  - apply ltb_ge. apply ltb_ge in E. now rewrite Ha, Hb.
Qed.

Lemma py_int_nonneg (x : Q) : 0 <= x → Py.int x = Qfloor x.
Proof.
  destruct x as [n d]. unfold Qle, Py.int, Qfloor. simpl. intros Hn.
  apply Z.quot_div_nonneg; lia.
Qed.

Lemma py_int_neg (x : Q) : x <= 0 → Py.int x = Qceiling x.
Proof.
  destruct x as [n d]. unfold Qle, Py.int, Qceiling, Qfloor. simpl. intros Hn.
  rewrite <- (Z.opp_involutive n) at 1. rewrite Z.quot_opp_l by lia.
  f_equal. apply Z.quot_div_nonneg; lia.
Qed.

#[global] Instance py_int_proper : Proper (Qeq ==> eq) Py.int.
Proof.
  intros x y Hxy. destruct (Qlt_le_dec x 0) as [Hx|Hx].
  - rewrite (py_int_neg x), (py_int_neg y) by lra. now rewrite Hxy.
  - rewrite (py_int_nonneg x), (py_int_nonneg y) by lra. now rewrite Hxy.
Qed.

Lemma py_int_inject_Z (n : Z) : Py.int (inject_Z n) = n.
Proof. unfold Py.int. simpl. apply Z.quot_1_r. Qed.

Lemma py_int_bounds (x : Q) (lo hi : Z) :
  (lo <= 0 <= hi)%Z → inject_Z lo <= x <= inject_Z hi → (lo ≤ Py.int x ≤ hi)%Z.
Proof.
  intros Hz [Hlo Hhi]. destruct (Qlt_le_dec x 0) as [Hx|Hx].
  - rewrite py_int_neg by lra. split.
    + rewrite <- (Qceiling_Z lo). now apply Qceiling_resp_le.
    + transitivity (Qceiling 0); [apply Qceiling_resp_le; lra|].
      change (Qceiling 0) with 0%Z. lia.
  - rewrite py_int_nonneg by lra. split.
    + transitivity (Qfloor 0); [|now apply Qfloor_resp_le].
      change (Qfloor 0) with 0%Z. lia.
    + rewrite <- (Qfloor_Z hi). now apply Qfloor_resp_le.
Qed.

Lemma length_last_n {A} (n : nat) (l : list A) :
  length (Py.last_n n l) = Nat.min n (length l).
Proof. unfold Py.last_n. rewrite length_drop. lia. Qed.

Lemma last_n_suffix {A} (n : nat) (l : list A) : Py.last_n n l `suffix_of` l.
Proof. apply suffix_drop. Qed.

(** *** Least squares *)

Lemma Qsquare_nonneg (u : Q) : 0 <= u * u.
Proof.
  destruct (Qlt_le_dec u 0).
  - assert (E' : u * u == (- u) * (- u)) by ring. rewrite E'.
    apply Qmult_le_0_compat; lra.
  - apply Qmult_le_0_compat; lra.
Qed.

Lemma Qsquare_zero (u : Q) : u * u <= 0 → u == 0.
Proof.
  intros H. destruct (Qeq_dec u 0) as [E|E]; [exact E|]. exfalso.
  assert (Hpos : 0 < u * u).
  { destruct (Qlt_le_dec u 0).
    - assert (E' : u * u == (- u) * (- u)) by ring. rewrite E'.
      apply Qmult_lt_0_compat; lra.
    - apply Qmult_lt_0_compat; lra. }
  lra.
Qed.

Lemma sse_nonneg (x y : list Q) (a b : Q) : 0 <= sse x y a b.
Proof.
  revert y. induction x as [|xi x IH]; intros [|yi y]; simpl; try lra.
  specialize (IH y). pose proof (Qsquare_nonneg (yi - (a * xi + b))). lra.
Qed.

Lemma sse_constant (x y : list Q) (c : Q) :
  Forall (λ v, v == c) y → sse x y 0 c == 0.
Proof.
  intros Hy. revert x. induction Hy as [|yi y Hyi _ IH]; intros [|xi x]; simpl;
    try reflexivity.
  rewrite IH, Hyi. ring.
Qed.

(** A least-squares line through at least two points of a constant
    sequence, taken at [x = 0, 1, ...], is flat. *)
Lemma least_squares_constant (y : list Q) (c a b : Q) :
  (2 ≤ length y)%nat →
  Forall (λ v, v == c) y →
  least_squares (Py.range (length y)) y a b →
  a == 0.
Proof.
  intros Hlen Hy Hls. specialize (Hls 0 c).
  rewrite sse_constant in Hls by exact Hy.
  destruct y as [|y0 [|y1 y]]; simpl in Hlen; try lia.
  inversion Hy as [|? ? H0 Hy']; subst. inversion Hy' as [|? ? H1 _]; subst.
  unfold Py.range in Hls. simpl in Hls.
  pose proof (sse_nonneg ((λ i : nat, inject_Z (Z.of_nat i)) <$> seq 2 (length y)) y a b) as Hr.
  set (r := sse _ y a b) in *.
  change (inject_Z (Z.of_nat 0)) with 0 in Hls.
  change (inject_Z (Z.of_nat 1)) with 1 in Hls.
  pose proof (Qsquare_nonneg (y0 - (a * 0 + b))) as S0.
  pose proof (Qsquare_nonneg (y1 - (a * 1 + b))) as S1.
  assert (E0 : y0 - (a * 0 + b) == 0) by (apply Qsquare_zero; lra).
  assert (E1 : y1 - (a * 1 + b) == 0) by (apply Qsquare_zero; lra).
  lra.
Qed.

Lemma Qsum_constant (y : list Q) (c : Q) :
  Forall (λ v, v == c) y → Qsum y == inject_Z (Z.of_nat (length y)) * c.
Proof.
  induction 1 as [|yi y Hyi _ IH]; simpl Qsum; [simpl; ring|].
  rewrite IH, Hyi, length_cons, Nat2Z.inj_succ, <- Z.add_1_r, inject_Z_plus.
  change (inject_Z 1) with 1. ring.
Qed.

Lemma np_mean_constant (y : list Q) (c : Q) :
  y ≠ [] → Forall (λ v, v == c) y → np_mean y == c.
Proof.
  intros Hne Hy. unfold np_mean. rewrite Qsum_constant by exact Hy.
  field. destruct y; [done|]. rewrite length_cons, Nat2Z.inj_succ.
  change 0 with (inject_Z 0). rewrite inject_Z_injective. lia.
Qed.

Lemma population_variance_constant (y : list Q) (c : Q) :
  y ≠ [] → Forall (λ v, v == c) y → population_variance y == 0.
Proof.
  intros Hne Hy. unfold population_variance.
  apply (np_mean_constant _ 0).
  - now destruct y.
  - apply Forall_fmap. eapply Forall_impl; [exact Hy|]. intros v Hv. simpl.
    rewrite (np_mean_constant y c Hne Hy), Hv. ring.
Qed.

Lemma inject_Z_length_cons {A} (v : A) (l : list A) :
  inject_Z (Z.of_nat (length (v :: l))) == inject_Z (Z.of_nat (length l)) + 1.
Proof.
  rewrite length_cons, Nat2Z.inj_succ, <- Z.add_1_r, inject_Z_plus. reflexivity.
Qed.

Lemma sse_expand (x y : list Q) (a b : Q) :
  length x = length y →
  sse x y a b
  == Qdot y y - 2 * a * Qdot x y - 2 * b * Qsum y
     + a * a * Qdot x x + 2 * a * b * Qsum x
     + inject_Z (Z.of_nat (length x)) * b * b.
Proof.
  revert y. induction x as [|xi x IH]; intros [|yi y] Hlen; try discriminate.
  - cbn [sse Qdot Qsum foldr length]. change (inject_Z (Z.of_nat 0)) with 0. ring.
  - rewrite inject_Z_length_cons. cbn [sse Qdot].
    change (Qsum (yi :: y)) with (yi + Qsum y).
    change (Qsum (xi :: x)) with (xi + Qsum x).
    rewrite IH by (simpl in Hlen; lia). ring.
Qed.

Lemma quadratic_form_nonneg (x : list Q) (u v : Q) :
  0 <= u * u * Qdot x x + 2 * u * v * Qsum x
       + inject_Z (Z.of_nat (length x)) * v * v.
Proof.
  induction x as [|xi x IH].
  - cbn [Qdot Qsum foldr length]. change (inject_Z (Z.of_nat 0)) with 0. lra.
  - rewrite inject_Z_length_cons. cbn [Qdot].
    change (Qsum (xi :: x)) with (xi + Qsum x).
    pose proof (Qsquare_nonneg (u * xi + v)). lra.
Qed.

(** The closed form solves the normal equations, hence minimises the
    sum of squared residuals. *)
Lemma lstsq_line_least_squares (x y : list Q) (a b : Q) :
  length x = length y →
  lstsq_line x y = Some (a, b) →
  least_squares x y a b.
Proof.
  intros Hlen Hfit a' b'. unfold lstsq_line in Hfit.
  set (n := inject_Z (Z.of_nat (length x))) in *.
  destruct (Qeq_bool _ 0) eqn:Hdet; [discriminate|].
  apply Qeq_bool_neq in Hdet.
  injection Hfit as Ha Hb.
  match type of Ha with Qred ?s = _ =>
    assert (Ha' : s == a) by (rewrite <- Ha; symmetry; apply Qred_correct)
  end.
  match type of Hb with Qred ?s = _ =>
    assert (Hb' : s == b) by (rewrite <- Hb; symmetry; apply Qred_correct)
  end.
  clear Ha Hb. rename Ha' into Ha, Hb' into Hb.
  assert (Hn : ¬ n == 0).
  { intros Hn. apply Hdet. subst n. destruct x; [simpl; ring|].
    exfalso. revert Hn. rewrite length_cons, Nat2Z.inj_succ.
    change 0 with (inject_Z 0). rewrite inject_Z_injective. lia. }
  assert (E2 : a * Qsum x + n * b == Qsum y).
  { rewrite <- Hb, <- Ha. field. split; [exact Hdet | exact Hn]. }
  assert (E1 : a * Qdot x x + b * Qsum x == Qdot x y).
  { rewrite <- Hb, <- Ha. field. split; [exact Hdet | exact Hn]. }
  rewrite !sse_expand by exact Hlen. fold n.
  pose proof (quadratic_form_nonneg x (a' - a) (b' - b)) as Hq. fold n in Hq.
  rewrite <- E1, <- E2. lra.
Qed.


Lemma Qsum_nonneg (l : list Q) : Forall (λ v, 0 <= v) l → 0 <= Qsum l.
Proof.
  induction 1 as [|v l Hv _ IH]; [apply Qle_refl|].
  change (Qsum (v :: l)) with (v + Qsum l). lra.
Qed.

Lemma np_var_nonneg (y : list Q) : 0 <= population_variance y.
Proof.
  unfold population_variance. set (m := np_mean y). unfold np_mean, Qdiv.
  apply Qmult_le_0_compat.
  - apply Qsum_nonneg, Forall_fmap, Forall_forall. intros v _. simpl.
    apply Qsquare_nonneg.
  - apply Qinv_le_0_compat. change 0 with (inject_Z 0).
    rewrite <- Zle_Qle. lia.
Qed.

Lemma inject_Z_sub (a b : Z) : inject_Z (a - b) == inject_Z a - inject_Z b.
Proof. unfold Z.sub. rewrite inject_Z_plus, inject_Z_opp. reflexivity. Qed.


Lemma py_int_ge (x : Q) (n : Z) : (0 ≤ n)%Z → inject_Z n <= x → (n ≤ Py.int x)%Z.
Proof.
  intros Hn Hx. assert (0 <= x).
  { apply Qle_trans with (inject_Z n); [|exact Hx].
    change 0 with (inject_Z 0). now rewrite <- Zle_Qle. }
  rewrite py_int_nonneg by assumption.
  rewrite <- (Qfloor_Z n). now apply Qfloor_resp_le.
Qed.

Lemma py_int_le (x : Q) (n : Z) : 0 <= x → x <= inject_Z n → (Py.int x ≤ n)%Z.
Proof.
  intros H0 Hx. rewrite py_int_nonneg by assumption.
  rewrite <- (Qfloor_Z n). now apply Qfloor_resp_le.
Qed.

Lemma clamp_ge (x lo hi c : Q) : c <= x → c <= hi → c <= PressureSpec.clamp x lo hi.
Proof.
  intros Hx Hhi. unfold PressureSpec.clamp. apply Q.min_glb; [|exact Hhi].
  apply Qle_trans with x; [exact Hx | apply Q.le_max_l].
Qed.

Lemma clamp_le (x lo hi c : Q) : x <= c → lo <= c → PressureSpec.clamp x lo hi <= c.
Proof.
  intros Hx Hlo. unfold PressureSpec.clamp.
  apply Qle_trans with (Qmax x lo); [apply Q.le_min_l|].
  now apply Q.max_lub.
Qed.
(** *** Float arithmetic *)

Lemma float_le_above (c : Q) (a : pyfloat) :
  Float.le (Fin c) a ↔ a = PosInf ∨ ∃ x, a = Fin x ∧ c <= x.
Proof.
  destruct a as [x| | |]; cbn; split; try tauto.
  - intros Hx. right. eauto.
  - intros [|(x' & [= <-] & Hx)]; [discriminate|exact Hx].
  - intros [|(x' & [=] & _)]; discriminate.
  - intros [|(x' & [=] & _)]; discriminate.
Qed.

Lemma float_le_below (c : Q) (a : pyfloat) :
  Float.le a (Fin c) ↔ a = NegInf ∨ ∃ x, a = Fin x ∧ x <= c.
Proof.
  destruct a as [x| | |]; cbn; split; try tauto.
  - intros Hx. right. eauto.
  - intros [|(x' & [= <-] & Hx)]; [discriminate|exact Hx].
  - intros [|(x' & [=] & _)]; discriminate.
  - intros [|(x' & [=] & _)]; discriminate.
Qed.

Lemma float_le_weaken_l (c c' : Q) (a : pyfloat) :
  c' <= c → Float.le (Fin c) a → Float.le (Fin c') a.
Proof. destruct a; cbn; try tauto. intros. lra. Qed.

Lemma float_le_weaken_r (c c' : Q) (a : pyfloat) :
  c <= c' → Float.le a (Fin c) → Float.le a (Fin c').
Proof. destruct a; cbn; try tauto. intros. lra. Qed.

Section rounding.
Context `{PyLib} (laws : numeric_laws).

Lemma round64_not_NaN (x : Q) : round64 x ≠ NaN.
Proof.
  pose proof (round64_mono laws x x (Qle_refl x)) as Hm.
  destruct (round64 x); cbn in Hm; [discriminate..|done].
Qed.

Lemma round64_above (n : Z) (x : Q) :
  (Z.abs n ≤ 2 ^ 53)%Z → inject_Z n <= x → Float.le (Fin (inject_Z n)) (round64 x).
Proof.
  intros Hn Hx. pose proof (round64_mono laws _ _ Hx) as Hm.
  destruct (round64_int laws n Hn) as (r & Hr & Er). rewrite Hr in Hm.
  destruct (round64 x); cbn in *; try done. lra.
Qed.

Lemma round64_below (n : Z) (x : Q) :
  (Z.abs n ≤ 2 ^ 53)%Z → x <= inject_Z n → Float.le (round64 x) (Fin (inject_Z n)).
Proof.
  intros Hn Hx. pose proof (round64_mono laws _ _ Hx) as Hm.
  destruct (round64_int laws n Hn) as (r & Hr & Er). rewrite Hr in Hm.
  destruct (round64 x); cbn in *; try done. lra.
Qed.

(** A number of size up to 1000 is rounded to a finite value within
    [2^-42] of it. *)
Lemma round64_close (x : Q) :
  -1000 <= x <= 1000 →
  ∃ r, round64 x = Fin r
       ∧ - (1 # 4398046511104) <= r - x <= 1 # 4398046511104.
Proof.
  intros Hx.
  assert (Habs : Qabs x <= 1000) by (apply Qabs_Qle_condition; lra).
  destruct (round64_near laws x) as (r & Hr & Hnear).
  { apply Qle_trans with 1000; [exact Habs|]. now vm_compute. }
  exists r. split; [exact Hr|]. apply Qabs_Qle_condition.
  apply Qle_trans with (1 := Hnear).
  set (a := Qabs x) in *.
  assert (E : a / inject_Z (2 ^ 53) + 1 / inject_Z (2 ^ 60)
              == a * (1 # 9007199254740992) + (1 # 1152921504606846976)).
  { unfold Qdiv. reflexivity. }
  rewrite E. lra.
Qed.

End rounding.

Section forecast_arithmetic.
Context `{PyLib} (laws : numeric_laws).

Lemma mul_above (a : pyfloat) (n : Z) :
  (Z.abs n ≤ 1000)%Z → Float.le (Fin (inject_Z n)) a →
  Float.le (Fin (inject_Z (n * 10))) (Float.mul a 10).
Proof.
  intros Hn [->|(x & -> & Hx)]%float_le_above; [exact I|]. cbn.
  apply (round64_above laws); [lia|]. rewrite inject_Z_mult.
  change (inject_Z 10) with 10. lra.
Qed.

Lemma mul_below (a : pyfloat) (n : Z) :
  (Z.abs n ≤ 1000)%Z → Float.le a (Fin (inject_Z n)) →
  Float.le (Float.mul a 10) (Fin (inject_Z (n * 10))).
Proof.
  intros Hn [->|(x & -> & Hx)]%float_le_below; [exact I|]. cbn.
  apply (round64_below laws); [lia|]. rewrite inject_Z_mult.
  change (inject_Z 10) with 10. lra.
Qed.

Lemma add_above (a : pyfloat) (n : Z) :
  (Z.abs n ≤ 100000)%Z → Float.le (Fin (inject_Z n)) a →
  Float.le (Fin (inject_Z (50 + n))) (Float.add (Fin 50) a).
Proof.
  intros Hn [->|(x & -> & Hx)]%float_le_above; [exact I|]. cbn.
  apply (round64_above laws); [lia|]. rewrite inject_Z_plus.
  change (inject_Z 50) with 50. lra.
Qed.

Lemma add_below (a : pyfloat) (n : Z) :
  (Z.abs n ≤ 100000)%Z → Float.le a (Fin (inject_Z n)) →
  Float.le (Float.add (Fin 50) a) (Fin (inject_Z (50 + n))).
Proof.
  intros Hn [->|(x & -> & Hx)]%float_le_below; [exact I|]. cbn.
  apply (round64_below laws); [lia|]. rewrite inject_Z_plus.
  change (inject_Z 50) with 50. lra.
Qed.

Lemma sub_above (a : pyfloat) (p : Q) (n : Z) :
  (Z.abs n ≤ 100000)%Z → p <= 20 → Float.le (Fin (inject_Z n)) a →
  Float.le (Fin (inject_Z (n - 20))) (Float.sub a (Fin p)).
Proof.
  intros Hn Hp [->|(x & -> & Hx)]%float_le_above; [exact I|]. cbn.
  apply (round64_above laws); [lia|]. rewrite inject_Z_sub.
  change (inject_Z 20) with 20. lra.
Qed.

Lemma sub_below (a : pyfloat) (p : Q) (n : Z) :
  (Z.abs n ≤ 100000)%Z → 0 <= p → Float.le a (Fin (inject_Z n)) →
  Float.le (Float.sub a (Fin p)) (Fin (inject_Z n)).
Proof.
  intros Hn Hp [->|(x & -> & Hx)]%float_le_below; [exact I|]. cbn.
  apply (round64_below laws); [lia|]. lra.
Qed.

(** [min(max(v, 0), 100)] on floats: NaN stays NaN, anything else ends
    between 0 and 100. *)
Lemma float_clamp (v : pyfloat) :
  (v = NaN ∧ Float.min (Float.max v (Fin 0)) (Fin 100) = NaN)
  ∨ ∃ x, Float.min (Float.max v (Fin 0)) (Fin 100) = Fin x
         ∧ 0 <= x <= 100
         ∧ (∀ c, Float.le (Fin c) v → c <= 100 → c <= x)
         ∧ (∀ c, Float.le v (Fin c) → 0 <= c → x <= c)
         ∧ (∀ q, v = Fin q → x == PressureSpec.clamp q 0 100).
Proof.
  destruct v as [q| | |]; [| | |now left]; right.
  - unfold Float.max, Float.min, Float.ltb.
    destruct (Py.ltb q 0) eqn:E0.
    + apply ltb_lt in E0.
      assert (E1 : Py.ltb 100 0 = false) by reflexivity. rewrite E1.
      exists 0. split; [reflexivity|]. split; [lra|]. split; [|split].
      * cbn. intros. lra.
      * cbn. intros. lra.
      * intros q' [= <-]. unfold PressureSpec.clamp.
        rewrite Q.max_r, Q.min_l by lra. reflexivity.
    + apply ltb_ge in E0. destruct (Py.ltb 100 q) eqn:E1.
      * apply ltb_lt in E1. exists 100. split; [reflexivity|]. split; [lra|].
        split; [|split].
        -- cbn. intros. lra.
        -- cbn. intros. lra.
        -- intros q' [= <-]. unfold PressureSpec.clamp.
           rewrite Q.max_l, Q.min_r by lra. reflexivity.
      * apply ltb_ge in E1. exists q. split; [reflexivity|]. split; [lra|].
        split; [|split].
        -- cbn. intros. lra.
        -- cbn. intros. lra.
        -- intros q' [= <-]. unfold PressureSpec.clamp.
           rewrite Q.max_l, Q.min_l by (rewrite ?Q.max_l; lra). reflexivity.
  - exists 100. cbn. split; [reflexivity|]. split; [lra|]. split; [|split].
    + intros. lra.
    + intros c [].
    + intros q [=].
  - exists 0. cbn. split; [reflexivity|]. split; [lra|]. split; [|split].
    + intros c [].
    + intros. lra.
    + intros q [=].
Qed.

(** The volatility penalty is NaN when the variance is, and otherwise a
    number from 0 to 20. *)
Lemma penalty_cases (y : list Q) :
  let pen := Float.min (Float.div (np_var y) 10) (Fin 20) in
  (np_var y = NaN ∧ pen = NaN) ∨ (np_var y ≠ NaN ∧ ∃ p, pen = Fin p ∧ 0 <= p <= 20).
Proof.
  intros pen. unfold pen.
  destruct (np_var_sign laws y) as [Hnan|Hpos].
  { left. rewrite Hnan. split; reflexivity. }
  right. apply float_le_above in Hpos as [Hinf|(v & Hv & Hv0)].
  { rewrite Hinf. split; [discriminate|]. exists 20. cbn. split; [reflexivity|lra]. }
  rewrite Hv. split; [discriminate|]. cbn [Float.div].
  assert (Hd : Float.le (Fin (inject_Z 0)) (round64 (v / 10))).
  { apply (round64_above laws); [lia|]. change (inject_Z 0) with 0.
    unfold Qdiv. apply Qmult_le_0_compat; [exact Hv0 | now vm_compute]. }
  apply float_le_above in Hd as [->|(a & -> & Ha)].
  { exists 20. cbn. split; [reflexivity|lra]. }
  change (inject_Z 0) with 0 in Ha.
  unfold Float.min, Float.ltb. destruct (Py.ltb 20 a) eqn:E.
  - exists 20. split; [reflexivity|lra].
  - apply ltb_ge in E. exists a. split; [reflexivity|lra].
Qed.

End forecast_arithmetic.

(** What [get_forecast] computes once the fit has returned. *)
Lemma get_forecast_value `{PyLib}
    (snapshots : list snapshot) (slope intercept : pyfloat) :
  let y := s_pressure_index <$> Py.last_n 10 snapshots in
  (3 ≤ length snapshots)%nat →
  np_polyfit (Py.range (length y)) y = Some (slope, intercept) →
  ∃ text,
    get_forecast snapshots
    = match Float.int (forecast_value slope y) with
      | Returns p =>
          Returns {| level := if Float.ltb (Fin 1) slope then "High"
                              else if Float.ltb (Fin (-1)) slope then "Moderate"
                              else "Low";
                     probability := p; explanation := text |}
      | Raises e => Raises e
      end.
Proof.
  intros y Hlen Hfit. unfold get_forecast.
  destruct (Nat.ltb_spec (length snapshots) 3); [lia|].
  fold y. rewrite Hfit. eexists. reflexivity.
Qed.

(** And when the fit has raised. *)
Lemma get_forecast_no_fit `{PyLib} (snapshots : list snapshot) :
  let y := s_pressure_index <$> Py.last_n 10 snapshots in
  (3 ≤ length snapshots)%nat →
  np_polyfit (Py.range (length y)) y = None →
  get_forecast snapshots
  = Returns {| level := "Moderate"; probability := 50;
               explanation := "Calculating..." |}.
Proof.
  intros y Hlen Hfit. unfold get_forecast.
  destruct (Nat.ltb_spec (length snapshots) 3); [lia|].
  fold y. now rewrite Hfit.
Qed.

(** C9.  With fewer than three snapshots the forecast is the fixed
    "Inconclusive" answer, whatever the snapshots hold. *)
Theorem get_forecast_insufficient `{PyLib} (snapshots : list snapshot) :
  (length snapshots < 3)%nat →
  get_forecast snapshots
  = Returns {| level := "Inconclusive"; probability := 0;
               explanation := "Insufficient data for trend analysis." |}.
Proof.
  intros Hlen. unfold get_forecast.
  destruct (Nat.ltb_spec (length snapshots) 3); [reflexivity | lia].
Qed.

Lemma get_forecast_insufficient_witness :
  @get_forecast exact_lib [snapshot_of_pressure 100; snapshot_of_pressure (-100)]
  = Returns {| level := "Inconclusive"; probability := 0;
               explanation := "Insufficient data for trend analysis." |}.
Proof. apply (@get_forecast_insufficient exact_lib). simpl. lia. Defined.

(** The sample libraries meet the laws: they do not round at all. *)
Lemma lib_with_fit_laws (fit : list Q → list Q → option (pyfloat * pyfloat)) :
  @numeric_laws (lib_with_fit fit).
Proof.
  split.
  - intros x y Hxy. exact Hxy.
  - intros n _. exists (inject_Z n). split; reflexivity.
  - intros x _. exists x. split; [reflexivity|].
    assert (Hb : 0 <= Qabs x / inject_Z (2 ^ 53) + 1 / inject_Z (2 ^ 60)).
    { apply Qle_trans with (0 + 0); [now vm_compute|]. apply Qplus_le_compat.
      - unfold Qdiv. apply Qmult_le_0_compat; [apply Qabs_nonneg | now vm_compute].
      - now vm_compute. }
    apply Qabs_Qle_condition.
    set (b := Qabs x / inject_Z (2 ^ 53) + 1 / inject_Z (2 ^ 60)) in *.
    clearbody b. lra.
  - intros y. right. apply np_var_nonneg.
  - intros y _ _ _. exists (population_variance y). split; [reflexivity|].
    apply Qabs_Qle_condition.
    assert (Hb : 0 <= 1 / inject_Z (2 ^ 20)) by now vm_compute.
    set (b := 1 / inject_Z (2 ^ 20)) in *. clearbody b. lra.
Qed.

(** *** NaN in the forecast *)

Section forecast_value.
Context `{PyLib} (laws : numeric_laws).

Lemma sub_NaN (a : pyfloat) : Float.sub a NaN = NaN.
Proof. now destruct a. Qed.

Lemma NaN_sub (b : pyfloat) : Float.sub NaN b = NaN.
Proof. now destruct b. Qed.

Lemma mul_not_NaN (a : pyfloat) (c : Q) : a ≠ NaN → Float.mul a c ≠ NaN.
Proof. destruct a; cbn; try done. intros _. apply (round64_not_NaN laws). Qed.

Lemma add_not_NaN (c : Q) (a : pyfloat) : a ≠ NaN → Float.add (Fin c) a ≠ NaN.
Proof. destruct a; cbn; try done. intros _. apply (round64_not_NaN laws). Qed.

Lemma sub_not_NaN (a : pyfloat) (p : Q) : a ≠ NaN → Float.sub a (Fin p) ≠ NaN.
Proof. destruct a; cbn; try done. intros _. apply (round64_not_NaN laws). Qed.

Lemma forecast_value_NaN (slope : pyfloat) (y : list Q) :
  slope = NaN ∨ np_var y = NaN → forecast_value slope y = NaN.
Proof.
  unfold forecast_value. intros [->| ->].
  - cbn [Float.mul]. change (Float.add (Fin 50) NaN) with NaN.
    now rewrite NaN_sub.
  - cbn [Float.div]. change (Float.min NaN (Fin 20)) with NaN.
    now rewrite sub_NaN.
Qed.

(** Without a NaN from the library the value is a number from 0 to
    100, and bounds on the slope carry over to it. *)
Lemma forecast_value_Fin (slope : pyfloat) (y : list Q) :
  slope ≠ NaN → np_var y ≠ NaN →
  ∃ x, forecast_value slope y = Fin x
       ∧ 0 <= x <= 100
       ∧ (∀ n : Z, (-1000 ≤ n ≤ 7)%Z → Float.le (Fin (inject_Z n)) slope →
            inject_Z (30 + n * 10) <= x)
       ∧ (∀ n : Z, (-5 ≤ n ≤ 1000)%Z → Float.le slope (Fin (inject_Z n)) →
            x <= inject_Z (50 + n * 10)).
Proof.
  intros Hslope Hvar. unfold forecast_value.
  destruct (penalty_cases laws y) as [[Hnan _]|(_ & p & Hpen & Hp)]; [done|].
  cbv zeta in Hpen. rewrite Hpen.
  set (v := Float.sub _ (Fin p)).
  assert (Hv : v ≠ NaN).
  { apply sub_not_NaN, add_not_NaN, mul_not_NaN, Hslope. }
  destruct (float_clamp v) as [[Hnan _]|(x & Hx & Hrange & Habove & Hbelow & _)];
    [done|].
  exists x. split; [exact Hx|]. split; [exact Hrange|]. split.
  - intros n Hn Hle.
    assert (E : (30 + n * 10 = 50 + n * 10 - 20)%Z) by lia. rewrite E.
    apply Habove.
    + apply (sub_above laws); [lia | lra |].
      apply (add_above laws); [lia|]. apply (mul_above laws); [lia | exact Hle].
    + rewrite <- E. change 100 with (inject_Z 100). rewrite <- Zle_Qle. lia.
  - intros n Hn Hle. apply Hbelow.
    + apply (sub_below laws); [lia | lra |].
      apply (add_below laws); [lia|]. apply (mul_below laws); [lia | exact Hle].
    + change 0 with (inject_Z 0). rewrite <- Zle_Qle. lia.
Qed.

End forecast_value.

Lemma NaN_dec (a : pyfloat) : {a = NaN} + {a ≠ NaN}.
Proof. destruct a; (now left) || (now right). Qed.




(** *** Accuracy of the forecast *)

Lemma clamp_close (a b eps : Q) :
  - eps <= a - b <= eps →
  - eps <= PressureSpec.clamp a 0 100 - PressureSpec.clamp b 0 100 <= eps.
Proof.
  intros Hab. unfold PressureSpec.clamp.
  destruct (Q.max_spec a 0) as [[? Ea]|[? Ea]];
  destruct (Q.max_spec b 0) as [[? Eb]|[? Eb]];
  destruct (Q.min_spec (Qmax a 0) 100) as [[? Ea']|[? Ea']];
  destruct (Q.min_spec (Qmax b 0) 100) as [[? Eb']|[? Eb']];
  rewrite Ea', Eb'; rewrite ?Ea, ?Eb in *; lra.
Qed.

Lemma Qmin_close (a b c eps : Q) :
  - eps <= a - b <= eps → - eps <= Qmin a c - Qmin b c <= eps.
Proof.
  intros Hab.
  destruct (Q.min_spec a c) as [[? Ea]|[? Ea]];
  destruct (Q.min_spec b c) as [[? Eb]|[? Eb]];
  rewrite Ea, Eb; lra.
Qed.

Section forecast_accuracy.
Context `{PyLib} (laws : numeric_laws).

Lemma np_var_close (y : list Q) :
  y ≠ [] → (length y ≤ 10)%nat → Forall (λ v, -100 <= v <= 100) y →
  ∃ v, np_var y = Fin v ∧ 0 <= v
       ∧ - (1 # 1048576) <= v - population_variance y <= 1 # 1048576.
Proof.
  intros Hne Hlen Hy. destruct (np_var_near laws y Hne Hlen Hy) as (v & Hv & Hnear).
  exists v. split; [exact Hv|]. split.
  - destruct (np_var_sign laws y) as [Hnan|Hpos]; [congruence|].
    rewrite Hv in Hpos. exact Hpos.
  - apply Qabs_Qle_condition in Hnear. exact Hnear.
Qed.

(** The penalty is within [2^-23] of [min(V / 10, 20)], [V] the exact
    population variance. *)
Lemma penalty_close (y : list Q) :
  y ≠ [] → (length y ≤ 10)%nat → Forall (λ v, -100 <= v <= 100) y →
  ∃ p, Float.min (Float.div (np_var y) 10) (Fin 20) = Fin p
       ∧ 0 <= p <= 20
       ∧ - (1 # 8388608) <= p - Qmin (population_variance y / 10) 20 <= 1 # 8388608.
Proof.
  intros Hne Hlen Hy.
  destruct (np_var_close y Hne Hlen Hy) as (v & Hv & Hv0 & Hnear).
  pose proof (np_var_nonneg y) as HV.
  set (V := population_variance y) in *. clearbody V.
  rewrite Hv. cbn [Float.div].
  assert (E : v / 10 == v * (1 # 10)) by (unfold Qdiv; reflexivity).
  assert (E' : V / 10 == V * (1 # 10)) by (unfold Qdiv; reflexivity).
  destruct (Qlt_le_dec 250 v) as [Hbig|Hsmall].
  - assert (Hd : Float.le (Fin (inject_Z 25)) (round64 (v / 10))).
    { apply (round64_above laws); [lia|]. change (inject_Z 25) with 25.
      rewrite E. lra. }
    change (inject_Z 25) with 25 in Hd.
    assert (Hmin : Qmin (V / 10) 20 == 20).
    { apply Q.min_r. rewrite E'. lra. }
    exists 20. rewrite Hmin. split; [|lra].
    apply float_le_above in Hd as [->|(a & -> & Ha)]; [reflexivity|].
    unfold Float.min, Float.ltb.
    assert (Hlt : Py.ltb 20 a = true).
    { destruct (Py.ltb 20 a) eqn:El; [reflexivity|]. apply ltb_ge in El. lra. }
    now rewrite Hlt.
  - assert (Hd : Float.le (Fin (inject_Z 0)) (round64 (v / 10))).
    { apply (round64_above laws); [lia|]. change (inject_Z 0) with 0.
      rewrite E. lra. }
    destruct (round64_close laws (v / 10)) as (a & Hr & Ha).
    { rewrite E. lra. }
    rewrite Hr in *. cbn in Hd. change (inject_Z 0) with 0 in Hd. rewrite E in Ha.
    pose proof (Qmin_close (v * (1 # 10)) (V * (1 # 10)) 20 (1 # 10485760)) as Hm.
    rewrite <- E' in Hm.
    assert (Hm' := Hm ltac:(lra)). clear Hm.
    set (M := Qmin (V / 10) 20) in *.
    unfold Float.min, Float.ltb. destruct (Py.ltb 20 a) eqn:El.
    + apply ltb_lt in El. exists 20. split; [reflexivity|]. split; [lra|].
      destruct (Q.min_spec (v * (1 # 10)) 20) as [[? Em]|[? Em]];
        rewrite Em in Hm'; lra.
    + apply ltb_ge in El. exists a. split; [reflexivity|].
      destruct (Q.min_spec (v * (1 # 10)) 20) as [[? Em]|[? Em]];
        rewrite Em in Hm'; lra.
Qed.

(** With pressure values between -100 and 100 and a finite slope, the
    value handed to [int] is within [2^-20] of the formula over the
    rationals. *)
Lemma forecast_value_close (s : Q) (y : list Q) :
  y ≠ [] → (length y ≤ 10)%nat → Forall (λ v, -100 <= v <= 100) y →
  ∃ x, forecast_value (Fin s) y = Fin x
       ∧ 0 <= x <= 100
       ∧ - (1 # 1048576) <= x - probability_formula s (population_variance y)
         <= 1 # 1048576.
Proof.
  intros Hne Hlen Hy.
  destruct (penalty_close y Hne Hlen Hy) as (p & Hp & Hp20 & Hpen).
  destruct (np_var_close y Hne Hlen Hy) as (v & Hv & _).
  assert (Hvar : np_var y ≠ NaN) by (rewrite Hv; discriminate).
  assert (HM : 0 <= Qmin (population_variance y / 10) 20 <= 20).
  { split; [|apply Q.le_min_r]. apply Q.min_glb; [|lra].
    unfold Qdiv. apply Qmult_le_0_compat; [apply np_var_nonneg | now vm_compute]. }
  unfold probability_formula.
  set (M := Qmin (population_variance y / 10) 20) in *. clearbody M.
  destruct (Qlt_le_dec s 7) as [Hs7|Hs7]; [destruct (Qlt_le_dec (-5) s) as [Hs5|Hs5]|].
  - unfold forecast_value. rewrite Hp. cbn [Float.mul].
    destruct (round64_close laws (s * 10)) as (m & -> & Hm); [lra|].
    cbn [Float.add].
    destruct (round64_close laws (50 + m)) as (a & -> & Ha); [lra|].
    cbn [Float.sub Float.neg Float.add].
    destruct (round64_close laws (a + - p)) as (w & Hw & Hw'); [lra|].
    rewrite Hw.
    destruct (float_clamp (Fin w)) as [[? _]|(x & Hx & Hrange & _ & _ & Hclamp)];
      [discriminate|].
    exists x. split; [exact Hx|]. split; [exact Hrange|].
    rewrite (Hclamp w eq_refl).
    pose proof (clamp_close w (50 + s * 10 - M) (1 # 1048576)) as Hc.
    apply Hc. lra.
  - destruct (forecast_value_Fin laws (Fin s) y) as (x & Hx & Hrange & _ & Hbelow);
      [discriminate | exact Hvar |].
    exists x. split; [exact Hx|]. split; [exact Hrange|].
    specialize (Hbelow (-5)%Z ltac:(lia)). cbn in Hbelow.
    specialize (Hbelow Hs5). change (inject_Z (50 + -5 * 10)) with 0 in Hbelow.
    assert (Hc : PressureSpec.clamp (50 + s * 10 - M) 0 100 == 0).
    { unfold PressureSpec.clamp. rewrite Q.max_r by lra. now apply Q.min_l. }
    rewrite Hc. lra.
  - destruct (forecast_value_Fin laws (Fin s) y) as (x & Hx & Hrange & Habove & _);
      [discriminate | exact Hvar |].
    exists x. split; [exact Hx|]. split; [exact Hrange|].
    specialize (Habove 7%Z ltac:(lia)). cbn in Habove.
    specialize (Habove Hs7). change (inject_Z (30 + 7 * 10)) with 100 in Habove.
    assert (Hc : PressureSpec.clamp (50 + s * 10 - M) 0 100 == 100).
    { unfold PressureSpec.clamp. apply Q.min_r. rewrite Q.max_l by lra. lra. }
    rewrite Hc. lra.
Qed.

End forecast_accuracy.

Lemma py_int_lt (x : Q) (n : Z) : 0 <= x → x < inject_Z n → (Py.int x < n)%Z.
Proof.
  intros H0 Hx. rewrite py_int_nonneg by assumption.
  rewrite Zlt_Qlt. apply Qle_lt_trans with x; [apply Qfloor_le | exact Hx].
Qed.

(** C2, amended.  With at least three snapshots, pressure indices
    between -100 and 100 and a fit that returns a finite slope, the
    forecast takes the pressure indices of the last ten (or fewer)
    snapshots and returns.  Its probability is [int(value)] for a
    [value] within [2^-20] of
    [clamp(50 + slope * 10 - min(variance / 10, 20), 0, 100)], where
    [slope] is the slope the fit returned and [variance] the population
    variance (divisor [n]) of those values; it is an integer between 0
    and 100, and the level follows the slope.  On constant values, with
    a slope within [2^-20] of the least-squares slope, the level is
    "Moderate" and the probability is 49 or 50. *)
Theorem get_forecast_probability `{PyLib}
    (snapshots : list snapshot) (slope : Q) (intercept : pyfloat) :
  numeric_laws →
  let y := s_pressure_index <$> Py.last_n 10 snapshots in
  (3 ≤ length snapshots)%nat →
  Forall (λ v, -100 <= v <= 100) y →
  np_polyfit (Py.range (length y)) y = Some (Fin slope, intercept) →
  length y = Nat.min 10 (length snapshots)
  ∧ y `suffix_of` (s_pressure_index <$> snapshots)
  ∧ ∃ f value,
      get_forecast snapshots = Returns f
      ∧ Qabs (value - probability_formula slope (population_variance y))
        <= forecast_tolerance
      ∧ f.(probability) = Py.int value
      ∧ (0 ≤ f.(probability) ≤ 100)%Z
      ∧ f.(level) = (if Py.ltb 1 slope then "High"
                     else if Py.ltb (-1) slope then "Moderate" else "Low")
      ∧ ∀ c a b,
          Forall (λ v, v == c) y →
          least_squares (Py.range (length y)) y a b →
          Qabs (slope - a) <= forecast_tolerance →
          f.(level) = "Moderate"
          ∧ (f.(probability) = 49 ∨ f.(probability) = 50)%Z.
Proof.
  intros laws y Hlen Hrange Hfit.
  assert (Hy : length y = Nat.min 10 (length snapshots)).
  { unfold y. rewrite length_fmap. apply length_last_n. }
  split; [exact Hy|]. split.
  { unfold y. destruct (last_n_suffix 10 snapshots) as [k Hk].
    exists (s_pressure_index <$> k). rewrite <- fmap_app. now rewrite <- Hk. }
  destruct (get_forecast_value snapshots (Fin slope) intercept Hlen Hfit)
    as (text & Hget). fold y in Hget.
  assert (Hne : y ≠ []).
  { intros E. assert (length y = 0%nat) by now rewrite E. lia. }
  assert (Hy10 : (length y ≤ 10)%nat) by lia.
  assert (Hy2 : (2 ≤ length y)%nat) by lia.
  clearbody y.
  destruct (forecast_value_close laws slope y Hne Hy10 Hrange)
    as (x & Hx & Hx100 & Hclose).
  rewrite Hx in Hget. cbn [Float.int Float.ltb] in Hget.
  eexists _, x. split; [exact Hget|]. cbn [probability level].
  split; [apply Qabs_Qle_condition; exact Hclose|].
  split; [reflexivity|]. split.
  { split; [apply py_int_ge; [lia|apply Hx100] | apply py_int_le; apply Hx100]. }
  split; [reflexivity|].
  intros c a b Hc Hls Hslope.
  assert (Ha : a == 0) by (apply (least_squares_constant y c a b); assumption).
  assert (HV : population_variance y == 0) by (apply (population_variance_constant y c); assumption).
  apply Qabs_Qle_condition in Hslope.
  change forecast_tolerance with (1 # 1048576) in Hslope.
  assert (HM : Qmin (population_variance y / 10) 20 == 0).
  { rewrite Q.min_l.
    - unfold Qdiv. rewrite HV. reflexivity.
    - unfold Qdiv. rewrite HV. now vm_compute. }
  unfold probability_formula in Hclose.
  set (M := Qmin (population_variance y / 10) 20) in *. clearbody M.
  assert (Hcl : PressureSpec.clamp (50 + slope * 10 - M) 0 100 == 50 + slope * 10 - M).
  { unfold PressureSpec.clamp. rewrite Q.max_l by lra. apply Q.min_l. lra. }
  rewrite Hcl in Hclose.
  split.
  - assert (E1 : Py.ltb 1 slope = false).
    { destruct (Py.ltb 1 slope) eqn:E; [|reflexivity]. apply ltb_lt in E. lra. }
    assert (E2 : Py.ltb (-1) slope = true).
    { destruct (Py.ltb (-1) slope) eqn:E; [reflexivity|]. apply ltb_ge in E. lra. }
    now rewrite E1, E2.
  - assert (H49 : (49 ≤ Py.int x)%Z).
    { apply py_int_ge; [lia|]. change (inject_Z 49) with 49. lra. }
    assert (H51 : (Py.int x < 51)%Z).
    { apply py_int_lt; [lra|]. change (inject_Z 51) with 51. lra. }
    lia.
Qed.

Lemma get_forecast_probability_witness :
  (∃ f, @get_forecast exact_lib
          [snapshot_of_pressure 0; snapshot_of_pressure 0; snapshot_of_pressure 6]
        = Returns f
        ∧ f.(level) = "High" ∧ (0 ≤ f.(probability) ≤ 100)%Z)
  ∧ (∃ f, @get_forecast exact_lib
            [snapshot_of_pressure 5; snapshot_of_pressure 5; snapshot_of_pressure 5]
          = Returns f
          ∧ f.(level) = "Moderate"
          ∧ (f.(probability) = 49 ∨ f.(probability) = 50)%Z).
Proof.
  split.
  - destruct (@get_forecast_probability exact_lib
                [snapshot_of_pressure 0; snapshot_of_pressure 0; snapshot_of_pressure 6]
                3 (Fin (-1)) (lib_with_fit_laws _))
      as (_ & _ & f & value & Hf & _ & _ & Hp & Hl & _).
    + simpl. lia.
    + repeat constructor; discriminate.
    + reflexivity.
    + exists f. split; [exact Hf|]. split; [exact Hl | exact Hp].
  - destruct (@get_forecast_probability exact_lib
                [snapshot_of_pressure 5; snapshot_of_pressure 5; snapshot_of_pressure 5]
                0 (Fin 5) (lib_with_fit_laws _))
      as (_ & _ & f & value & Hf & _ & _ & _ & _ & Hconst).
    + simpl. lia.
    + repeat constructor; discriminate.
    + reflexivity.
    + exists f. split; [exact Hf|]. apply (Hconst 5 0 5).
      * repeat constructor.
      * apply lstsq_line_least_squares; reflexivity.
      * discriminate.
Defined.

(** C2 as the specification states it fails: on the pressure indices
    0, 0, 6 the fit gives slope 3; the code answers 79 (variance 8),
    the formula with the sample variance (12) gives 78. *)
Lemma forecast_claim_counterexample :
  ¬ @forecast_claim exact_lib
      [snapshot_of_pressure 0; snapshot_of_pressure 0; snapshot_of_pressure 6].
Proof.
  intros Hclaim. destruct (Hclaim 3 (Fin (-1)) eq_refl) as (f & Hf & Hp).
  vm_compute in Hf. injection Hf as <-. vm_compute in Hp. discriminate.
Qed.

(** Nor is a constant series always answered with 50: with a slope
    that the solver has rounded to [-2^-49], the value is just below 50
    and [int] truncates it to 49. *)
Example get_forecast_constant_49 :
  ∃ text,
    @get_forecast rounded_fit_lib
      [snapshot_of_pressure 10; snapshot_of_pressure 10; snapshot_of_pressure 10;
       snapshot_of_pressure 10]
    = Returns {| level := "Moderate"; probability := 49; explanation := text |}.
Proof. eexists. vm_compute. reflexivity. Qed.

(** ** Chart *)

Lemma chart_points_lookup
    (snapshots : list snapshot) (width height padding : Z) (i : nat) (s : snapshot) :
  snapshots !! i = Some s →
  chart_points snapshots width height padding !! i
  = Some (inject_Z padding
          + (inject_Z (Z.of_nat i * (width - 2 * padding))
             / inject_Z (Z.max (Z.of_nat (length snapshots) - 1) 1)),
          inject_Z height / 2
          - (s.(s_pressure_index) * (inject_Z height / 2 - inject_Z padding) / 100)).
Proof.
  intros Hs. unfold chart_points. rewrite list_lookup_imap, Hs. reflexivity.
Qed.

Lemma append_nil_r (a : string) : a +:+ EmptyString = a.
Proof.
  induction a as [|c a IH]; [reflexivity|].
  change (String c (a +:+ EmptyString) = String c a). now rewrite IH.
Qed.

Lemma append_assoc (a b c : string) : (a +:+ b) +:+ c = a +:+ (b +:+ c).
Proof.
  induction a as [|x a IH]; [reflexivity|].
  change (String x ((a +:+ b) +:+ c) = String x (a +:+ (b +:+ c))). now rewrite IH.
Qed.

Lemma join_empty_cons (a : string) (l : list string) :
  Str.join EmptyString (a :: l) = a +:+ Str.join EmptyString l.
Proof.
  destruct l; [|reflexivity].
  change (a = a +:+ EmptyString). now rewrite append_nil_r.
Qed.

Lemma join_empty_app (l1 l2 : list string) :
  Str.join EmptyString (l1 ++ l2)
  = Str.join EmptyString l1 +:+ Str.join EmptyString l2.
Proof.
  induction l1 as [|a l1 IH]; [reflexivity|].
  now rewrite <- app_comm_cons, !join_empty_cons, IH, append_assoc.
Qed.

(** The chart returned for one or more snapshots is a frame, the same
    for every snapshot list, around the [points] attribute of its
    polyline, and that attribute lists the coordinates of
    [chart_points], each as [x,y], in the order of the snapshots. *)
Lemma generate_svg_chart_polyline `{PyLib} (width height padding : Z) (color : string) :
  ∃ before after : string,
    ∀ snapshots : list snapshot,
      snapshots ≠ [] →
      generate_svg_chart snapshots width height padding color
      = before
        +:+ Str.attr "points"
              (Str.join " "
                 (point_text <$> chart_points snapshots width height padding))
        +:+ after.
Proof.
  set (grad := "grad-" +:+ Str.replace "#"%char EmptyString color).
  set (half := format_float (inject_Z height / 2)).
  exists
    (Str.join EmptyString [
       "<svg "; Str.attr "width" (pretty width); " ";
       Str.attr "height" (pretty height); " ";
       Str.attr "viewBox" ("0 0 " +:+ pretty width +:+ " " +:+ pretty height);
       " "; Str.attr "xmlns" "http://www.w3.org/2000/svg"; ">"; Str.nl;
       "        <defs>"; Str.nl;
       "            <linearGradient "; Str.attr "id" grad; " ";
       Str.attr "x1" "0%"; " "; Str.attr "y1" "0%"; " ";
       Str.attr "x2" "100%"; " "; Str.attr "y2" "0%"; ">"; Str.nl;
       "                <stop "; Str.attr "offset" "0%"; " ";
       Str.attr "style" ("stop-color:" +:+ color +:+ ";stop-opacity:0.2");
       " />"; Str.nl;
       "                <stop "; Str.attr "offset" "100%"; " ";
       Str.attr "style" ("stop-color:" +:+ color +:+ ";stop-opacity:1");
       " />"; Str.nl;
       "            </linearGradient>"; Str.nl;
       "        </defs>"; Str.nl;
       "        <line "; Str.attr "x1" (pretty padding); " ";
       Str.attr "y1" half; " ";
       Str.attr "x2" (pretty (width - padding)%Z); " ";
       Str.attr "y2" half; " ";
       Str.attr "stroke" "rgba(255,255,255,0.1)"; " ";
       Str.attr "stroke-dasharray" "4"; "/>"; Str.nl;
       "        <polyline "]),
    (Str.join EmptyString [
       " "; Str.attr "fill" "none"; " ";
       Str.attr "stroke" ("url(#" +:+ grad +:+ ")"); " ";
       Str.attr "stroke-width" "3"; " ";
       Str.attr "stroke-linejoin" "round"; " />"; Str.nl;
       "    </svg>"]).
  intros snapshots Hne. rewrite <- join_empty_cons, <- join_empty_app.
  destruct snapshots as [|s l]; [done|]. reflexivity.
Qed.

(** C10.  The chart of no snapshots is the empty string.  The chart of
    [n > 0] snapshots is a frame that does not depend on the snapshots
    around the points of its polyline, one per snapshot and in their
    order, each written [x,y]; point [i] has
    [x = padding + i * (width - 2 * padding) / max(n - 1, 1)] and
    [y = height / 2 - pressure * (height / 2 - padding) / 100].  Hence
    the first point is at [padding], a single snapshot is at [padding],
    the last of several is at [width - padding], pressure 0 is at
    [height / 2], pressure 100 at [padding] and pressure -100 at
    [height - padding]. *)
Theorem chart_point_placement `{PyLib} (width height padding : Z) (color : string) :
  generate_svg_chart [] width height padding color = EmptyString
  ∧ ∃ before after : string,
      ∀ snapshots : list snapshot,
        snapshots ≠ [] →
        let n := Z.of_nat (length snapshots) in
        ∃ points : list (Q * Q),
          generate_svg_chart snapshots width height padding color
          = before
            +:+ Str.attr "points"
                  (Str.join " "
                     ((λ p : Q * Q, format_float p.1 +:+ "," +:+ format_float p.2)
                        <$> points))
            +:+ after
          ∧ length points = length snapshots
          ∧ ∀ (i : nat) (s : snapshot),
              snapshots !! i = Some s →
              ∃ x y,
                points !! i = Some (x, y)
                ∧ x == inject_Z padding
                       + inject_Z (Z.of_nat i) * inject_Z (width - 2 * padding)
                         / inject_Z (Z.max (n - 1) 1)
                ∧ y == inject_Z height / 2
                       - s.(s_pressure_index)
                         * (inject_Z height / 2 - inject_Z padding) / 100
                ∧ (i = 0%nat → x == inject_Z padding)
                ∧ (n = 1%Z → x == inject_Z padding)
                ∧ ((2 ≤ n)%Z → Z.of_nat i = (n - 1)%Z →
                   x == inject_Z (width - padding))
                ∧ (s.(s_pressure_index) == 0 → y == inject_Z height / 2)
                ∧ (s.(s_pressure_index) == 100 → y == inject_Z padding)
                ∧ (s.(s_pressure_index) == -100 → y == inject_Z (height - padding)).
Proof.
  split; [reflexivity|].
  destruct (generate_svg_chart_polyline width height padding color)
    as (before & after & Hchart).
  exists before, after. intros snapshots Hne n.
  exists (chart_points snapshots width height padding).
  split; [exact (Hchart snapshots Hne)|]. split; [apply length_imap|].
  intros i s Hs.
  eexists _, _. split; [exact (chart_points_lookup _ width height padding _ _ Hs)|].
  fold n. pose proof (lookup_lt_Some _ _ _ Hs) as Hi.
  assert (Hi' : (Z.of_nat i < n)%Z) by (unfold n; lia).
  rewrite inject_Z_mult.
  split; [reflexivity|]. split; [reflexivity|]. split.
  { intros ->. change (inject_Z (Z.of_nat 0)) with 0. unfold Qdiv. ring. }
  split.
  { intros Hn. assert (i = 0%nat) as -> by lia.
    change (inject_Z (Z.of_nat 0)) with 0. unfold Qdiv. ring. }
  split.
  { intros Hn Hlast. rewrite Z.max_l by lia. rewrite Hlast.
    rewrite !inject_Z_sub, inject_Z_mult. change (inject_Z 2) with 2.
    change (inject_Z 1) with 1. field. intros E.
    assert (E' : inject_Z n == inject_Z 1) by (change (inject_Z 1) with 1; lra).
    rewrite inject_Z_injective in E'. lia. }
  split; [intros ->; field|]. split; [intros ->; field|].
  intros ->. rewrite inject_Z_sub. field.
Qed.

Lemma chart_point_placement_witness :
  ∃ before after points x y,
    @generate_svg_chart exact_lib
      [snapshot_of_pressure 0; snapshot_of_pressure 100; snapshot_of_pressure (-100)]
      600 200 20 "#a855f7"
    = before
      +:+ Str.attr "points"
            (Str.join " " ((λ p : Q * Q, show_Q p.1 +:+ "," +:+ show_Q p.2) <$> points))
      +:+ after
    ∧ points !! 2%nat = Some (x, y)
    ∧ x == 580 ∧ y == 180.
Proof.
  destruct (@chart_point_placement exact_lib 600 200 20 "#a855f7")
    as (_ & before & after & Hchart).
  destruct (Hchart [snapshot_of_pressure 0; snapshot_of_pressure 100;
                    snapshot_of_pressure (-100)])
    as (points & Htext & _ & Hpoints); [discriminate|].
  destruct (Hpoints 2%nat (snapshot_of_pressure (-100)) eq_refl)
    as (x & y & Hpt & _ & _ & _ & _ & Hx & _ & _ & Hy).
  exists before, after, points, x, y. split; [exact Htext|]. split; [exact Hpt|].
  split.
  - apply Hx; simpl; lia.
  - apply Hy; reflexivity.
Defined.

(** ** Minute estimate *)

Lemma clamp_floor_trunc (q : Q) :
  Z.max 1 (Z.min (Py.int q) 120) = Z.max 1 (Z.min (Qfloor q) 120).
Proof.
  destruct (Qlt_le_dec q 0) as [Hq|Hq].
  - rewrite py_int_neg by lra.
    assert (Qceiling q ≤ 0)%Z.
    { change 0%Z with (Qceiling 0). apply Qceiling_resp_le. lra. }
    assert (Qfloor q ≤ 0)%Z.
    { change 0%Z with (Qfloor 0). apply Qfloor_resp_le. lra. }
    lia.
  - now rewrite py_int_nonneg.
Qed.

Lemma Qfloor_minutes (us : Z) :
  Qfloor (inject_Z us / 1000000 / 60) = (us `div` 60000000)%Z.
Proof.
  transitivity (Qfloor (us # 60000000)); [|reflexivity].
  apply Qfloor_comp. unfold Qeq. simpl. lia.
Qed.

Lemma dynamic_minute_range `{PyLib} (clock : Z) (utcDate : option json_scalar) :
  (1 ≤ dynamic_minute clock utcDate ≤ 120)%Z.
Proof.
  unfold dynamic_minute. case_decide; [lia|]. destruct (fromisoformat _); lia.
Qed.

Lemma dynamic_minute_fallback `{PyLib} (clock : Z) (utcDate : option json_scalar) :
  utc_date_str utcDate = EmptyString ∨ fromisoformat (utc_date_str utcDate) = None →
  dynamic_minute clock utcDate = 45%Z.
Proof.
  unfold dynamic_minute. intros [Hempty|Hparse].
  - now rewrite decide_True.
  - case_decide; [reflexivity|]. now rewrite Hparse.
Qed.

Lemma dynamic_minute_valid `{PyLib}
    (clock : Z) (utcDate : option json_scalar) (kickoff : datetime) :
  utc_date_str utcDate ≠ EmptyString →
  fromisoformat (utc_date_str utcDate) = Some kickoff →
  dynamic_minute clock utcDate
  = Z.max 1
      (Z.min
         (match kickoff.(tzinfo) with
          | Some offset => clock - (kickoff.(wall_us) - offset)
          | None => clock + local_utcoffset_us - kickoff.(wall_us)
          end `div` 60000000)
         120).
Proof.
  intros Hne Hparse. unfold dynamic_minute. rewrite decide_False by exact Hne.
  rewrite Hparse, clamp_floor_trunc. unfold total_seconds, datetime_now.
  cbn [wall_us tzinfo]. rewrite Qfloor_minutes.
  destruct (tzinfo kickoff) as [offset|]; do 3 f_equal; lia.
Qed.

(** ** Poll cycle: the fetch *)

Lemma fetch_matches_independent `{PyLib} (inp : cycle_input) (api api' : api_state) :
  fetch_matches inp api = fetch_matches inp api'.
Proof. reflexivity. Qed.

Lemma fetch_fails_no_feed `{PyLib} (inp : cycle_input) (api : api_state) :
  fetch_fails inp →
  ∃ api', fetch_matches inp api = (api', None)
          ∧ (api'.(a_status) = "API Error" ∨ api'.(a_status) = "Connection Error")
          ∧ is_Some api'.(a_error).
Proof.
  intros [Hdemo Hhttp]. unfold fetch_matches. rewrite Hdemo.
  destruct (http inp) as [e|status_code body].
  - eexists. split; [reflexivity|]. simpl. eauto.
  - case_decide as Hcode.
    + destruct body; eexists; (split; [reflexivity|]); simpl; eauto.
    + destruct Hhttp as [?|[e ->]]; [done|].
      eexists. split; [reflexivity|]. simpl. eauto.
Qed.

(** C6.  When the feed is not obtained, the cycle stores an error status
    and message and leaves the database as it was: no row of [matches]
    or [snapshots] is written.  The next cycle does not depend on the
    failed one. *)
Theorem poll_fetch_failure `{PyLib} (inp : cycle_input) (st : state) :
  fetch_fails inp →
  let st' := poll_live_matches inp st in
  st'.(db) = st.(db)
  ∧ (st'.(api_status).(a_status) = "API Error"
     ∨ st'.(api_status).(a_status) = "Connection Error")
  ∧ is_Some st'.(api_status).(a_error)
  ∧ ∀ next, poll_live_matches next st' = poll_live_matches next st.
Proof.
  intros Hfail st'.
  destruct (fetch_fails_no_feed inp st.(api_status) Hfail) as (api' & Hfetch & Hst & Herr).
  assert (Hst' : st' = {| api_status := api'; db := st.(db) |}).
  { unfold st', poll_live_matches. now rewrite Hfetch. }
  rewrite Hst'. cbn [db api_status].
  split; [reflexivity|]. split; [exact Hst|]. split; [exact Herr|].
  intros next. unfold poll_live_matches. cbn [db api_status].
  now rewrite (fetch_matches_independent next api' st.(api_status)).
Qed.

(** ** Poll cycle: exceptions *)

Lemma bind_int_Returns (n : Z) : bind_int n = Returns () ↔ int64 n.
Proof. unfold bind_int. case_decide; split; done. Qed.

Lemma bind_int_cases (n : Z) :
  (int64 n ∧ bind_int n = Returns ()) ∨ (¬ int64 n ∧ bind_int n = Raises "OverflowError").
Proof. unfold bind_int. case_decide; [left | right]; split; done. Qed.

Lemma mapM_bind_int (ids : list Z) :
  (Forall int64 ids ∧ ∃ l, mapM bind_int ids = Returns l)
  ∨ (¬ Forall int64 ids ∧ mapM bind_int ids = Raises "OverflowError").
Proof.
  induction ids as [|n ids IH]; [left; split; [constructor | now eexists]|].
  cbn [mapM]. destruct (bind_int_cases n) as [[Hn ->]|[Hn ->]].
  - destruct IH as [[Hids [l ->]]|[Hids ->]].
    + left. split; [now constructor | now eexists].
    + right. split; [|reflexivity]. now intros [_ ?]%Forall_cons.
  - right. split; [|reflexivity]. now intros [? _]%Forall_cons.
Qed.

(** What an iteration that completes has done. *)
Lemma process_match_inv `{PyLib}
    (clock : Z) (d : database) (m : feed_match) (d' : database) :
  process_match clock d m = Returns d' →
  ∃ utcDate new,
    m.(f_utcDate) = Some utcDate
    ∧ storable m
    ∧ d'.(matches_tbl)
      = upsert_match m.(f_id)
          {| m_name := m.(f_home_name) +:+ " vs " +:+ m.(f_away_name);
             m_home_team := m.(f_home_name); m_away_team := m.(f_away_name);
             m_status := m.(f_status); m_utc_date := utcDate;
             m_score_home := Py.get m.(f_score_home) 0%Z;
             m_score_away := Py.get m.(f_score_away) 0%Z;
             m_last_updated := CURRENT_TIMESTAMP clock |} d.(matches_tbl)
    ∧ d'.(snapshots_tbl) = trim_snapshots m.(f_id) (d.(snapshots_tbl) ++ [new])
    ∧ d'.(snapshots_seq) = (d.(snapshots_seq) + 1)%Z
    ∧ new
      = {| s_id := d.(snapshots_seq) + 1; s_match_id := m.(f_id);
           s_timestamp := CURRENT_TIMESTAMP clock;
           s_minute := dynamic_minute clock m.(f_utcDate);
           s_score_home := Py.get m.(f_score_home) 0%Z;
           s_score_away := Py.get m.(f_score_away) 0%Z;
           s_pressure_index :=
             calculate_pressure_index
               {| sd_minute := Some (dynamic_minute clock m.(f_utcDate));
                  sd_score_home := Some (Py.get m.(f_score_home) 0%Z);
                  sd_score_away := Some (Py.get m.(f_score_away) 0%Z) |}
               (take 20 (snapshots_desc m.(f_id) d.(snapshots_tbl))) |}.
Proof.
  unfold process_match, storable. destruct (f_utcDate m) as [utcDate|]; [|discriminate].
  cbn [subscript mbind outcome_bind].
  destruct (bind_int_cases (f_id m)) as [[Hid ->]|[_ ->]]; [|discriminate].
  cbn [mbind outcome_bind].
  assert (Hdate : (match utcDate with JInt n => int64 n | _ => True end
                   ∧ bind_value utcDate = Returns ())
                  ∨ ∃ e, bind_value utcDate = Raises e).
  { destruct utcDate as [|s|n]; cbn [bind_value];
      [left; split; [exact I | reflexivity]..|].
    destruct (bind_int_cases n) as [[? ->]|[_ ->]];
      [left; split; [assumption | reflexivity] | right; eauto]. }
  destruct Hdate as [[Hdate ->]|[e ->]]; cbn [mbind outcome_bind]; [|discriminate].
  destruct (bind_int_cases (Py.get (f_score_home m) 0%Z)) as [[Hh ->]|[_ ->]];
    [|discriminate].
  cbn [mbind outcome_bind].
  destruct (bind_int_cases (Py.get (f_score_away m) 0%Z)) as [[Ha ->]|[_ ->]];
    [|discriminate].
  cbn [mbind outcome_bind mret outcome_ret]. intros [= <-].
  eexists utcDate, _. cbn [matches_tbl snapshots_tbl snapshots_seq].
  split; [reflexivity|]. split; [|repeat split].
  split; [exact Hid|]. split; [exact Hh|]. split; [exact Ha|]. exact Hdate.
Qed.

Lemma process_match_storable `{PyLib} (clock : Z) (d : database) (m : feed_match) :
  storable m → ∃ d', process_match clock d m = Returns d'.
Proof.
  intros (Hid & Hh & Ha & Hdate). unfold process_match.
  destruct (f_utcDate m) as [utcDate|]; [|done].
  cbn [subscript mbind outcome_bind].
  rewrite (proj2 (bind_int_Returns _) Hid). cbn [mbind outcome_bind].
  assert (bind_value utcDate = Returns ()) as ->.
  { destruct utcDate; cbn [bind_value]; try reflexivity.
    now apply bind_int_Returns. }
  cbn [mbind outcome_bind].
  rewrite (proj2 (bind_int_Returns _) Hh). cbn [mbind outcome_bind].
  rewrite (proj2 (bind_int_Returns _) Ha). cbn [mbind outcome_bind].
  eexists. reflexivity.
Qed.

Lemma process_match_raises `{PyLib} (clock : Z) (d : database) (m : feed_match) :
  ¬ storable m → ∃ e, process_match clock d m = Raises e.
Proof.
  intros Hm. destruct (process_match clock d m) as [d'|e] eqn:E; [|eauto].
  destruct (process_match_inv clock d m d' E) as (? & ? & _ & ? & _). done.
Qed.

(** The record without [utcDate] is refused by name. *)
Lemma process_match_KeyError `{PyLib} (clock : Z) (d : database) (m : feed_match) :
  m.(f_utcDate) = None → process_match clock d m = Raises "KeyError".
Proof. intros Hm. unfold process_match. now rewrite Hm. Qed.

Lemma process_matches_cons `{PyLib}
    (clock : Z) (m : feed_match) (ms : list feed_match) (d d' : database) :
  process_matches clock (m :: ms) d = Returns d' ↔
  ∃ d1, process_match clock d m = Returns d1 ∧ process_matches clock ms d1 = Returns d'.
Proof.
  cbn [process_matches]. destruct (process_match clock d m) as [d1|e];
    cbn [mbind outcome_bind]; split.
  - eauto.
  - now intros (? & [= <-] & ?).
  - discriminate.
  - now intros (? & [=] & _).
Qed.

(** Induction over the iterations of a loop that completes. *)
Lemma process_matches_ind `{PyLib} (P : database → Prop)
    (clock : Z) (ms : list feed_match) (d d' : database) :
  (∀ d m d', m ∈ ms → P d → process_match clock d m = Returns d' → P d') →
  P d → process_matches clock ms d = Returns d' → P d'.
Proof.
  revert d. induction ms as [|m ms IH]; intros d Hstep Hd.
  - now intros [= <-].
  - intros (d1 & H1 & Hrest)%process_matches_cons.
    apply (IH d1); [|eapply Hstep; [left|exact Hd|exact H1] | exact Hrest].
    intros d0 m0 d0' Hm0. apply Hstep. now right.
Qed.

Lemma process_matches_storable `{PyLib}
    (clock : Z) (ms : list feed_match) (d : database) :
  (Forall storable ms ∧ ∃ d', process_matches clock ms d = Returns d')
  ∨ (¬ Forall storable ms ∧ ∃ e, process_matches clock ms d = Raises e).
Proof.
  revert d. induction ms as [|m ms IH]; intros d.
  { left. split; [constructor | now eexists]. }
  cbn [process_matches].
  destruct (process_match clock d m) as [d1|e] eqn:E; cbn [mbind outcome_bind].
  - destruct (process_match_inv clock d m d1 E) as (_ & _ & _ & Hm & _).
    destruct (IH d1) as [[Hms Hret]|[Hms Hraise]].
    + left. split; [now constructor | exact Hret].
    + right. split; [|exact Hraise]. now intros [_ ?]%Forall_cons.
  - right. split; [|eauto]. intros [Hm _]%Forall_cons.
    destruct (process_match_storable clock d m Hm) as [d1 Hd1]. congruence.
Qed.

(** The cycle up to the commit completes exactly when every record the
    filter keeps can be stored. *)
Lemma write_matches_cases `{PyLib} (clock : Z) (feed : list feed_match) (d : database) :
  let matches := filter (λ m, in_top_competitions m) feed in
  (Forall storable matches
   ∧ ∃ d', write_matches clock feed d = Returns d'
           ∧ persist_matches clock feed d = d'
           ∧ process_matches clock matches
               {| matches_tbl := mark_finished (f_id <$> matches) d.(matches_tbl);
                  snapshots_tbl := d.(snapshots_tbl);
                  snapshots_seq := d.(snapshots_seq) |} = Returns d')
  ∨ (¬ Forall storable matches
     ∧ (∃ e, write_matches clock feed d = Raises e)
     ∧ persist_matches clock feed d = d).
Proof.
  intros matches. unfold persist_matches, write_matches. fold matches.
  destruct (mapM_bind_int (f_id <$> matches)) as [[Hids [l ->]]|[Hids ->]];
    cbn [mbind outcome_bind].
  - match goal with |- context [process_matches clock matches ?d0] =>
      destruct (process_matches_storable clock matches d0)
        as [[Hms [d' ->]]|[Hms [e ->]]]
    end.
    + left. split; [exact Hms|]. now exists d'.
    + right. split; [exact Hms|]. split; [eauto | reflexivity].
  - right. split; [|split; [eauto | reflexivity]].
    intros Hms. apply Hids. apply Forall_fmap.
    eapply Forall_impl; [exact Hms|]. now intros m (? & _).
Qed.

(** ** Poll cycle: clean-up and persistence *)

Lemma mark_finished_lookup (seen_ids : list Z) (ms : gmap Z match_row) (id : Z) :
  mark_finished seen_ids ms !! id
  = (λ r, if decide (r.(m_status) ∈ active_statuses ∧ id ∉ seen_ids)
          then set_status "FINISHED" r else r) <$> ms !! id.
Proof.
  unfold mark_finished. destruct seen_ids as [|i seen_ids];
    rewrite map_lookup_imap; destruct (ms !! id) as [r|]; simpl; try reflexivity.
  f_equal. destruct (decide (m_status r ∈ active_statuses)) as [Ha|Ha].
  - rewrite decide_True; [done|]. split; [done | apply not_elem_of_nil].
  - rewrite decide_False; [done|]. now intros [? _].
Qed.

Lemma upsert_match_lookup_ne (match_id id : Z) (new : match_row) (ms : gmap Z match_row) :
  id ≠ match_id → upsert_match match_id new ms !! id = ms !! id.
Proof.
  intros Hne. unfold upsert_match.
  destruct (ms !! match_id); now rewrite lookup_insert_ne.
Qed.

Lemma process_match_lookup_ne `{PyLib}
    (clock : Z) (d : database) (m : feed_match) (d' : database) (id : Z) :
  process_match clock d m = Returns d' →
  id ≠ m.(f_id) →
  d'.(matches_tbl) !! id = d.(matches_tbl) !! id.
Proof.
  intros (utcDate & new & _ & _ & -> & _)%process_match_inv Hne.
  now apply upsert_match_lookup_ne.
Qed.

Lemma process_matches_lookup `{PyLib}
    (clock : Z) (ms : list feed_match) (d d' : database) (id : Z) :
  process_matches clock ms d = Returns d' →
  id ∉ f_id <$> ms →
  d'.(matches_tbl) !! id = d.(matches_tbl) !! id.
Proof.
  intros Hrun Hid.
  apply (process_matches_ind
           (λ d0, d0.(matches_tbl) !! id = d.(matches_tbl) !! id) clock ms d d');
    [|reflexivity|exact Hrun].
  intros d0 m d0' Hm Hd0 Hstep. rewrite <- Hd0.
  apply (process_match_lookup_ne clock d0 m d0' id Hstep).
  intros ->. apply Hid. now apply list_elem_of_fmap_2.
Qed.

(** A stored match that the filtered feed does not name: after the
    cycle its row is the one the clean-up statement leaves, or, when the
    cycle raised, the old one. *)
Lemma persist_matches_absent `{PyLib}
    (clock : Z) (feed : list feed_match) (d : database) (id : Z) :
  let matches := filter (λ m, in_top_competitions m) feed in
  id ∉ f_id <$> matches →
  (Forall storable matches
   ∧ (persist_matches clock feed d).(matches_tbl) !! id
     = (λ r, if decide (r.(m_status) ∈ active_statuses)
             then set_status "FINISHED" r else r) <$> d.(matches_tbl) !! id)
  ∨ (¬ Forall storable matches ∧ persist_matches clock feed d = d).
Proof.
  intros matches Hid.
  destruct (write_matches_cases clock feed d)
    as [(Hms & d' & _ & -> & Hrun)|(Hms & _ & ->)]; [left | right; done].
  split; [exact Hms|]. fold matches in Hrun.
  rewrite (process_matches_lookup clock matches _ d' id Hrun Hid).
  cbn [matches_tbl]. rewrite mark_finished_lookup.
  destruct (matches_tbl d !! id) as [r|]; [|reflexivity]. cbn [fmap option_fmap option_map].
  f_equal. destruct (decide (m_status r ∈ active_statuses)) as [Ha|Ha].
  - now rewrite decide_True.
  - rewrite decide_False; [done|]. now intros [? _].
Qed.


Lemma in_top_competitions_spec (m : feed_match) :
  in_top_competitions m ↔ ∃ c, m.(f_competition_id) = Some c ∧ c ∈ top_comp_ids.
Proof.
  unfold in_top_competitions. destruct (f_competition_id m) as [c|].
  - rewrite bool_decide_spec. split.
    + intros Hc. now exists c.
    + now intros (c' & [= <-] & Hc).
  - split; [done|]. now intros (c & [=] & _).
Qed.

(** C5.  In demo mode the synthetic records carry no competition, the
    allow-list filter keeps only records whose competition id is in the
    list, and so the cycle leaves [snapshots] as it was and adds no row
    to [matches].  Of the stored matches it sets to FINISHED those whose
    status is LIVE, IN_PLAY, TIMED or STARTING, and no other: a stored
    match that is PAUSED, which the pages of the site count as live,
    stays PAUSED. *)
Theorem poll_demo_mode `{PyLib} (inp : cycle_input) (st : state) :
  is_demo inp.(current_key) = true →
  let st' := poll_live_matches inp st in
  (∀ now, Forall (λ m, m.(f_competition_id) = None) (demo_matches now))
  ∧ (∀ (feed : list feed_match) m,
       m ∈ filter (λ m, in_top_competitions m) feed →
       ∃ c, m.(f_competition_id) = Some c
            ∧ c ∈ [2021; 2014; 2001; 2002; 2019; 2015]%Z)
  ∧ st'.(api_status).(a_status) = "Demo Mode"
  ∧ st'.(db).(snapshots_tbl) = st.(db).(snapshots_tbl)
  ∧ st'.(db).(snapshots_seq) = st.(db).(snapshots_seq)
  ∧ (∀ id, st.(db).(matches_tbl) !! id = None → st'.(db).(matches_tbl) !! id = None)
  ∧ ∀ id r,
      st.(db).(matches_tbl) !! id = Some r →
      st'.(db).(matches_tbl) !! id
      = Some (if decide (r.(m_status) ∈ ["LIVE"; "IN_PLAY"; "TIMED"; "STARTING"])
              then set_status "FINISHED" r else r)
      ∧ (r.(m_status) = "PAUSED" → st'.(db).(matches_tbl) !! id = Some r).
Proof.
  intros Hdemo st'. split; [|split].
  { intros now. repeat constructor. }
  { intros feed m [Hm _]%list_elem_of_filter. now apply in_top_competitions_spec. }
  unfold st', poll_live_matches, fetch_matches. rewrite Hdemo.
  cbn [api_status db a_status]. split; [reflexivity|].
  unfold persist_matches, write_matches, demo_matches.
  change (filter _ _) with (@nil feed_match).
  cbn [process_matches mapM mbind mret outcome_bind outcome_ret fmap list_fmap
       snapshots_tbl snapshots_seq matches_tbl].
  split; [reflexivity|]. split; [reflexivity|].
  assert (Hlookup : ∀ id,
            mark_finished [] (matches_tbl (db st)) !! id
            = (λ r, if decide (r.(m_status) ∈ ["LIVE"; "IN_PLAY"; "TIMED"; "STARTING"])
                    then set_status "FINISHED" r else r)
              <$> matches_tbl (db st) !! id).
  { intros id. unfold mark_finished. rewrite map_lookup_imap.
    now destruct (matches_tbl (db st) !! id). }
  split.
  - intros id Hid. now rewrite Hlookup, Hid.
  - intros id r Hr. rewrite Hlookup, Hr. split; [reflexivity|].
    intros Hpaused. cbn. rewrite decide_False; [reflexivity|].
    rewrite Hpaused. intros Hin.
    exact (proj1 (bool_decide_eq_false
                    ("PAUSED" ∈ ["LIVE"; "IN_PLAY"; "TIMED"; "STARTING"]))
             eq_refl Hin).
Qed.

Lemma poll_demo_mode_witness :
  (@poll_live_matches exact_lib demo_input sample_state).(db).(matches_tbl) !! 1%Z
  = Some (sample_row "PAUSED")
  ∧ (@poll_live_matches exact_lib demo_input sample_state).(db).(matches_tbl) !! 2%Z
    = Some (sample_row "FINISHED")
  ∧ (@poll_live_matches exact_lib demo_input sample_state).(db).(snapshots_tbl)
    = sample_state.(db).(snapshots_tbl).
Proof.
  destruct (@poll_demo_mode exact_lib demo_input sample_state eq_refl)
    as (_ & _ & _ & Hsnap & _ & _ & Hmatches).
  split; [|split; [|exact Hsnap]].
  - apply (Hmatches 1%Z (sample_row "PAUSED")); reflexivity.
  - apply (Hmatches 2%Z (sample_row "IN_PLAY")). reflexivity.
Defined.

Lemma poll_fetch_failure_witness :
  (@poll_live_matches exact_lib timeout_input sample_state).(db) = sample_state.(db).
Proof.
  apply (@poll_fetch_failure exact_lib timeout_input sample_state).
  split; [reflexivity | exact I].
Defined.

(** C3.  The clean-up does not cover PAUSED: a stored match whose
    status is PAUSED and whose id is not in the filtered feed keeps its
    row, status included, through a cycle that obtained the feed. *)
Theorem persist_keeps_paused `{PyLib}
    (clock : Z) (feed : list feed_match) (d : database) (id : Z) (r : match_row) :
  d.(matches_tbl) !! id = Some r →
  r.(m_status) = "PAUSED" →
  id ∉ f_id <$> filter (λ m, in_top_competitions m) feed →
  (persist_matches clock feed d).(matches_tbl) !! id = Some r.
Proof.
  intros Hr Hstatus Hid.
  destruct (persist_matches_absent clock feed d id Hid) as [[_ ->]|[_ ->]];
    [|exact Hr].
  rewrite Hr. cbn. rewrite decide_False; [done|].
  rewrite Hstatus. intros Hin.
  exact (proj1 (bool_decide_eq_false ("PAUSED" ∈ active_statuses)) eq_refl Hin).
Qed.

Lemma persist_keeps_paused_witness :
  (@poll_live_matches exact_lib (feed_input 1714588230000000 []) sample_state)
    .(db).(matches_tbl) !! 1%Z
  = Some (sample_row "PAUSED").
Proof.
  change ((@persist_matches exact_lib 1714588230000000 [] sample_state.(db))
            .(matches_tbl) !! 1%Z = Some (sample_row "PAUSED")).
  apply (@persist_keeps_paused exact_lib); [reflexivity | reflexivity |].
  apply not_elem_of_nil.
Defined.

(** C7.  The minute estimate is defined on every record and lies in
    1..120.  It is 45 when [utcDate] is missing, [null], zero or the
    empty string, and when [fromisoformat] rejects it; on a string it
    accepts, it is the whole minutes from kickoff to now, rounded down
    and clamped to 1..120.  A record whose values can be bound is
    stored with that minute, whatever its timestamp says.  But the
    statement ahead of the estimate subscripts [utcDate]: on a record
    without the key the iteration raises [KeyError], the cycle ends
    there and nothing of it is committed, the other records of the feed
    included. *)
Theorem dynamic_minute_spec `{PyLib}
    (clock : Z) (feed : list feed_match) (d : database) (m : feed_match) :
  let minute := dynamic_minute clock m.(f_utcDate) in
  (1 ≤ minute ≤ 120)%Z
  ∧ (m.(f_utcDate) = None ∨ m.(f_utcDate) = Some JNull
     ∨ m.(f_utcDate) = Some (JStr EmptyString) ∨ m.(f_utcDate) = Some (JInt 0) →
     minute = 45%Z)
  ∧ (fromisoformat (utc_date_str m.(f_utcDate)) = None → minute = 45%Z)
  ∧ (∀ kickoff,
       utc_date_str m.(f_utcDate) ≠ EmptyString →
       fromisoformat (utc_date_str m.(f_utcDate)) = Some kickoff →
       minute
       = Z.max 1
           (Z.min
              (match kickoff.(tzinfo) with
               | Some offset => clock - (kickoff.(wall_us) - offset)
               | None => clock + local_utcoffset_us - kickoff.(wall_us)
               end `div` 60000000)
              120))
  ∧ (storable m →
     ∃ d' new,
       process_match clock d m = Returns d'
       ∧ d'.(snapshots_tbl) = trim_snapshots m.(f_id) (d.(snapshots_tbl) ++ [new])
       ∧ new.(s_minute) = minute)
  ∧ (m.(f_utcDate) = None → process_match clock d m = Raises "KeyError")
  ∧ (m ∈ filter (λ m, in_top_competitions m) feed →
     m.(f_utcDate) = None →
     (∃ e, write_matches clock feed d = Raises e)
     ∧ persist_matches clock feed d = d).
Proof.
  intros minute. split; [apply dynamic_minute_range|]. split.
  { intros Hmissing. apply dynamic_minute_fallback. left.
    destruct Hmissing as [-> | [-> | [-> | ->]]]; reflexivity. }
  split.
  { intros Hparse. apply dynamic_minute_fallback. now right. }
  split.
  { intros kickoff. apply dynamic_minute_valid. }
  split.
  { intros Hm. destruct (process_match_storable clock d m Hm) as [d' Hd'].
    destruct (process_match_inv clock d m d' Hd')
      as (utcDate & new & _ & _ & _ & Hrows & _ & Hnew).
    exists d', new. split; [exact Hd'|]. split; [exact Hrows|].
    now rewrite Hnew. }
  split.
  { apply process_match_KeyError. }
  intros Hin Hmissing.
  destruct (write_matches_cases clock feed d)
    as [(Hms & _)|(_ & Hraise & Hkeep)]; [|now split].
  exfalso. rewrite Forall_forall in Hms.
  destruct (Hms m Hin) as (_ & _ & _ & Hdate). now rewrite Hmissing in Hdate.
Qed.

Lemma dynamic_minute_spec_witness :
  @dynamic_minute exact_lib 1714588230000000 (Some (JStr "2024-05-01T18:00:00Z")) = 30%Z
  ∧ @dynamic_minute exact_lib 1714588230000000 (Some (JStr "kickoff")) = 45%Z
  ∧ @persist_matches exact_lib 1714588230000000 [sample_feed_match; undated_feed_match]
      sample_state.(db) = sample_state.(db).
Proof.
  split; [|split].
  - destruct (@dynamic_minute_spec exact_lib 1714588230000000 [] sample_state.(db)
                sample_feed_match) as (_ & _ & _ & Hvalid & _).
    refine (eq_trans (Hvalid {| wall_us := 1714586400000000; tzinfo := Some 0%Z |} _ _) _);
      [discriminate | reflexivity | reflexivity].
  - destruct (@dynamic_minute_spec exact_lib 1714588230000000 [] sample_state.(db)
                unparsed_feed_match) as (_ & _ & Hbad & _).
    apply Hbad. reflexivity.
  - destruct (@dynamic_minute_spec exact_lib 1714588230000000
                [sample_feed_match; undated_feed_match] sample_state.(db)
                undated_feed_match) as (_ & _ & _ & _ & _ & _ & Hcycle).
    apply Hcycle; [|reflexivity].
    apply list_elem_of_filter. split; [exact I|]. right. left.
Defined.
(** ** Snapshot trimming *)

#[global] Instance newer_or_equal_trans : Transitive newer_or_equal.
Proof. unfold newer_or_equal. intros a b c ? ?. lia. Qed.

#[global] Instance newer_or_equal_total : Total newer_or_equal.
Proof. unfold newer_or_equal. intros a b. lia. Qed.

#[global] Instance desc_order_trans : Transitive desc_order.
Proof. unfold desc_order. intros a b c ? ?. lia. Qed.

#[global] Instance desc_order_total : Total desc_order.
Proof. unfold desc_order. intros a b. lia. Qed.

Lemma desc_order_newer (a b : snapshot) : desc_order a b → newer_or_equal a b.
Proof. unfold desc_order, newer_or_equal. lia. Qed.

Lemma StronglySorted_weaken {A} (R R' : relation A) (l : list A) :
  (∀ a b, R a b → R' a b) → StronglySorted R l → StronglySorted R' l.
Proof.
  intros HR. induction 1 as [|a l _ IH Hall]; constructor; [exact IH|].
  eapply Forall_impl; [exact Hall|]. apply HR.
Qed.

Lemma filter_all {A} (P : A → Prop) `{!∀ x, Decision (P x)} (l : list A) :
  Forall P l → filter P l = l.
Proof.
  induction 1 as [|x l Hx _ IH]; [reflexivity|].
  now rewrite filter_cons_True, IH.
Qed.

Lemma filter_none {A} (P : A → Prop) `{!∀ x, Decision (P x)} (l : list A) :
  Forall (λ x, ¬ P x) l → filter P l = [].
Proof.
  induction 1 as [|x l Hx _ IH]; [reflexivity|].
  now rewrite filter_cons_False.
Qed.

Lemma snapshots_desc_perm (match_id : Z) (rows : list snapshot) :
  snapshots_desc match_id rows ≡ₚ of_match match_id rows.
Proof. apply merge_sort_Permutation. Qed.

Lemma snapshots_desc_sorted (match_id : Z) (rows : list snapshot) :
  StronglySorted newer_or_equal (snapshots_desc match_id rows).
Proof.
  apply (StronglySorted_weaken desc_order); [apply desc_order_newer|].
  apply StronglySorted_merge_sort; apply _.
Qed.

Lemma snapshots_desc_NoDup (match_id : Z) (rows : list snapshot) :
  NoDup (s_id <$> rows) → NoDup (s_id <$> snapshots_desc match_id rows).
Proof.
  intros Hnd. rewrite snapshots_desc_perm.
  eapply sublist_NoDup; [exact Hnd|]. apply fmap_sublist, sublist_filter.
Qed.

(** With [id] a key, two rows of the table with the same id are the
    same row. *)
Lemma same_id_same_row (rows : list snapshot) (a b : snapshot) :
  NoDup (s_id <$> rows) → a ∈ rows → b ∈ rows → a.(s_id) = b.(s_id) → a = b.
Proof.
  intros Hnd Ha Hb Hid.
  apply (NoDup_fmap_1 s_id) in Hnd as Hnd'.
  apply list_elem_of_lookup in Ha as [i Hi]. apply list_elem_of_lookup in Hb as [j Hj].
  assert (i = j) as ->.
  { eapply (NoDup_lookup _ i j (s_id a) Hnd); rewrite list_lookup_fmap.
    - now rewrite Hi.
    - now rewrite Hj, Hid. }
  congruence.
Qed.

Section trim.
Context (match_id : Z) (rows : list snapshot) (Hkey : NoDup (s_id <$> rows)).

Let sorted := snapshots_desc match_id rows.
Let old_ids := s_id <$> drop SNAPSHOT_CAP sorted.

Lemma take_not_old (s : snapshot) :
  s ∈ take SNAPSHOT_CAP sorted → s.(s_id) ∉ old_ids.
Proof.
  intros Hs. pose proof (snapshots_desc_NoDup match_id rows Hkey) as Hnd.
  fold sorted in Hnd. rewrite <- (take_drop SNAPSHOT_CAP sorted), fmap_app in Hnd.
  apply NoDup_app in Hnd as (_ & Hdisj & _).
  apply Hdisj. now apply list_elem_of_fmap_2.
Qed.

Lemma of_match_trim :
  of_match match_id (trim_snapshots match_id rows) ≡ₚ take SNAPSHOT_CAP sorted.
Proof.
  unfold of_match, trim_snapshots. fold sorted. fold old_ids.
  rewrite list_filter_filter.
  rewrite (list_filter_iff _ (λ s, (s_id s ∉ old_ids) ∧ s_match_id s = match_id))
    by (intros; tauto).
  rewrite <- list_filter_filter.
  change (filter _ rows) with (of_match match_id rows).
  rewrite <- (snapshots_desc_perm match_id rows). fold sorted.
  rewrite <- (take_drop SNAPSHOT_CAP sorted) at 1.
  rewrite filter_app, filter_all, filter_none, app_nil_r; [reflexivity| |].
  - apply Forall_forall. intros s Hs Hnot. apply Hnot.
    now apply list_elem_of_fmap_2.
  - apply Forall_forall. intros s Hs. now apply take_not_old.
Qed.

Lemma trim_other_match (s : snapshot) :
  s ∈ rows → s.(s_match_id) ≠ match_id → s ∈ trim_snapshots match_id rows.
Proof.
  intros Hs Hne. apply list_elem_of_filter. split; [|exact Hs].
  fold sorted. intros (o & Hid & Ho)%list_elem_of_fmap.
  assert (Ho' : o ∈ of_match match_id rows).
  { rewrite <- (snapshots_desc_perm match_id rows). fold sorted.
    rewrite <- (take_drop SNAPSHOT_CAP sorted). apply elem_of_app. now right. }
  apply list_elem_of_filter in Ho' as [Hmatch Hrows].
  rewrite (same_id_same_row rows s o Hkey Hs Hrows Hid) in Hne. done.
Qed.

Lemma trim_dropped (s : snapshot) :
  s ∈ rows → s ∉ trim_snapshots match_id rows →
  s ∈ drop SNAPSHOT_CAP sorted.
Proof.
  intros Hs Hnot.
  destruct (decide (s_id s ∈ old_ids)) as [Hold|Hold].
  - apply list_elem_of_fmap in Hold as (o & Hid & Ho).
    assert (Ho' : o ∈ of_match match_id rows).
    { rewrite <- (snapshots_desc_perm match_id rows). fold sorted.
      rewrite <- (take_drop SNAPSHOT_CAP sorted). apply elem_of_app. now right. }
    apply list_elem_of_filter in Ho' as [_ Hrows].
    now rewrite (same_id_same_row rows s o Hkey Hs Hrows Hid).
  - exfalso. apply Hnot. apply list_elem_of_filter. split; [exact Hold | exact Hs].
Qed.

Lemma trim_most_recent (k s : snapshot) :
  k ∈ trim_snapshots match_id rows → k.(s_match_id) = match_id →
  s ∈ rows → s ∉ trim_snapshots match_id rows →
  s.(s_match_id) = match_id ∧ (s.(s_timestamp) ≤ k.(s_timestamp))%Z.
Proof.
  intros Hk Hkm Hs Hnot. pose proof (trim_dropped s Hs Hnot) as Hdrop.
  split.
  - destruct (decide (s_match_id s = match_id)) as [|Hne]; [done|].
    exfalso. apply Hnot. now apply trim_other_match.
  - assert (Hk' : k ∈ take SNAPSHOT_CAP sorted).
    { rewrite <- of_match_trim. apply list_elem_of_filter. now split. }
    pose proof (snapshots_desc_sorted match_id rows) as Hsorted. fold sorted in Hsorted.
    rewrite <- (take_drop SNAPSHOT_CAP sorted) in Hsorted.
    exact (StronglySorted_app_1_elem_of _ _ _ k s Hsorted Hk' Hdrop).
Qed.

Lemma length_of_match_trim :
  length (of_match match_id (trim_snapshots match_id rows))
  = Nat.min SNAPSHOT_CAP (length (of_match match_id rows)).
Proof.
  rewrite of_match_trim, length_take. unfold sorted.
  now rewrite snapshots_desc_perm.
Qed.

End trim.

(** *** The cap as an invariant of the poll cycle *)

Lemma process_match_snapshots `{PyLib}
    (clock : Z) (d : database) (m : feed_match) (d' : database) :
  process_match clock d m = Returns d' →
  ∃ new,
    d'.(snapshots_tbl) = trim_snapshots m.(f_id) (d.(snapshots_tbl) ++ [new])
    ∧ new.(s_id) = (d.(snapshots_seq) + 1)%Z
    ∧ new.(s_match_id) = m.(f_id)
    ∧ new.(s_timestamp) = CURRENT_TIMESTAMP clock
    ∧ d'.(snapshots_seq) = (d.(snapshots_seq) + 1)%Z.
Proof.
  intros (utcDate & new & _ & _ & _ & Hrows & Hseq & ->)%process_match_inv.
  eexists. split; [exact Hrows|]. now repeat split.
Qed.

Lemma insert_keeps_key (d : database) (new : snapshot) :
  snapshots_wf d → new.(s_id) = (d.(snapshots_seq) + 1)%Z →
  NoDup (s_id <$> d.(snapshots_tbl) ++ [new]).
Proof.
  intros [Hnd Hle] Hid. rewrite fmap_app. apply NoDup_app.
  split; [exact Hnd|]. split; [|apply NoDup_singleton].
  intros i (s & -> & Hs)%list_elem_of_fmap Hin.
  apply list_elem_of_singleton in Hin.
  rewrite Forall_forall in Hle. specialize (Hle s Hs). simpl in Hin. lia.
Qed.

Lemma process_match_wf `{PyLib}
    (clock : Z) (d : database) (m : feed_match) (d' : database) :
  process_match clock d m = Returns d' → snapshots_wf d → snapshots_wf d'.
Proof.
  intros Hstep Hwf. destruct (process_match_snapshots clock d m d' Hstep)
    as (new & Hrows & Hid & _ & _ & Hseq).
  pose proof (insert_keeps_key d new Hwf Hid) as Hnd.
  unfold snapshots_wf. rewrite Hrows, Hseq. split.
  - eapply sublist_NoDup; [exact Hnd|]. apply fmap_sublist, sublist_filter.
  - apply Forall_forall. intros s [_ Hs]%list_elem_of_filter.
    apply elem_of_app in Hs as [Hs|Hs].
    + destruct Hwf as [_ Hle]. rewrite Forall_forall in Hle.
      specialize (Hle s Hs). lia.
    + apply list_elem_of_singleton in Hs as ->. lia.
Qed.

Lemma process_match_capped `{PyLib}
    (clock : Z) (d : database) (m : feed_match) (d' : database) :
  process_match clock d m = Returns d' → snapshots_wf d → capped d → capped d'.
Proof.
  intros Hstep Hwf Hcap match_id. destruct (process_match_snapshots clock d m d' Hstep)
    as (new & Hrows & Hid & Hmatch & _ & _).
  pose proof (insert_keeps_key d new Hwf Hid) as Hnd. rewrite Hrows.
  destruct (decide (match_id = f_id m)) as [->|Hne].
  - rewrite length_of_match_trim by exact Hnd. lia.
  - transitivity (length (of_match match_id (snapshots_tbl d ++ [new]))).
    + apply sublist_length. unfold of_match, trim_snapshots.
      rewrite list_filter_filter.
      rewrite <- (list_filter_filter_l _ (λ s, s_match_id s = match_id))
        by (intros ? [? _]; done).
      apply sublist_filter.
    + unfold of_match. rewrite filter_app, filter_cons_False, filter_nil, app_nil_r
        by (rewrite Hmatch; congruence).
      apply Hcap.
Qed.

(** A property of the database that the clean-up statement and every
    iteration keep holds after [persist_matches]. *)
Lemma persist_matches_ind `{PyLib} (P : database → Prop)
    (clock : Z) (feed : list feed_match) (d : database) :
  (∀ d seen_ids, P d →
     P {| matches_tbl := mark_finished seen_ids d.(matches_tbl);
          snapshots_tbl := d.(snapshots_tbl); snapshots_seq := d.(snapshots_seq) |}) →
  (∀ d m d', P d → process_match clock d m = Returns d' → P d') →
  P d → P (persist_matches clock feed d).
Proof.
  intros Hclean Hstep Hd.
  destruct (write_matches_cases clock feed d)
    as [(_ & d' & _ & -> & Hrun)|(_ & _ & ->)]; [|exact Hd].
  eapply (process_matches_ind P); [|apply Hclean, Hd|exact Hrun].
  intros d0 m d0' _. apply Hstep.
Qed.

Lemma persist_matches_invariant `{PyLib} (clock : Z) (feed : list feed_match) (d : database) :
  snapshots_wf d → capped d →
  snapshots_wf (persist_matches clock feed d) ∧ capped (persist_matches clock feed d).
Proof.
  intros Hwf Hcap.
  apply (persist_matches_ind (λ d, snapshots_wf d ∧ capped d)); [| |now split].
  - intros d0 seen_ids Hd0. exact Hd0.
  - intros d0 m d0' [Hwf0 Hcap0] Hstep. split.
    + now apply (process_match_wf clock d0 m).
    + now apply (process_match_capped clock d0 m).
Qed.

Lemma reachable_invariant `{PyLib} (st : state) :
  reachable st → snapshots_wf st.(db) ∧ capped st.(db).
Proof.
  induction 1 as [|inp st _ [Hwf Hcap]].
  - split; [split; constructor|]. intros match_id. simpl. lia.
  - unfold poll_live_matches. destruct (fetch_matches inp _) as [api [feed|]];
      cbn [db]; [|now split].
    now apply persist_matches_invariant.
Qed.

Lemma reachable_run `{PyLib} (inputs : list cycle_input) (st : state) :
  reachable st → reachable (run inputs st).
Proof.
  revert st. induction inputs as [|inp inputs IH]; intros st Hst; [exact Hst|].
  apply IH. now constructor.
Qed.

(** C4.  In every state the scheduler can reach, a match has at most
    2000 snapshots.  One more iteration for a feed match, which
    completes when the values of the record can be bound, inserts a row
    with the current timestamp and trims: of that match there remain
    the first 2000 rows in descending timestamp order (all rows, if
    there are no more than 2000; exactly 2000, if there are more), every
    row removed belongs to that match, and no removed row is newer than
    a remaining row of the match. *)
Theorem snapshots_capped `{PyLib}
    (st : state) (match_id : Z) (clock : Z) (m : feed_match) :
  reachable st →
  (length (of_match match_id st.(db).(snapshots_tbl)) ≤ 2000)%nat
  ∧ (storable m → ∃ d', process_match clock st.(db) m = Returns d')
  ∧ ∀ d',
      process_match clock st.(db) m = Returns d' →
      ∃ new,
        new.(s_match_id) = m.(f_id)
        ∧ new.(s_timestamp) = CURRENT_TIMESTAMP clock
        ∧ let inserted := st.(db).(snapshots_tbl) ++ [new] in
          let kept := d'.(snapshots_tbl) in
          of_match m.(f_id) kept ≡ₚ take 2000 (snapshots_desc m.(f_id) inserted)
          ∧ length (of_match m.(f_id) kept)
            = Nat.min 2000 (length (of_match m.(f_id) inserted))
          ∧ ∀ k s, k ∈ kept → k.(s_match_id) = m.(f_id) →
                   s ∈ inserted → s ∉ kept →
                   s.(s_match_id) = m.(f_id)
                   ∧ (s.(s_timestamp) ≤ k.(s_timestamp))%Z.
Proof.
  intros Hreach. destruct (reachable_invariant st Hreach) as [Hwf Hcap].
  split; [apply Hcap|]. split; [apply process_match_storable|].
  intros d' Hstep.
  destruct (process_match_snapshots clock st.(db) m d' Hstep)
    as (new & Hrows & Hid & Hmatch & Hts & _).
  pose proof (insert_keeps_key _ new Hwf Hid) as Hnd.
  exists new. split; [exact Hmatch|]. split; [exact Hts|].
  cbv zeta. rewrite Hrows. split; [|split].
  - now apply of_match_trim.
  - now apply length_of_match_trim.
  - intros k s. now apply trim_most_recent.
Qed.

Lemma snapshots_capped_witness :
  (length (of_match 2 (@run exact_lib (minute_inputs 3) init_state).(db).(snapshots_tbl))
   ≤ 2000)%nat.
Proof.
  apply (@snapshots_capped exact_lib
           (@run exact_lib (minute_inputs 3) init_state) 2 0 sample_feed_match).
  apply reachable_run. constructor.
Defined.

(** The cap at work.  On a table with 2000 rows of the match, an
    iteration at a later time inserts id 2001 and removes the oldest
    row, id 1. *)
Example process_match_at_cap :
  match @process_match exact_lib 1714706460000000 full_db sample_feed_match with
  | Returns d' =>
      length d'.(snapshots_tbl) = 2000%nat
      ∧ s_id <$> head d'.(snapshots_tbl) = Some 2%Z
      ∧ s_id <$> last d'.(snapshots_tbl) = Some 2001%Z
  | Raises _ => False
  end.
Proof. vm_compute. repeat split. Qed.

(** Recency is by timestamp, not by insertion: were the clock set back
    before the first row, the row just inserted would be the one
    removed. *)
Example process_match_clock_set_back :
  match @process_match exact_lib 1714586400000000 full_db sample_feed_match with
  | Returns d' => d'.(snapshots_tbl) = full_db.(snapshots_tbl)
  | Raises _ => False
  end.
Proof. vm_compute. reflexivity. Qed.

(** Rows of the same second come oldest first, so the row compared with
    the new score is the older one: after a home goal within a second,
    the next snapshot of that second counts the goal once more (10 for
    the minute, 30 for the lead, 40 for the goal). *)
Example process_match_same_second :
  match @process_match exact_lib 1714588230500000 same_second_db unparsed_feed_match with
  | Returns d' =>
      ∃ new, last d'.(snapshots_tbl) = Some new ∧ new.(s_pressure_index) == 80
  | Raises _ => False
  end.
Proof. vm_compute. eexists. split; reflexivity. Qed.

(** One record that cannot be stored undoes the cycle: with a record
    without [utcDate], or one whose id does not fit 64 bits, behind the
    sample match, nothing is stored for the sample match either. *)
Example persist_matches_aborts :
  @write_matches exact_lib 1714588230000000 [sample_feed_match; undated_feed_match]
    sample_state.(db) = Raises "KeyError"
  ∧ @write_matches exact_lib 1714588230000000 [sample_feed_match; huge_feed_match]
      sample_state.(db) = Raises "OverflowError"
  ∧ @persist_matches exact_lib 1714588230000000 [sample_feed_match; undated_feed_match]
      sample_state.(db) = sample_state.(db).
Proof. vm_compute. repeat split. Qed.

(** * Further properties *)

(** ** Pressure index *)

Lemma clip_monotone (x y lo hi : Q) :
  x <= y → Py.clip x lo hi <= Py.clip y lo hi.
Proof.
  intros Hxy. rewrite !clip_clamp. unfold PressureSpec.clamp.
  apply Q.min_le_compat_r, Q.max_le_compat_r, Hxy.
Qed.

(** X1.  Against the same prior snapshots, the pressure index does not
    fall when the minute or the home score grows or the away score
    shrinks. *)
Theorem pressure_index_monotone
    (minute minute' score_home score_home' score_away score_away' : Z)
    (prev : list snapshot) :
  (minute ≤ minute')%Z → (score_home ≤ score_home')%Z → (score_away' ≤ score_away)%Z →
  calculate_pressure_index
    {| sd_minute := Some minute; sd_score_home := Some score_home;
       sd_score_away := Some score_away |} prev
  <= calculate_pressure_index
       {| sd_minute := Some minute'; sd_score_home := Some score_home';
          sd_score_away := Some score_away' |} prev.
Proof.
  intros Hm Hh Ha. unfold calculate_pressure_index.
  cbn [Py.get sd_minute sd_score_home sd_score_away].
  apply clip_monotone.
  rewrite <- !Qplus_assoc, <- !inject_Z_plus.
  apply Qplus_le_compat.
  - rewrite Zle_Qle in Hm. unfold Qdiv.
    apply Qmult_le_compat_r; [|lra]. apply Qmult_le_compat_r; [exact Hm|].
    now vm_compute.
  - rewrite <- Zle_Qle. apply Z.add_le_mono.
    + unfold Py.clip_int. lia.
    + destruct prev as [|last prev]; [lia|].
      repeat match goal with
             | |- context [(?a <? ?b)%Z] => destruct (Z.ltb_spec a b)
             end; lia.
Qed.

Lemma pressure_index_monotone_witness :
  calculate_pressure_index
    {| sd_minute := Some 30%Z; sd_score_home := Some 1%Z; sd_score_away := Some 1%Z |}
    [snapshot_of_pressure 0]
  <= calculate_pressure_index
       {| sd_minute := Some 31%Z; sd_score_home := Some 2%Z; sd_score_away := Some 0%Z |}
       [snapshot_of_pressure 0].
Proof. apply pressure_index_monotone; lia. Defined.

(** ** Forecast *)

Lemma last_n_app_ge {A} (n : nat) (older recent : list A) :
  (n ≤ length recent)%nat → Py.last_n n (older ++ recent) = Py.last_n n recent.
Proof.
  intros Hn. unfold Py.last_n. rewrite length_app.
  replace (length older + length recent - n)%nat
    with (length older + (length recent - n))%nat by lia.
  apply drop_app_add'. reflexivity.
Qed.

(** X2.  The forecast looks at the last ten snapshots only: whatever
    precedes ten or more snapshots does not change it. *)
Theorem get_forecast_window `{PyLib} (older recent : list snapshot) :
  (10 ≤ length recent)%nat →
  get_forecast (older ++ recent) = get_forecast recent.
Proof.
  intros Hlen. unfold get_forecast. rewrite length_app.
  destruct (Nat.ltb_spec (length older + length recent) 3); [lia|].
  destruct (Nat.ltb_spec (length recent) 3); [lia|].
  now rewrite last_n_app_ge.
Qed.

(** X3.  The label and the probability of a forecast agree: "High"
    comes with a probability of at least 40, "Low" with at most 40,
    "Moderate" with 20 to 60, "Inconclusive" with 0; there is no other
    label.  This holds of every forecast returned, with the rounding of
    every float operation. *)
Theorem forecast_level_probability `{PyLib} (snapshots : list snapshot) (f : forecast) :
  numeric_laws →
  get_forecast snapshots = Returns f →
  (f.(level) = "High" ∨ f.(level) = "Moderate" ∨ f.(level) = "Low"
   ∨ f.(level) = "Inconclusive")
  ∧ (f.(level) = "High" → (40 ≤ f.(probability) ≤ 100)%Z)
  ∧ (f.(level) = "Moderate" → (20 ≤ f.(probability) ≤ 60)%Z)
  ∧ (f.(level) = "Low" → (0 ≤ f.(probability) ≤ 40)%Z)
  ∧ (f.(level) = "Inconclusive" → f.(probability) = 0%Z).
Proof.
  intros laws Hf.
  destruct (Nat.lt_ge_cases (length snapshots) 3) as [Hlen|Hlen].
  { unfold get_forecast in Hf.
    destruct (Nat.ltb_spec (length snapshots) 3); [|lia]. injection Hf as <-.
    cbn [level probability]. repeat split; auto; try discriminate. }
  set (y := s_pressure_index <$> Py.last_n 10 snapshots).
  destruct (np_polyfit (Py.range (length y)) y) as [[slope intercept]|] eqn:Hfit.
  2: { rewrite (get_forecast_no_fit snapshots Hlen Hfit) in Hf. injection Hf as <-.
       cbn [level probability]. repeat split; auto; try discriminate; lia. }
  destruct (get_forecast_value snapshots slope intercept Hlen Hfit) as (text & Hget).
  fold y in Hget. rewrite Hget in Hf. clear Hget.
  destruct (NaN_dec slope) as [Hslope|Hslope].
  { rewrite forecast_value_NaN in Hf by now left. discriminate. }
  destruct (NaN_dec (np_var y)) as [Hvar|Hvar].
  { rewrite forecast_value_NaN in Hf by now right. discriminate. }
  destruct (forecast_value_Fin laws slope y Hslope Hvar)
    as (x & Hx & Hrange & Habove & Hbelow).
  remember (Float.ltb (Fin 1) slope) as high eqn:E1.
  remember (Float.ltb (Fin (-1)) slope) as moderate eqn:E2.
  symmetry in E1, E2.
  rewrite Hx in Hf. cbn [Float.int] in Hf. injection Hf as <-.
  cbn [level probability].
  assert (H0 : (0 ≤ Py.int x)%Z).
  { apply py_int_ge; [lia|]. apply Hrange. }
  assert (H100 : (Py.int x ≤ 100)%Z).
  { apply py_int_le; apply Hrange. }
  destruct high; [|destruct moderate].
  - split; [auto|]. split; [|repeat split; discriminate].
    intros _. split; [|exact H100]. apply py_int_ge; [lia|].
    apply (Habove 1%Z); [lia|].
    destruct slope as [s| | |]; cbn in *; try done. apply ltb_lt in E1.
    change (inject_Z 1) with 1. lra.
  - split; [auto|]. split; [discriminate|]. split; [|repeat split; discriminate].
    intros _. split.
    + apply py_int_ge; [lia|]. apply (Habove (-1)%Z); [lia|].
      destruct slope as [s| | |]; cbn in *; try done. apply ltb_lt in E2.
      change (inject_Z (-1)) with (-1). lra.
    + apply py_int_le; [apply Hrange|]. apply (Hbelow 1%Z); [lia|].
      destruct slope as [s| | |]; cbn in *; try done. apply ltb_ge in E1.
      change (inject_Z 1) with 1. lra.
  - split; [auto|]. split; [discriminate|]. split; [discriminate|].
    split; [|discriminate].
    intros _. split; [exact H0|]. apply py_int_le; [apply Hrange|].
    apply (Hbelow (-1)%Z); [lia|].
    destruct slope as [s| | |]; cbn in *; try done. apply ltb_ge in E2.
    change (inject_Z (-1)) with (-1). lra.
Qed.

Lemma get_forecast_window_witness :
  @get_forecast exact_lib
    ([snapshot_of_pressure 99; snapshot_of_pressure (-99)]
     ++ (snapshot_of_pressure <$> [1; 2; 3; 4; 5; 6; 7; 8; 9; 10]))
  = @get_forecast exact_lib (snapshot_of_pressure <$> [1; 2; 3; 4; 5; 6; 7; 8; 9; 10]).
Proof. apply (@get_forecast_window exact_lib). simpl. lia. Defined.

Lemma forecast_level_probability_witness :
  ∃ f, @get_forecast exact_lib
         [snapshot_of_pressure 0; snapshot_of_pressure 0; snapshot_of_pressure 6]
       = Returns f
       ∧ f.(level) = "High" ∧ (40 ≤ f.(probability) ≤ 100)%Z.
Proof.
  eexists. split; [vm_compute; reflexivity|]. split; [reflexivity|].
  apply (@forecast_level_probability exact_lib
           [snapshot_of_pressure 0; snapshot_of_pressure 0; snapshot_of_pressure 6]);
    [apply lib_with_fit_laws | vm_compute; reflexivity | reflexivity].
Defined.

(** ** Chart *)

Lemma chart_x_bounds (i n width padding : Z) :
  (0 ≤ i < n)%Z → (2 * padding ≤ width)%Z →
  inject_Z padding
  <= inject_Z padding + inject_Z (i * (width - 2 * padding)) / inject_Z (Z.max (n - 1) 1)
  <= inject_Z (width - padding).
Proof.
  intros Hi Hw.
  assert (Hm : 0 < inject_Z (Z.max (n - 1) 1)).
  { change 0 with (inject_Z 0). rewrite <- Zlt_Qlt. lia. }
  assert (H0 : 0 <= inject_Z (i * (width - 2 * padding)) / inject_Z (Z.max (n - 1) 1)).
  { apply Qle_shift_div_l; [exact Hm|]. rewrite Qmult_0_l.
    change 0 with (inject_Z 0). rewrite <- Zle_Qle. nia. }
  assert (H1 : inject_Z (i * (width - 2 * padding)) / inject_Z (Z.max (n - 1) 1)
               <= inject_Z (width - 2 * padding)).
  { apply Qle_shift_div_r; [exact Hm|]. rewrite <- inject_Z_mult, <- Zle_Qle. nia. }
  set (q := inject_Z (i * (width - 2 * padding)) / inject_Z (Z.max (n - 1) 1)) in *.
  rewrite inject_Z_sub, inject_Z_mult in H1. change (inject_Z 2) with 2 in H1.
  rewrite inject_Z_sub. split; lra.
Qed.

Lemma chart_y_bounds (p : Q) (height padding : Z) :
  -100 <= p <= 100 → (2 * padding ≤ height)%Z →
  inject_Z padding
  <= inject_Z height / 2 - p * (inject_Z height / 2 - inject_Z padding) / 100
  <= inject_Z (height - padding).
Proof.
  intros Hp Hh. rewrite inject_Z_sub.
  rewrite Zle_Qle, inject_Z_mult in Hh. change (inject_Z 2) with 2 in Hh.
  assert (Hhalf : inject_Z height / 2 * 2 == inject_Z height) by field.
  set (half := inject_Z height / 2) in *.
  set (c := half - inject_Z padding).
  assert (Hc : 0 <= c) by (unfold c; lra).
  assert (H1 : p * c <= 100 * c) by (apply Qmult_le_compat_r; lra).
  assert (H2 : -100 * c <= p * c) by (apply Qmult_le_compat_r; lra).
  assert (Hdiv : p * c / 100 * 100 == p * c) by field.
  set (d := p * c / 100) in *. unfold c in *. split; lra.
Qed.

(** X4.  When the drawing area can hold its padding and the pressure
    indices lie between -100 and 100, the chart returned carries one
    point per snapshot and every point lies inside the padded area. *)
Theorem chart_points_inside `{PyLib} (width height padding : Z) (color : string) :
  (2 * padding ≤ width)%Z → (2 * padding ≤ height)%Z →
  ∃ before after : string,
    ∀ snapshots : list snapshot,
      snapshots ≠ [] →
      Forall (λ s, -100 <= s.(s_pressure_index) <= 100) snapshots →
      ∃ points : list (Q * Q),
        generate_svg_chart snapshots width height padding color
        = before
          +:+ Str.attr "points"
                (Str.join " "
                   ((λ p : Q * Q, format_float p.1 +:+ "," +:+ format_float p.2)
                      <$> points))
          +:+ after
        ∧ length points = length snapshots
        ∧ Forall (λ pt : Q * Q,
                    inject_Z padding <= pt.1 <= inject_Z (width - padding)
                    ∧ inject_Z padding <= pt.2 <= inject_Z (height - padding))
                 points.
Proof.
  intros Hw Hh.
  destruct (generate_svg_chart_polyline width height padding color)
    as (before & after & Hchart).
  exists before, after. intros snapshots Hne Hp.
  exists (chart_points snapshots width height padding).
  split; [exact (Hchart snapshots Hne)|]. split; [apply length_imap|].
  apply Forall_lookup. intros i pt Hpt.
  assert (Hi : (i < length snapshots)%nat).
  { apply lookup_lt_Some in Hpt. unfold chart_points in Hpt.
    now rewrite length_imap in Hpt. }
  destruct (lookup_lt_is_Some_2 snapshots i Hi) as [s Hs].
  rewrite (chart_points_lookup _ width height padding _ _ Hs) in Hpt.
  injection Hpt as <-. cbn [fst snd]. split.
  - apply chart_x_bounds; lia.
  - apply chart_y_bounds; [|exact Hh].
    rewrite Forall_lookup in Hp. exact (Hp i s Hs).
Qed.

(** X5.  When the width exceeds twice the padding, the points of the
    chart returned run from left to right: a later snapshot has a
    strictly larger x. *)
Theorem chart_points_left_to_right `{PyLib} (width height padding : Z) (color : string) :
  (2 * padding < width)%Z →
  ∃ before after : string,
    ∀ snapshots : list snapshot,
      snapshots ≠ [] →
      ∃ points : list (Q * Q),
        generate_svg_chart snapshots width height padding color
        = before
          +:+ Str.attr "points"
                (Str.join " "
                   ((λ p : Q * Q, format_float p.1 +:+ "," +:+ format_float p.2)
                      <$> points))
          +:+ after
        ∧ length points = length snapshots
        ∧ ∀ (i j : nat) (pi pj : Q * Q),
            (i < j)%nat → points !! i = Some pi → points !! j = Some pj →
            pi.1 < pj.1.
Proof.
  intros Hw.
  destruct (generate_svg_chart_polyline width height padding color)
    as (before & after & Hchart).
  exists before, after. intros snapshots Hne.
  exists (chart_points snapshots width height padding).
  split; [exact (Hchart snapshots Hne)|]. split; [apply length_imap|].
  intros i j pi pj Hij Hi Hj.
  assert (Hjlen : (j < length snapshots)%nat).
  { apply lookup_lt_Some in Hj. unfold chart_points in Hj.
    now rewrite length_imap in Hj. }
  destruct (lookup_lt_is_Some_2 snapshots i) as [si Hsi]; [lia|].
  destruct (lookup_lt_is_Some_2 snapshots j Hjlen) as [sj Hsj].
  rewrite (chart_points_lookup _ width height padding _ _ Hsi) in Hi.
  rewrite (chart_points_lookup _ width height padding _ _ Hsj) in Hj.
  injection Hi as <-. injection Hj as <-. cbn [fst].
  assert (Hm : 0 < inject_Z (Z.max (Z.of_nat (length snapshots) - 1) 1)).
  { change 0 with (inject_Z 0). rewrite <- Zlt_Qlt. lia. }
  apply Qplus_lt_r. unfold Qdiv. apply Qmult_lt_compat_r.
  - now apply Qinv_lt_0_compat.
  - rewrite <- Zlt_Qlt. nia.
Qed.

Lemma chart_points_inside_witness :
  ∃ before after points,
    @generate_sparkline exact_lib
      [snapshot_of_pressure 0; snapshot_of_pressure 100; snapshot_of_pressure (-100)]
    = before
      +:+ Str.attr "points"
            (Str.join " " ((λ p : Q * Q, show_Q p.1 +:+ "," +:+ show_Q p.2) <$> points))
      +:+ after
    ∧ Forall (λ pt : Q * Q, 5 <= pt.1 <= 115 ∧ 5 <= pt.2 <= 35) points.
Proof.
  destruct (@chart_points_inside exact_lib 120 40 5 "#22c55e")
    as (before & after & Hchart); [lia | lia |].
  destruct (Hchart [snapshot_of_pressure 0; snapshot_of_pressure 100;
                    snapshot_of_pressure (-100)])
    as (points & Htext & _ & Hinside); [discriminate | |].
  - repeat constructor; now vm_compute.
  - exists before, after, points. split; [exact Htext | exact Hinside].
Defined.

Lemma chart_points_left_to_right_witness :
  ∃ before after points,
    @generate_svg_chart_default exact_lib
      [snapshot_of_pressure 0; snapshot_of_pressure 100; snapshot_of_pressure (-100)]
    = before
      +:+ Str.attr "points"
            (Str.join " " ((λ p : Q * Q, show_Q p.1 +:+ "," +:+ show_Q p.2) <$> points))
      +:+ after
    ∧ ∀ pi pj, points !! 0%nat = Some pi → points !! 2%nat = Some pj → pi.1 < pj.1.
Proof.
  destruct (@chart_points_left_to_right exact_lib 600 200 20 "#a855f7")
    as (before & after & Hchart); [lia|].
  destruct (Hchart [snapshot_of_pressure 0; snapshot_of_pressure 100;
                    snapshot_of_pressure (-100)])
    as (points & Htext & _ & Horder); [discriminate|].
  exists before, after, points. split; [exact Htext|].
  intros pi pj. apply Horder. lia.
Defined.

(** ** Poll cycle: what every cycle keeps *)

(** A property of the database that holds after [init_db] and that the
    clean-up and every loop iteration keep holds in every reachable
    state. *)
Lemma reachable_db_ind `{PyLib} (P : database → Prop) :
  P init_state.(db) →
  (∀ seen_ids d, P d →
     P {| matches_tbl := mark_finished seen_ids d.(matches_tbl);
          snapshots_tbl := d.(snapshots_tbl); snapshots_seq := d.(snapshots_seq) |}) →
  (∀ clock d m d', P d → process_match clock d m = Returns d' → P d') →
  ∀ st, reachable st → P st.(db).
Proof.
  intros Hinit Hmark Hproc st Hst. induction Hst as [|inp st _ IH]; [exact Hinit|].
  unfold poll_live_matches. destruct (fetch_matches inp _) as [api [feed|]];
    cbn [db]; [|exact IH].
  apply persist_matches_ind; [|apply Hproc|exact IH].
  intros d seen_ids. apply Hmark.
Qed.

Lemma trim_snapshots_subset (match_id : Z) (rows : list snapshot) (s : snapshot) :
  s ∈ trim_snapshots match_id rows → s ∈ rows.
Proof. unfold trim_snapshots. now intros [_ ?]%list_elem_of_filter. Qed.

(** X6.  In every reachable state, each stored snapshot has a minute
    from 1 to 120 and a pressure index from -100 to 100. *)
Theorem stored_snapshots_in_range `{PyLib} (st : state) :
  reachable st →
  Forall (λ s, (1 ≤ s.(s_minute) ≤ 120)%Z ∧ -100 <= s.(s_pressure_index) <= 100)
         st.(db).(snapshots_tbl).
Proof.
  apply (reachable_db_ind (λ d, Forall _ d.(snapshots_tbl))).
  - constructor.
  - intros seen_ids d Hd. exact Hd.
  - intros clock d m d' Hd (utcDate & new & _ & _ & _ & -> & _ & Hnew)%process_match_inv.
    apply Forall_forall. intros s Hs%trim_snapshots_subset.
    apply elem_of_app in Hs as [Hs|Hs].
    + rewrite Forall_forall in Hd. now apply Hd.
    + apply list_elem_of_singleton in Hs as ->. rewrite Hnew.
      cbn [s_minute s_pressure_index].
      split; [apply dynamic_minute_range | apply calculate_pressure_index_bounds].
Qed.

Lemma mark_finished_is_Some (seen_ids : list Z) (ms : gmap Z match_row) (id : Z) :
  is_Some (mark_finished seen_ids ms !! id) ↔ is_Some (ms !! id).
Proof. rewrite mark_finished_lookup. apply fmap_is_Some. Qed.

Lemma upsert_match_is_Some (match_id id : Z) (new : match_row) (ms : gmap Z match_row) :
  is_Some (ms !! id) ∨ id = match_id → is_Some (upsert_match match_id new ms !! id).
Proof.
  intros Hid. unfold upsert_match.
  destruct (decide (id = match_id)) as [->|Hne].
  - destruct (ms !! match_id); rewrite lookup_insert_eq; eauto.
  - destruct Hid as [Hid|]; [|done].
    destruct (ms !! match_id); now rewrite lookup_insert_ne.
Qed.

(** X7.  In every reachable state, each stored snapshot belongs to a
    stored match: the [match_id] of a snapshot is the [id] of a row of
    [matches]. *)
Theorem snapshots_reference_matches `{PyLib} (st : state) :
  reachable st →
  Forall (λ s, is_Some (st.(db).(matches_tbl) !! s.(s_match_id)))
         st.(db).(snapshots_tbl).
Proof.
  apply (reachable_db_ind
           (λ d, Forall (λ s, is_Some (d.(matches_tbl) !! s.(s_match_id)))
                        d.(snapshots_tbl))).
  - constructor.
  - intros seen_ids d Hd. cbn [matches_tbl snapshots_tbl].
    eapply Forall_impl; [exact Hd|]. intros s Hs. now apply mark_finished_is_Some.
  - intros clock d m d' Hd
      (utcDate & new & _ & _ & -> & -> & _ & Hnew)%process_match_inv.
    apply Forall_forall. intros s Hs%trim_snapshots_subset.
    apply upsert_match_is_Some.
    apply elem_of_app in Hs as [Hs|Hs].
    + left. rewrite Forall_forall in Hd. now apply Hd.
    + right. apply list_elem_of_singleton in Hs as ->. now rewrite Hnew.
Qed.

Lemma stored_snapshots_in_range_witness :
  Forall (λ s, (1 ≤ s.(s_minute) ≤ 120)%Z ∧ -100 <= s.(s_pressure_index) <= 100)
         (@run exact_lib (minute_inputs 3) init_state).(db).(snapshots_tbl).
Proof.
  apply (@stored_snapshots_in_range exact_lib). apply reachable_run. constructor.
Defined.

Lemma snapshots_reference_matches_witness :
  Forall (λ s, is_Some ((@run exact_lib (minute_inputs 3) init_state)
                          .(db).(matches_tbl) !! s.(s_match_id)))
         (@run exact_lib (minute_inputs 3) init_state).(db).(snapshots_tbl).
Proof.
  apply (@snapshots_reference_matches exact_lib). apply reachable_run. constructor.
Defined.

(** ** Poll cycle: the rows of [matches] *)

Lemma same_description_refl (r : match_row) : same_description r r.
Proof. now repeat split. Qed.

Lemma same_description_trans (r1 r2 r3 : match_row) :
  same_description r1 r2 → same_description r2 r3 → same_description r1 r3.
Proof. unfold same_description. intros (?&?&?&?) (?&?&?&?). repeat split; congruence. Qed.

Lemma process_match_keeps_row `{PyLib}
    (clock : Z) (d : database) (m : feed_match) (d' : database)
    (id : Z) (r : match_row) :
  process_match clock d m = Returns d' →
  d.(matches_tbl) !! id = Some r →
  ∃ r', d'.(matches_tbl) !! id = Some r' ∧ same_description r r'.
Proof.
  intros (utcDate & new & _ & _ & -> & _)%process_match_inv Hr.
  unfold upsert_match.
  destruct (decide (id = f_id m)) as [->|Hne].
  - rewrite Hr, lookup_insert_eq. eexists. split; [reflexivity|]. now repeat split.
  - exists r. split; [|apply same_description_refl].
    destruct (matches_tbl d !! f_id m); now rewrite lookup_insert_ne.
Qed.

Lemma poll_keeps_row `{PyLib} (inp : cycle_input) (st : state) (id : Z) (r : match_row) :
  st.(db).(matches_tbl) !! id = Some r →
  ∃ r', (poll_live_matches inp st).(db).(matches_tbl) !! id = Some r'
        ∧ same_description r r'.
Proof.
  intros Hr. unfold poll_live_matches.
  destruct (fetch_matches inp _) as [api [feed|]]; cbn [db].
  2: { exists r. split; [exact Hr | apply same_description_refl]. }
  apply (persist_matches_ind
           (λ d, ∃ r0, d.(matches_tbl) !! id = Some r0 ∧ same_description r r0)).
  - intros d seen_ids (r0 & Hr0 & Hsame). cbn [matches_tbl].
    rewrite mark_finished_lookup, Hr0. simpl.
    eexists. split; [reflexivity|].
    eapply same_description_trans; [exact Hsame|]. case_decide; now repeat split.
  - intros d m d' (r0 & Hr0 & Hsame) Hstep.
    destruct (process_match_keeps_row (clock_us inp) d m d' id r0 Hstep Hr0)
      as (r1 & Hr1 & Hsame1).
    exists r1. split; [exact Hr1|]. eapply same_description_trans; eassumption.
  - exists r. split; [exact Hr | apply same_description_refl].
Qed.

(** X8.  No cycle deletes a match or rewrites its description: a row of
    [matches] is still there after any number of cycles, with the name,
    the teams and the kickoff date it was first stored with. *)
Theorem match_rows_persist `{PyLib}
    (inputs : list cycle_input) (st : state) (id : Z) (r : match_row) :
  st.(db).(matches_tbl) !! id = Some r →
  ∃ r', (run inputs st).(db).(matches_tbl) !! id = Some r'
        ∧ same_description r r'.
Proof.
  revert st r. induction inputs as [|inp inputs IH]; intros st r Hr.
  - exists r. split; [exact Hr | apply same_description_refl].
  - destruct (poll_keeps_row inp st id r Hr) as (r1 & Hr1 & Hsame1).
    destruct (IH _ r1 Hr1) as (r2 & Hr2 & Hsame2).
    exists r2. split; [exact Hr2|]. eapply same_description_trans; eassumption.
Qed.

Lemma match_rows_persist_witness :
  ∃ r', (@run exact_lib [demo_input; timeout_input; feed_input 1714588290000000 []]
           sample_state).(db).(matches_tbl) !! 2%Z = Some r'
        ∧ same_description (sample_row "IN_PLAY") r'.
Proof. apply (@match_rows_persist exact_lib). reflexivity. Defined.







(** X11.  After a cycle the status is one of "Demo Mode", "Healthy",
    "API Error" and "Connection Error"; it is "Demo Mode" exactly when
    no real key is configured and "Healthy" exactly when, with a real
    key, the response is a 200 whose body decodes; with either error
    status the database is as it was before the cycle. *)
Theorem poll_status `{PyLib} (inp : cycle_input) (st : state) :
  let st' := poll_live_matches inp st in
  let status := st'.(api_status).(a_status) in
  (status = "Demo Mode" ∨ status = "Healthy" ∨ status = "API Error"
   ∨ status = "Connection Error")
  ∧ (status = "Demo Mode" ↔ is_demo inp.(current_key) = true)
  ∧ (status = "Healthy" ↔
       is_demo inp.(current_key) = false
       ∧ ∃ message matches, inp.(http) = Response 200 (JsonDict message matches))
  ∧ (status = "API Error" ∨ status = "Connection Error" → st'.(db) = st.(db)).
Proof.
  intros st' status. unfold status, st', poll_live_matches, fetch_matches.
  destruct (is_demo (current_key inp)) eqn:Hdemo.
  { cbn. split; [auto|]. split; [done|]. split.
    - split; [discriminate | now intros [? _]].
    - intros [|]; discriminate. }
  destruct (http inp) as [e|status_code body]; [|case_decide as Hcode; destruct body].
  all: cbn; (split; [auto|]); (split; [split; discriminate|]); split; try done.
  all: try (split; [discriminate|]; intros (_ & ? & ? & [=]); congruence).
  - split; [intros _|done]. split; [done|]. rewrite Hcode. eauto.
  - intros [|]; discriminate.
Qed.

Lemma poll_status_witness :
  (@poll_live_matches exact_lib timeout_input sample_state).(db) = sample_state.(db).
Proof.
  apply (@poll_status exact_lib timeout_input sample_state). now right.
Defined.

(** ** Scoring of predictions *)

(** X12.  A prediction earns 0, 100, 120, 200, 300 or 320 points: 100
    for the right outcome (120 when it is a draw), 200 for the exact
    score, the two being judged apart, so that an exact score entered
    with another outcome earns 200. *)
Theorem prediction_points_values (p : prediction) (actual_h actual_a : Z) :
  let points := prediction_points p actual_h actual_a in
  let exact := p.(p_predicted_home_goals) = Some actual_h
               ∧ p.(p_predicted_away_goals) = Some actual_a in
  points ∈ [0; 100; 120; 200; 300; 320]%Z
  ∧ (exact ↔ (200 ≤ points)%Z)
  ∧ (points ∈ [120; 320]%Z → actual_h = actual_a)
  ∧ (points ∈ [100; 300]%Z → actual_h ≠ actual_a).
Proof.
  unfold prediction_points.
  destruct (Z.ltb_spec actual_a actual_h); [|destruct (Z.ltb_spec actual_h actual_a)];
    repeat case_decide; try discriminate; cbn;
    rewrite ?elem_of_cons, ?elem_of_nil;
    (split; [tauto|]); (split; [split; [try tauto; lia | try tauto; lia]|]);
    split; intros; try lia; intuition lia.
Qed.

Lemma prediction_points_nonneg (p : prediction) (actual_h actual_a : Z) :
  (0 ≤ prediction_points p actual_h actual_a)%Z.
Proof. unfold prediction_points. repeat case_decide; lia. Qed.

Lemma add_points_add_points (a b : Z) (u : user_row) :
  add_points a (add_points b u) = add_points (b + a) u.
Proof. unfold add_points. cbn. f_equal. lia. Qed.

Lemma add_points_0 (u : user_row) : add_points 0 u = u.
Proof. destruct u. unfold add_points. cbn. f_equal. lia. Qed.

Lemma foldl_score_one_users (l : list joined) (g : game) (user_id : Z) :
  (foldl score_one g l).(users_tbl) !! user_id
  = add_points (points_for_user user_id l) <$> g.(users_tbl) !! user_id.
Proof.
  revert g. induction l as [|j l IH]; intros g.
  - cbn. destruct (users_tbl g !! user_id) as [u|]; cbn; [|reflexivity].
    now rewrite add_points_0.
  - cbn [foldl]. rewrite IH. unfold score_one. cbn [users_tbl points_for_user foldr].
    rewrite lookup_alter. fold (points_for_user user_id l).
    destruct (decide (p_user_id (j_prediction j) = user_id)) as [Hu|Hu].
    + rewrite Hu. destruct (users_tbl g !! user_id) as [u|]; cbn; [|reflexivity].
      now rewrite add_points_add_points.
    + reflexivity.
Qed.

(** The points written for each prediction id by a [SELECT] result. *)
Lemma foldl_score_one_predictions (l : list joined) (g : game) (id : Z) :
  NoDup (j_id <$> l) →
  (foldl score_one g l).(predictions_tbl) !! id
  = match list_find (λ j, j.(j_id) = id) l with
    | Some (_, j) => set_scored (joined_points j) <$> g.(predictions_tbl) !! id
    | None => g.(predictions_tbl) !! id
    end.
Proof.
  revert g. induction l as [|j l IH]; intros g Hnd; [reflexivity|].
  rewrite fmap_cons in Hnd. apply NoDup_cons in Hnd as [Hj Hnd].
  cbn [foldl]. rewrite IH by exact Hnd. cbn [list_find].
  unfold score_one. cbn [predictions_tbl]. rewrite lookup_alter.
  destruct (decide (j_id j = id)) as [Hid|Hid].
  - subst id. destruct (list_find _ l) as [[k j']|] eqn:Hfind; [|reflexivity].
    exfalso. apply list_find_Some in Hfind as (Hk & Hj' & _).
    apply Hj. rewrite <- Hj'. apply list_elem_of_fmap_2.
    now apply list_elem_of_lookup_2 in Hk.
  - destruct (list_find _ l) as [[k j']|]; reflexivity.
Qed.

Lemma join_finished_spec (ms : gmap Z match_row) (id : Z) (p : prediction) (j : joined) :
  join_finished ms id p = Some j ↔
  p.(p_status) = "PENDING"
  ∧ ∃ match_id m,
      p.(p_match_id) = SqlInteger match_id ∧ ms !! match_id = Some m
      ∧ m.(m_status) = "FINISHED"
      ∧ j = {| j_id := id; j_prediction := p;
               j_actual_h := m.(m_score_home); j_actual_a := m.(m_score_away) |}.
Proof.
  unfold join_finished. split.
  - case_decide as Hst; [|discriminate].
    destruct (p_match_id p) as [|match_id|]; [discriminate| |discriminate].
    destruct (ms !! match_id) as [m|] eqn:Hm; [|discriminate].
    case_decide as Hfin; [|discriminate]. intros [= <-]. eauto 10.
  - intros (Hst & match_id & m & -> & -> & Hfin & ->).
    now rewrite !decide_True.
Qed.

Lemma join_finished_id (ms : gmap Z match_row) (id : Z) (p : prediction) (j : joined) :
  join_finished ms id p = Some j → j.(j_id) = id ∧ j.(j_prediction) = p.
Proof. intros (_ & ? & ? & _ & _ & _ & ->)%join_finished_spec. now split. Qed.

Lemma elem_of_pending_finished (ms : gmap Z match_row) (ps : gmap Z prediction) (j : joined) :
  j ∈ pending_finished ms ps ↔
  ∃ id p, ps !! id = Some p ∧ join_finished ms id p = Some j.
Proof.
  unfold pending_finished. rewrite list_elem_of_omap. split.
  - intros ([id p] & Hin & Hj). exists id, p. split; [|exact Hj].
    now apply elem_of_map_to_list.
  - intros (id & p & Hp & Hj). exists (id, p). split; [|exact Hj].
    now apply elem_of_map_to_list.
Qed.

Lemma NoDup_pending_finished (ms : gmap Z match_row) (ps : gmap Z prediction) :
  NoDup (j_id <$> pending_finished ms ps).
Proof.
  unfold pending_finished. pose proof (NoDup_fst_map_to_list ps) as Hnd.
  induction (map_to_list ps) as [|[id p] l IH]; [constructor|].
  rewrite fmap_cons in Hnd. apply NoDup_cons in Hnd as [Hid Hnd].
  cbn [omap list_omap fst snd].
  destruct (join_finished ms id p) as [j|] eqn:Hj; [|now apply IH].
  rewrite fmap_cons. apply NoDup_cons. split; [|now apply IH].
  apply join_finished_id in Hj as [-> _].
  intros (j' & Hid' & Hin)%list_elem_of_fmap.
  apply list_elem_of_omap in Hin as ([id' p'] & Hin & Hj').
  apply join_finished_id in Hj' as [Hj' _]. cbn in Hj'.
  apply Hid. rewrite Hid', Hj'. now apply (list_elem_of_fmap_2 fst _ (id', p')).
Qed.

Lemma list_find_pending_finished
    (ms : gmap Z match_row) (ps : gmap Z prediction) (id : Z) (p : prediction) :
  ps !! id = Some p →
  snd <$> list_find (λ j, j.(j_id) = id) (pending_finished ms ps)
  = join_finished ms id p.
Proof.
  intros Hp. destruct (list_find _ _) as [[k j]|] eqn:Hfind; cbn.
  - apply list_find_Some in Hfind as (Hk & Hid & _).
    apply list_elem_of_lookup_2, elem_of_pending_finished in Hk
      as (id' & p' & Hp' & Hj).
    destruct (join_finished_id _ _ _ _ Hj) as [Hid' _].
    assert (id' = id) as -> by congruence.
    assert (p' = p) as -> by congruence. now symmetry.
  - destruct (join_finished ms id p) as [j|] eqn:Hj; [|reflexivity]. exfalso.
    apply list_find_None in Hfind. rewrite Forall_forall in Hfind.
    apply (Hfind j).
    + apply elem_of_pending_finished. eauto.
    + now apply join_finished_id in Hj.
Qed.

(** What [score_predictions] leaves under each prediction id. *)
Lemma score_predictions_lookup (ms : gmap Z match_row) (g : game) (id : Z) :
  (score_predictions ms g).(predictions_tbl) !! id
  = (λ p, match join_finished ms id p with
          | Some j => set_scored (prediction_points p j.(j_actual_h) j.(j_actual_a)) p
          | None => p
          end) <$> g.(predictions_tbl) !! id.
Proof.
  unfold score_predictions.
  rewrite foldl_score_one_predictions by apply NoDup_pending_finished.
  destruct (predictions_tbl g !! id) as [p|] eqn:Hp.
  - pose proof (list_find_pending_finished ms _ id p Hp) as Hfind.
    cbn [fmap option_fmap option_map].
    destruct (list_find _ _) as [[k j]|]; cbn in Hfind; rewrite <- Hfind;
      [|reflexivity].
    symmetry in Hfind. apply join_finished_id in Hfind as [_ Hj].
    unfold joined_points. now rewrite Hj.
  - now destruct (list_find _ _) as [[k j]|].
Qed.

(** X13.  [score_predictions] adds and removes no prediction.  A
    prediction that is PENDING and whose match is stored as FINISHED
    gets status SCORED and the points its row earns against the stored
    score; a prediction that is not PENDING, or whose match is not
    stored as FINISHED, is left as it is. *)
Theorem score_predictions_rows (ms : gmap Z match_row) (g : game) (id : Z) :
  let ps := g.(predictions_tbl) in
  let ps' := (score_predictions ms g).(predictions_tbl) in
  (ps' !! id = None ↔ ps !! id = None)
  ∧ (∀ p match_id m,
       ps !! id = Some p → p.(p_status) = "PENDING" →
       p.(p_match_id) = SqlInteger match_id → ms !! match_id = Some m →
       m.(m_status) = "FINISHED" →
       ps' !! id
       = Some (set_scored (prediction_points p m.(m_score_home) m.(m_score_away)) p))
  ∧ (∀ p,
       ps !! id = Some p →
       (p.(p_status) ≠ "PENDING"
        ∨ ∀ match_id m, p.(p_match_id) = SqlInteger match_id → ms !! match_id = Some m →
                        m.(m_status) ≠ "FINISHED") →
       ps' !! id = Some p).
Proof.
  intros ps ps'. unfold ps', ps. rewrite score_predictions_lookup.
  split; [apply fmap_None|]. split.
  - intros p match_id m -> Hst Hmid Hm Hfin. cbn.
    assert (Hj : join_finished ms id p
                 = Some {| j_id := id; j_prediction := p;
                           j_actual_h := m.(m_score_home);
                           j_actual_a := m.(m_score_away) |}).
    { apply join_finished_spec. eauto 10. }
    now rewrite Hj.
  - intros p -> Hnot. cbn.
    destruct (join_finished ms id p) as [j|] eqn:Hj; [|reflexivity]. exfalso.
    apply join_finished_spec in Hj as (Hst & match_id & m & Hmid & Hm & Hfin & _).
    destruct Hnot as [Hnot|Hnot]; [done|]. exact (Hnot match_id m Hmid Hm Hfin).
Qed.

Lemma points_for_user_nonneg (user_id : Z) (l : list joined) :
  (0 ≤ points_for_user user_id l)%Z.
Proof.
  induction l as [|j l IH]; cbn; [lia|]. fold (points_for_user user_id l).
  case_decide; [|exact IH].
  pose proof (prediction_points_nonneg (j_prediction j) (j_actual_h j) (j_actual_a j)).
  unfold joined_points. lia.
Qed.

(** X14.  [score_predictions] adds and removes no user and changes
    nothing of a user but the points, which grow by the points of the
    user's predictions scored in this run and so never shrink. *)
Theorem score_predictions_users (ms : gmap Z match_row) (g : game) (user_id : Z) :
  let earned := points_for_user user_id (pending_finished ms g.(predictions_tbl)) in
  (0 ≤ earned)%Z
  ∧ (score_predictions ms g).(users_tbl) !! user_id
    = add_points earned <$> g.(users_tbl) !! user_id.
Proof.
  intros earned. split; [apply points_for_user_nonneg|].
  unfold score_predictions. apply foldl_score_one_users.
Qed.

Lemma pending_finished_nil (ms : gmap Z match_row) (ps : gmap Z prediction) :
  (∀ id p, ps !! id = Some p → join_finished ms id p = None) →
  pending_finished ms ps = [].
Proof.
  intros Hnone. destruct (pending_finished ms ps) as [|j l] eqn:E; [reflexivity|].
  assert (Hj : j ∈ pending_finished ms ps) by (rewrite E; left).
  apply elem_of_pending_finished in Hj as (id & p & Hp & Hj).
  rewrite (Hnone id p Hp) in Hj. discriminate.
Qed.

(** X15.  Scoring is idempotent: a second run against the same
    [matches] table changes nothing, so no prediction is paid twice. *)
Theorem score_predictions_idempotent (ms : gmap Z match_row) (g : game) :
  score_predictions ms (score_predictions ms g) = score_predictions ms g.
Proof.
  unfold score_predictions at 1.
  rewrite pending_finished_nil; [reflexivity|].
  intros id p' Hp'. rewrite score_predictions_lookup in Hp'.
  destruct (predictions_tbl g !! id) as [p|]; [|discriminate].
  cbn in Hp'. injection Hp' as <-.
  destruct (join_finished ms id p) as [j|] eqn:Hj; [|exact Hj].
  unfold join_finished. cbn. now rewrite decide_False.
Qed.

Lemma score_predictions_rows_witness :
  (score_predictions (<[2%Z := sample_row "FINISHED"]> ∅) sample_game)
    .(predictions_tbl) !! 1%Z
  = Some (set_scored 300 (sample_prediction 1 "HOME" 1 0 "PENDING")).
Proof.
  destruct (score_predictions_rows (<[2%Z := sample_row "FINISHED"]> ∅) sample_game 1)
    as (_ & Hscored & _).
  exact (Hscored (sample_prediction 1 "HOME" 1 0 "PENDING") 2%Z (sample_row "FINISHED")
           eq_refl eq_refl eq_refl eq_refl eq_refl).
Defined.

Lemma score_predictions_users_witness :
  (score_predictions (<[2%Z := sample_row "FINISHED"]> ∅) sample_game)
    .(users_tbl) !! 1%Z
  = Some {| u_username := "ada"; u_referral_code := "AAAA1111";
            u_referred_by_code := None; u_points := 350 |}.
Proof.
  destruct (score_predictions_users (<[2%Z := sample_row "FINISHED"]> ∅) sample_game 1)
    as [_ ->].
  reflexivity.
Defined.

(** ** Scoring: the order of the rows *)

Lemma same_id_same_joined (l : list joined) (a b : joined) :
  NoDup (j_id <$> l) → a ∈ l → b ∈ l → a.(j_id) = b.(j_id) → a = b.
Proof.
  intros Hnd Ha Hb Hid.
  apply list_elem_of_lookup in Ha as [i Hi]. apply list_elem_of_lookup in Hb as [k Hk].
  assert (i = k) as ->.
  { eapply (NoDup_lookup _ i k (j_id a) Hnd); rewrite list_lookup_fmap.
    - now rewrite Hi.
    - now rewrite Hk, Hid. }
  congruence.
Qed.

Lemma list_find_by_id (l : list joined) (id : Z) (j : joined) :
  NoDup (j_id <$> l) →
  snd <$> list_find (λ j, j.(j_id) = id) l = Some j ↔ j ∈ l ∧ j.(j_id) = id.
Proof.
  intros Hnd. split.
  - destruct (list_find _ l) as [[k j']|] eqn:Hfind; [|discriminate].
    intros [= <-]. apply list_find_Some in Hfind as (Hk & Hid & _).
    split; [|exact Hid]. now apply list_elem_of_lookup_2 in Hk.
  - intros [Hj Hid].
    destruct (list_find _ l) as [[k j']|] eqn:Hfind; cbn.
    + apply list_find_Some in Hfind as (Hk & Hid' & _).
      apply list_elem_of_lookup_2 in Hk. f_equal.
      apply (same_id_same_joined l); [assumption..|congruence].
    + apply list_find_None in Hfind. rewrite Forall_forall in Hfind.
      now destruct (Hfind j Hj).
Qed.

Lemma list_find_by_id_perm (l l' : list joined) (id : Z) :
  NoDup (j_id <$> l) → l ≡ₚ l' →
  snd <$> list_find (λ j, j.(j_id) = id) l
  = snd <$> list_find (λ j, j.(j_id) = id) l'.
Proof.
  intros Hnd Hperm.
  assert (Hnd' : NoDup (j_id <$> l')) by now rewrite <- Hperm.
  apply option_eq. intros j. rewrite !list_find_by_id by assumption.
  now rewrite Hperm.
Qed.

Lemma points_for_user_perm (user_id : Z) (l l' : list joined) :
  l ≡ₚ l' → points_for_user user_id l = points_for_user user_id l'.
Proof.
  induction 1 as [|j l l' _ IH|j1 j2 l|l1 l2 l3 _ IH1 _ IH2]; cbn.
  - reflexivity.
  - fold (points_for_user user_id l) (points_for_user user_id l'). now rewrite IH.
  - repeat case_decide; lia.
  - congruence.
Qed.

(** X16.  The result of scoring does not depend on the order in which
    the [SELECT] returns its rows. *)
Theorem score_order_irrelevant (ms : gmap Z match_row) (g : game) (l : list joined) :
  l ≡ₚ pending_finished ms g.(predictions_tbl) →
  foldl score_one g l = score_predictions ms g.
Proof.
  intros Hperm. unfold score_predictions.
  set (l0 := pending_finished ms g.(predictions_tbl)) in *.
  assert (Hnd0 : NoDup (j_id <$> l0)) by apply NoDup_pending_finished.
  assert (Hnd : NoDup (j_id <$> l)) by now rewrite Hperm.
  assert (Hu : (foldl score_one g l).(users_tbl) = (foldl score_one g l0).(users_tbl)).
  { apply map_eq. intros u. rewrite !foldl_score_one_users.
    now rewrite (points_for_user_perm u l l0 Hperm). }
  assert (Hp : (foldl score_one g l).(predictions_tbl)
               = (foldl score_one g l0).(predictions_tbl)).
  { apply map_eq. intros id. rewrite !foldl_score_one_predictions by assumption.
    pose proof (list_find_by_id_perm l l0 id Hnd Hperm) as Hfind.
    destruct (list_find _ l) as [[k j]|], (list_find _ l0) as [[k0 j0]|];
      cbn in Hfind; try discriminate; [|reflexivity].
    now injection Hfind as ->. }
  destruct (foldl score_one g l), (foldl score_one g l0). cbn in Hu, Hp.
  now subst.
Qed.

Lemma score_order_irrelevant_witness :
  foldl score_one sample_game
    (reverse (pending_finished (<[2%Z := sample_row "FINISHED"]> ∅)
                sample_game.(predictions_tbl)))
  = score_predictions (<[2%Z := sample_row "FINISHED"]> ∅) sample_game.
Proof. apply score_order_irrelevant. apply reverse_Permutation. Defined.

(** ** The cycle with its scoring *)



(** ** Followed matches: the cookie *)

Lemma split_nonempty (sep : ascii) (s : string) : Cookie.split sep s ≠ [].
Proof.
  destruct s as [|c s]; cbn [Cookie.split]; [discriminate|].
  case_decide; [discriminate|]. now destruct (Cookie.split sep s).
Qed.

Lemma split_no_sep (sep : ascii) (w : string) :
  Cookie.has_char sep w = false → Cookie.split sep w = [w].
Proof.
  induction w as [|c w IH]; cbn [Cookie.split Cookie.has_char]; [reflexivity|].
  intros [Hc Hw]%orb_false_iff. apply bool_decide_eq_false in Hc.
  case_decide; [done|]. now rewrite IH.
Qed.

Lemma split_app (sep : ascii) (w rest : string) :
  Cookie.has_char sep w = false →
  Cookie.split sep (w +:+ String sep rest) = w :: Cookie.split sep rest.
Proof.
  induction w as [|c w IH]; cbn [Cookie.has_char].
  - intros _. change (EmptyString +:+ String sep rest) with (String sep rest).
    cbn [Cookie.split]. now case_decide.
  - intros [Hc Hw]%orb_false_iff. apply bool_decide_eq_false in Hc.
    change (String c w +:+ String sep rest) with (String c (w +:+ String sep rest)).
    cbn [Cookie.split]. case_decide; [done|]. now rewrite IH.
Qed.

Lemma split_join (sep : ascii) (l : list string) :
  l ≠ [] → Forall (λ w, Cookie.has_char sep w = false) l →
  Cookie.split sep (Str.join (String sep EmptyString) l) = l.
Proof.
  intros Hne Hl. induction Hl as [|w l Hw Hl IH]; [done|].
  destruct l as [|w' l].
  - cbn. now apply split_no_sep.
  - change (Str.join (String sep EmptyString) (w :: w' :: l))
      with (w +:+ String sep EmptyString +:+ Str.join (String sep EmptyString) (w' :: l)).
    change (String sep EmptyString +:+ ?r) with (String sep r).
    rewrite split_app by exact Hw. now rewrite IH.
Qed.

Lemma split_entries (sep : ascii) (s : string) :
  Forall (λ w, Cookie.has_char sep w = false) (Cookie.split sep s).
Proof.
  induction s as [|c s IH]; cbn [Cookie.split]; [now repeat constructor|].
  case_decide as Hc; [now constructor|].
  destruct (Cookie.split sep s) as [|w ws].
  - constructor; [|constructor]. cbn [Cookie.has_char].
    now rewrite bool_decide_eq_false_2.
  - inversion IH as [|? ? Hw Hws]; subst. constructor; [|exact Hws].
    cbn [Cookie.has_char]. rewrite Hw. now rewrite bool_decide_eq_false_2.
Qed.

Lemma followed_list_entries (followed_raw : string) :
  Forall Cookie.entry (followed_list followed_raw).
Proof.
  unfold followed_list. apply Forall_forall. intros w [Hne Hw]%list_elem_of_filter.
  split; [exact Hne|].
  pose proof (split_entries ","%char followed_raw) as H. rewrite Forall_forall in H.
  now apply H.
Qed.

Lemma followed_list_of_join (l : list string) :
  Forall Cookie.entry l → followed_list (Str.join "," l) = l.
Proof.
  intros Hl. unfold followed_list. destruct l as [|w l]; [reflexivity|].
  rewrite split_join; [| discriminate |].
  - apply filter_all. eapply Forall_impl; [exact Hl|]. now intros ? [? _].
  - eapply Forall_impl; [exact Hl|]. now intros ? [_ ?].
Qed.

(** X18.  Writing a list of entries to the cookie and reading it back
    gives the same list, provided no entry is empty or holds a comma
    (the empty list is written as the empty string).  What is read from
    any cookie value is such a list: writing it back and reading again
    changes nothing. *)
Theorem followed_list_join (l : list string) (followed_raw : string) :
  (Forall Cookie.entry l → followed_list (Str.join "," l) = l)
  ∧ Forall Cookie.entry (followed_list followed_raw)
  ∧ followed_list (Str.join "," (followed_list followed_raw))
    = followed_list followed_raw.
Proof.
  split; [apply followed_list_of_join|].
  split; [apply followed_list_entries|].
  apply followed_list_of_join, followed_list_entries.
Qed.

Lemma followed_list_join_witness :
  followed_list (Str.join "," ["12"; "7"; "1001"]) = ["12"; "7"; "1001"].
Proof.
  apply (followed_list_join ["12"; "7"; "1001"] EmptyString).
  repeat constructor; discriminate.
Defined.

Lemma pretty_N_char_no_comma (x : N) : pretty_N_char x ≠ ","%char.
Proof. unfold pretty_N_char. repeat case_match; discriminate. Qed.

Lemma pretty_N_go_entry (x : N) (s : string) :
  Cookie.entry s → Cookie.entry (pretty_N_go x s).
Proof.
  revert s. induction (N.lt_wf_0 x) as [x _ IH]; intros s Hs.
  assert (x = 0 ∨ 0 < x)%N as [->|Hx] by lia.
  - now rewrite pretty_N_go_0.
  - rewrite pretty_N_go_step by exact Hx. apply IH.
    + now apply N.div_lt.
    + split; [discriminate|]. cbn [Cookie.has_char].
      rewrite bool_decide_eq_false_2 by apply pretty_N_char_no_comma.
      now destruct Hs.
Qed.

Lemma pretty_N_entry (n : N) : Cookie.entry (pretty n).
Proof.
  unfold pretty, pretty_N. case_decide as Hn; [split; [discriminate | reflexivity]|].
  rewrite pretty_N_go_step by lia. apply pretty_N_go_entry.
  split; [discriminate|]. cbn [Cookie.has_char].
  now rewrite bool_decide_eq_false_2 by apply pretty_N_char_no_comma.
Qed.

Lemma remove_sublist (x : string) (l : list string) : Cookie.remove x l `sublist_of` l.
Proof.
  induction l as [|y l IH]; cbn [Cookie.remove]; [constructor|].
  case_decide; [now apply sublist_cons | now apply sublist_skip].
Qed.

Lemma elem_of_remove (x y : string) (l : list string) :
  NoDup l → y ∈ Cookie.remove x l ↔ y ∈ l ∧ y ≠ x.
Proof.
  induction 1 as [|z l Hz Hnd IH]; cbn [Cookie.remove].
  - rewrite elem_of_nil. tauto.
  - case_decide as Hzx.
    + subst z. rewrite elem_of_cons. split.
      * intros Hy. split; [now right|]. now intros ->.
      * intros [[->|Hy] Hne]; done.
    + rewrite !elem_of_cons, IH. split.
      * intros [->|[Hy Hne]]; [split; [now left | done] | split; [now right | done]].
      * intros [[->|Hy] Hne]; [now left | right; now split].
Qed.

(** The cookie [toggle_follow] writes reads back as the list it built. *)
Lemma followed_list_toggle (followed_raw : string) (match_id : N) :
  followed_list (toggle_follow followed_raw match_id)
  = if decide (pretty match_id ∈ followed_list followed_raw)
    then Cookie.remove (pretty match_id) (followed_list followed_raw)
    else followed_list followed_raw ++ [pretty match_id].
Proof.
  unfold toggle_follow.
  pose proof (followed_list_entries followed_raw) as Hl.
  rewrite followed_list_of_join; [reflexivity|]. case_decide.
  - apply Forall_forall. intros w Hw. rewrite Forall_forall in Hl. apply Hl.
    eapply elem_of_sublist; [exact Hw | apply remove_sublist].
  - apply Forall_app. split; [exact Hl|]. constructor; [|constructor].
    apply pretty_N_entry.
Qed.

Lemma remove_app_last (x : string) (l : list string) :
  x ∉ l → Cookie.remove x (l ++ [x]) = l.
Proof.
  induction l as [|y l IH]; intros Hx; cbn [Cookie.remove app].
  - now rewrite decide_True.
  - apply not_elem_of_cons in Hx as [Hne Hx].
    rewrite decide_False by congruence. now rewrite IH.
Qed.

Lemma is_followed_list (followed_raw : string) (match_id : N) :
  is_followed followed_raw match_id
  = bool_decide (pretty match_id ∈ followed_list followed_raw).
Proof.
  unfold is_followed, followed_list. apply bool_decide_ext.
  rewrite list_elem_of_filter. split; [|now intros [_ ?]].
  intros Hin. split; [|exact Hin]. apply pretty_N_entry.
Qed.

Lemma toggle_follow_NoDup (followed_raw : string) (match_id : N) :
  NoDup (followed_list followed_raw) →
  NoDup (followed_list (toggle_follow followed_raw match_id)).
Proof.
  intros Hnd. rewrite followed_list_toggle. case_decide as Hin.
  - eapply sublist_NoDup; [exact Hnd | apply remove_sublist].
  - apply NoDup_app. split; [exact Hnd|]. split; [|apply NoDup_singleton].
    intros w Hw ->%list_elem_of_singleton. done.
Qed.

Lemma is_followed_toggle (followed_raw : string) (match_id id : N) :
  NoDup (followed_list followed_raw) →
  is_followed (toggle_follow followed_raw match_id) id
  = xorb (is_followed followed_raw id) (bool_decide (id = match_id)).
Proof.
  intros Hnd. rewrite !is_followed_list, followed_list_toggle.
  destruct (decide (id = match_id)) as [->|Hne].
  - rewrite (bool_decide_eq_true_2 (match_id = match_id)) by reflexivity.
    case_decide as Hin.
    + rewrite (bool_decide_eq_true_2 _ Hin). cbn.
      apply bool_decide_eq_false_2. rewrite elem_of_remove by exact Hnd.
      now intros [_ ?].
    + rewrite (bool_decide_eq_false_2 _ Hin). cbn.
      apply bool_decide_eq_true_2. apply elem_of_app. right. left.
  - rewrite (bool_decide_eq_false_2 (id = match_id)) by exact Hne.
    rewrite xorb_false_r. apply bool_decide_ext.
    assert (Hp : pretty id ≠ pretty match_id) by (intros ?%(inj pretty); done).
    case_decide as Hin.
    + rewrite elem_of_remove by exact Hnd. tauto.
    + rewrite elem_of_app, list_elem_of_singleton. tauto.
Qed.

(** X19.  One visit to [toggle_follow] writes a cookie that reads back
    as the list the handler built: the old list without the first
    occurrence of the id when the id was in it, and with the id at its
    end otherwise.  A match that was not followed is followed after one
    visit, and a second visit restores the list. *)
Theorem toggle_follow_once (followed_raw : string) (match_id : N) :
  let l := followed_list followed_raw in
  let once := toggle_follow followed_raw match_id in
  followed_list once
  = (if decide (pretty match_id ∈ l)
     then Cookie.remove (pretty match_id) l else l ++ [pretty match_id])
  ∧ (is_followed followed_raw match_id = false →
     is_followed once match_id = true
     ∧ followed_list (toggle_follow once match_id) = l).
Proof.
  intros l once. split; [apply followed_list_toggle|].
  rewrite is_followed_list. intros Hnot%bool_decide_eq_false. fold l in Hnot.
  assert (Honce : followed_list once = l ++ [pretty match_id]).
  { unfold once. rewrite followed_list_toggle. fold l. now rewrite decide_False. }
  assert (Hin : pretty match_id ∈ followed_list once).
  { rewrite Honce. apply elem_of_app. right. left. }
  split.
  - rewrite is_followed_list. now apply bool_decide_eq_true_2.
  - rewrite followed_list_toggle, decide_True by exact Hin.
    rewrite Honce. now apply remove_app_last.
Qed.

Lemma toggle_follow_once_witness :
  is_followed (toggle_follow "12,7" 1001) 1001 = true
  ∧ followed_list (toggle_follow (toggle_follow "12,7" 1001) 1001) = ["12"; "7"].
Proof. apply (toggle_follow_once "12,7" 1001). reflexivity. Defined.

(** X20.  Starting from a cookie without repeated entries (the unset
    cookie is one), after any sequence of visits to [toggle_follow] a
    match is shown as followed exactly when it was followed at the
    start and toggled an even number of times, or not followed and
    toggled an odd number of times. *)
Theorem toggle_follow_parity (followed_raw : string) (visits : list N) (id : N) :
  NoDup (followed_list followed_raw) →
  is_followed (foldl toggle_follow followed_raw visits) id
  = xorb (is_followed followed_raw id)
         (Nat.odd (length (filter (λ v, v = id) visits))).
Proof.
  revert followed_raw. induction visits as [|v visits IH]; intros raw Hnd.
  - cbn. now rewrite xorb_false_r.
  - cbn [foldl]. rewrite IH by now apply toggle_follow_NoDup.
    rewrite is_followed_toggle by exact Hnd. rewrite filter_cons.
    destruct (decide (v = id)) as [->|Hne].
    + rewrite (bool_decide_eq_true_2 (id = id)) by reflexivity.
      cbn [length]. rewrite Nat.odd_succ, <- Nat.negb_odd.
      now destruct (is_followed raw id), (Nat.odd _).
    + rewrite (bool_decide_eq_false_2 (id = v)) by congruence.
      now rewrite xorb_false_r.
Qed.

Lemma toggle_follow_parity_witness :
  is_followed (foldl toggle_follow EmptyString [7; 12; 7; 7; 1001]%N) 7%N = true.
Proof.
  rewrite (toggle_follow_parity EmptyString [7; 12; 7; 7; 1001]%N 7%N).
  - reflexivity.
  - constructor.
Defined.

(** ** Match dashboard *)

#[global] Instance older_or_equal_trans : Transitive older_or_equal.
Proof. unfold older_or_equal. intros a b c ? ?. lia. Qed.

#[global] Instance older_or_equal_total : Total older_or_equal.
Proof. unfold older_or_equal. intros a b. lia. Qed.


#[global] Instance asc_order_trans : Transitive asc_order.
Proof. unfold asc_order. intros a b c ? ?. lia. Qed.

#[global] Instance asc_order_total : Total asc_order.
Proof. unfold asc_order. intros a b. lia. Qed.








(** ** Live page *)

#[global] Instance updated_later_or_equal_trans : Transitive updated_later_or_equal.
Proof. unfold updated_later_or_equal. intros a b c ? ?. lia. Qed.

#[global] Instance updated_later_or_equal_total : Total updated_later_or_equal.
Proof. unfold updated_later_or_equal. intros a b. lia. Qed.




(** ** Registration and predictions *)

Section select.
Context {A : Type} (P : Z * A → Prop) `{!∀ x, Decision (P x)}.

Lemma select_Some (m : gmap Z A) (i : Z) (x : A) :
  head (filter P (map_to_list m)) = Some (i, x) → m !! i = Some x ∧ P (i, x).
Proof.
  intros Hh. apply head_Some_elem_of, list_elem_of_filter in Hh as [HP Hin].
  now apply elem_of_map_to_list in Hin.
Qed.

Lemma select_None (m : gmap Z A) :
  head (filter P (map_to_list m)) = None ↔ ∀ i x, m !! i = Some x → ¬ P (i, x).
Proof.
  rewrite head_None. split.
  - intros Hnil i x Hix HP.
    apply (filter_nil_not_elem_of _ _ (i, x) Hnil HP).
    now apply elem_of_map_to_list.
  - intros Hno. destruct (filter _ _) as [|[i x] l] eqn:Hf; [reflexivity|].
    assert (Hin : (i, x) ∈ filter P (map_to_list m)) by (rewrite Hf; left).
    apply list_elem_of_filter in Hin as [HP Hin].
    apply elem_of_map_to_list in Hin. now destruct (Hno i x Hin).
Qed.

Lemma select_unique (m : gmap Z A) (i : Z) (x : A) :
  m !! i = Some x → P (i, x) →
  (∀ j y, m !! j = Some y → P (j, y) → j = i) →
  head (filter P (map_to_list m)) = Some (i, x).
Proof.
  intros Hix HP Huniq.
  destruct (head _) as [[j y]|] eqn:Hh.
  - apply select_Some in Hh as [Hjy HPy].
    pose proof (Huniq j y Hjy HPy) as ->. congruence.
  - rewrite select_None in Hh. now destruct (Hh i x Hix).
Qed.

End select.

Lemma user_by_username_Some (us : gmap Z user_row) (name : string) (id : Z) (u : user_row) :
  user_by_username us name = Some (id, u) → us !! id = Some u ∧ u.(u_username) = name.
Proof. unfold user_by_username. apply select_Some. Qed.

Lemma user_by_username_None (us : gmap Z user_row) (name : string) :
  user_by_username us name = None ↔ ∀ id u, us !! id = Some u → u.(u_username) ≠ name.
Proof. unfold user_by_username. apply select_None. Qed.

Lemma user_by_referral_code_Some
    (us : gmap Z user_row) (code : string) (id : Z) (u : user_row) :
  user_by_referral_code us code = Some (id, u) →
  us !! id = Some u ∧ u.(u_referral_code) = code.
Proof. unfold user_by_referral_code. apply select_Some. Qed.

Lemma user_by_referral_code_None (us : gmap Z user_row) (code : string) :
  user_by_referral_code us code = None ↔
  ∀ id u, us !! id = Some u → u.(u_referral_code) ≠ code.
Proof. unfold user_by_referral_code. apply select_None. Qed.

Lemma user_by_username_wf (s : store) (id : Z) (u : user_row) :
  store_wf s → s.(tables).(users_tbl) !! id = Some u →
  user_by_username s.(tables).(users_tbl) u.(u_username) = Some (id, u).
Proof.
  intros Hwf Hu. unfold user_by_username.
  apply select_unique;
    [exact Hu|reflexivity|].
  intros j y Hy Hname. exact (wf_username_unique s Hwf j id y u Hy Hu Hname).
Qed.

Lemma user_by_referral_code_wf (s : store) (id : Z) (u : user_row) :
  store_wf s → s.(tables).(users_tbl) !! id = Some u →
  user_by_referral_code s.(tables).(users_tbl) u.(u_referral_code) = Some (id, u).
Proof.
  intros Hwf Hu. unfold user_by_referral_code.
  apply select_unique;
    [exact Hu|reflexivity|].
  intros j y Hy Hcode. exact (wf_referral_code_unique s Hwf j id y u Hy Hu Hcode).
Qed.

Lemma init_store_wf : store_wf init_store.
Proof.
  split; cbn; intros *; try (rewrite lookup_empty; discriminate).
  intros Hr. now apply elem_of_nil in Hr.
Qed.

(** The row a registration inserts. *)
Lemma insert_user_Some (s s1 : store) (name code : string) (referred_by : option string) :
  insert_user s name code referred_by = Some s1 ↔
  user_by_username s.(tables).(users_tbl) name = None
  ∧ user_by_referral_code s.(tables).(users_tbl) code = None
  ∧ s1 = {| tables :=
              {| users_tbl :=
                   <[(s.(users_seq) + 1)%Z :=
                       {| u_username := name; u_referral_code := code;
                          u_referred_by_code := referred_by; u_points := 0 |}]>
                     s.(tables).(users_tbl);
                 predictions_tbl := s.(tables).(predictions_tbl) |};
            users_seq := (s.(users_seq) + 1)%Z;
            predictions_seq := s.(predictions_seq);
            referrals_tbl := s.(referrals_tbl);
            referrals_seq := s.(referrals_seq) |}.
Proof.
  unfold insert_user. cbv zeta. case_decide as Hd.
  - split; [discriminate|]. intros (Hn & Hc & _).
    rewrite Hn, Hc in Hd. destruct Hd as [[? [=]]|[? [=]]].
  - split.
    + intros [= <-]. repeat split.
      * destruct (user_by_username _ _) eqn:E; [|reflexivity].
        destruct Hd. left. eauto.
      * destruct (user_by_referral_code _ _) eqn:E; [|reflexivity].
        destruct Hd. right. eauto.
    + now intros (_ & _ & ->).
Qed.

Lemma insert_user_None (s : store) (name code : string) (referred_by : option string) :
  insert_user s name code referred_by = None ↔
  is_Some (user_by_username s.(tables).(users_tbl) name)
  ∨ is_Some (user_by_referral_code s.(tables).(users_tbl) code).
Proof.
  unfold insert_user. cbv zeta. case_decide as Hd; [tauto|].
  split; [discriminate|]. intros; contradiction.
Qed.

Lemma fresh_user_id (s : store) :
  store_wf s → s.(tables).(users_tbl) !! (s.(users_seq) + 1)%Z = None.
Proof.
  intros Hwf. destruct (_ !! _) as [u|] eqn:Hu; [|reflexivity].
  apply (wf_users_seq s Hwf) in Hu. lia.
Qed.

Lemma fresh_prediction_id (s : store) :
  store_wf s → s.(tables).(predictions_tbl) !! (s.(predictions_seq) + 1)%Z = None.
Proof.
  intros Hwf. destruct (_ !! _) as [p|] eqn:Hp; [|reflexivity].
  apply (wf_predictions_seq s Hwf) in Hp. lia.
Qed.

Lemma insert_user_wf (s s1 : store) (name code : string) (referred_by : option string) :
  store_wf s → insert_user s name code referred_by = Some s1 → store_wf s1.
Proof.
  intros Hwf Hins. pose proof (fresh_user_id s Hwf) as Hfresh.
  apply insert_user_Some in Hins as (Hname & Hcode & ->).
  rewrite user_by_username_None in Hname.
  rewrite user_by_referral_code_None in Hcode.
  split; cbn [tables users_tbl predictions_tbl users_seq predictions_seq
              referrals_tbl referrals_seq].
  - intros id u. destruct (decide (id = (users_seq s + 1)%Z)) as [->|Hne].
    + intros _. lia.
    + rewrite lookup_insert_ne by congruence. intros Hu.
      apply (wf_users_seq s Hwf) in Hu. lia.
  - intros id id' u u'.
    destruct (decide (id = (users_seq s + 1)%Z)) as [->|Hne],
             (decide (id' = (users_seq s + 1)%Z)) as [->|Hne'];
      rewrite ?lookup_insert_eq, ?lookup_insert_ne by congruence.
    + reflexivity.
    + intros [= <-] Hu' Heq. cbn in Heq. now destruct (Hname id' u' Hu').
    + intros Hu [= <-] Heq. cbn in Heq. now destruct (Hname id u Hu).
    + apply (wf_username_unique s Hwf).
  - intros id id' u u'.
    destruct (decide (id = (users_seq s + 1)%Z)) as [->|Hne],
             (decide (id' = (users_seq s + 1)%Z)) as [->|Hne'];
      rewrite ?lookup_insert_eq, ?lookup_insert_ne by congruence.
    + reflexivity.
    + intros [= <-] Hu' Heq. cbn in Heq. now destruct (Hcode id' u' Hu').
    + intros Hu [= <-] Heq. cbn in Heq. now destruct (Hcode id u Hu).
    + apply (wf_referral_code_unique s Hwf).
  - apply (wf_predictions_seq s Hwf).
  - intros id p Hp. apply (wf_prediction_user s Hwf) in Hp as [u Hu].
    destruct (decide (p_user_id p = (users_seq s + 1)%Z)) as [Heq|Hne].
    + rewrite Heq, lookup_insert_eq. eauto.
    + rewrite lookup_insert_ne by congruence. eauto.
  - apply (wf_prediction_unique s Hwf).
  - apply (wf_prediction_status s Hwf).
  - intros r Hr. destruct (wf_referral_users s Hwf r Hr) as ([u Hu] & [u' Hu'] & Hb).
    split; [|split; [|exact Hb]].
    + destruct (decide (r_referrer_user_id r = (users_seq s + 1)%Z)) as [Heq|Hne].
      * rewrite Heq, lookup_insert_eq. eauto.
      * rewrite lookup_insert_ne by congruence. eauto.
    + destruct (decide (r_referred_user_id r = (users_seq s + 1)%Z)) as [Heq|Hne].
      * rewrite Heq, lookup_insert_eq. eauto.
      * rewrite lookup_insert_ne by congruence. eauto.
Qed.

Lemma lookup_alter_add_points (us : gmap Z user_row) (i id : Z) (n : Z) (u : user_row) :
  alter (add_points n) i us !! id = Some u →
  ∃ u0, us !! id = Some u0 ∧ u.(u_username) = u0.(u_username)
        ∧ u.(u_referral_code) = u0.(u_referral_code).
Proof.
  destruct (decide (i = id)) as [->|Hne].
  - rewrite lookup_alter_eq. destruct (us !! id) as [u0|]; [|discriminate].
    intros [= <-]. eauto.
  - rewrite lookup_alter_ne by exact Hne. eauto.
Qed.

Lemma is_Some_alter_add_points (us : gmap Z user_row) (i id : Z) (n : Z) :
  is_Some (us !! id) → is_Some (alter (add_points n) i us !! id).
Proof.
  intros [u Hu]. destruct (decide (i = id)) as [->|Hne].
  - rewrite lookup_alter_eq, Hu. eauto.
  - rewrite lookup_alter_ne by exact Hne. eauto.
Qed.

Lemma pay_referral_wf (s : store) (referrer_id new_user_id : Z) :
  store_wf s →
  is_Some (s.(tables).(users_tbl) !! referrer_id) →
  is_Some (s.(tables).(users_tbl) !! new_user_id) →
  store_wf (pay_referral s referrer_id new_user_id).
Proof.
  intros Hwf Href Hnew.
  split; cbn [pay_referral tables users_tbl predictions_tbl users_seq predictions_seq
              referrals_tbl referrals_seq].
  - intros id u Hu. apply lookup_alter_add_points in Hu as (u0 & Hu0 & _).
    exact (wf_users_seq s Hwf id u0 Hu0).
  - intros id id' u u' Hu Hu' Heq.
    apply lookup_alter_add_points in Hu as (u0 & Hu0 & Hn & _).
    apply lookup_alter_add_points in Hu' as (u0' & Hu0' & Hn' & _).
    apply (wf_username_unique s Hwf id id' u0 u0' Hu0 Hu0'). congruence.
  - intros id id' u u' Hu Hu' Heq.
    apply lookup_alter_add_points in Hu as (u0 & Hu0 & _ & Hc).
    apply lookup_alter_add_points in Hu' as (u0' & Hu0' & _ & Hc').
    apply (wf_referral_code_unique s Hwf id id' u0 u0' Hu0 Hu0'). congruence.
  - apply (wf_predictions_seq s Hwf).
  - intros id p Hp. apply is_Some_alter_add_points.
    exact (wf_prediction_user s Hwf id p Hp).
  - apply (wf_prediction_unique s Hwf).
  - apply (wf_prediction_status s Hwf).
  - intros r Hr. apply elem_of_app in Hr as [Hr|Hr].
    + destruct (wf_referral_users s Hwf r Hr) as (H1 & H2 & H3).
      split; [|split]; [now apply is_Some_alter_add_points..|exact H3].
    + apply list_elem_of_singleton in Hr as ->. cbn.
      split; [|split]; [now apply is_Some_alter_add_points..|reflexivity].
Qed.

Lemma register_wf `{WebLib} (req : request) (s : store) :
  store_wf s → store_wf (register req s).1.
Proof.
  intros Hwf. unfold register. cbv zeta.
  case_decide; [exact Hwf|].
  destruct (insert_user _ _ _ _) as [s1|] eqn:Hins; [|exact Hwf].
  pose proof (insert_user_wf _ _ _ _ _ Hwf Hins) as Hwf1.
  destruct (truthy _) as [code|]; [|exact Hwf1].
  destruct (user_by_referral_code _ _) as [[rid ru]|] eqn:Href; [|exact Hwf1].
  destruct (user_by_username _ _) as [[nid nu]|] eqn:Hnew; [|exact Hwf1].
  apply user_by_referral_code_Some in Href as [Href _].
  apply user_by_username_Some in Hnew as [Hnew _].
  cbn [fst]. apply pay_referral_wf; eauto.
Qed.

Lemma insert_prediction_Some (s s' : store) (user_id : Z) (match_id : column_value)
    (outcome : option string) (h_goals a_goals : column_value) :
  insert_prediction s user_id match_id outcome h_goals a_goals = Some s' ↔
  (∀ id p, s.(tables).(predictions_tbl) !! id = Some p →
           ¬ same_user_match user_id match_id p)
  ∧ s' = {| tables :=
              {| users_tbl := s.(tables).(users_tbl);
                 predictions_tbl :=
                   <[(s.(predictions_seq) + 1)%Z :=
                       {| p_user_id := user_id; p_match_id := match_id;
                          p_predicted_outcome := outcome;
                          p_predicted_home_goals := goal_value h_goals;
                          p_predicted_away_goals := goal_value a_goals;
                          p_points_awarded := 0; p_status := "PENDING" |}]>
                     s.(tables).(predictions_tbl) |};
            users_seq := s.(users_seq);
            predictions_seq := (s.(predictions_seq) + 1)%Z;
            referrals_tbl := s.(referrals_tbl);
            referrals_seq := s.(referrals_seq) |}.
Proof.
  unfold insert_prediction. cbv zeta. case_decide as Hd.
  - split; [discriminate|]. intros [Hno _].
    apply Exists_exists in Hd as ([id p] & Hin & Hsame).
    apply elem_of_map_to_list in Hin. now destruct (Hno id p Hin).
  - split.
    + intros [= <-]. split; [|reflexivity]. intros id p Hp Hsame.
      apply Hd, Exists_exists. exists (id, p). split; [|exact Hsame].
      now apply elem_of_map_to_list.
    + now intros [_ ->].
Qed.

Lemma insert_prediction_None (s : store) (user_id : Z) (match_id : column_value)
    (outcome : option string) (h_goals a_goals : column_value) :
  insert_prediction s user_id match_id outcome h_goals a_goals = None ↔
  ∃ id p, s.(tables).(predictions_tbl) !! id = Some p
          ∧ same_user_match user_id match_id p.
Proof.
  unfold insert_prediction. cbv zeta. case_decide as Hd.
  - split; [intros _|reflexivity].
    apply Exists_exists in Hd as ([id p] & Hin & Hsame).
    apply elem_of_map_to_list in Hin. eauto.
  - split; [discriminate|]. intros (id & p & Hp & Hsame).
    destruct Hd. apply Exists_exists. exists (id, p). split; [|exact Hsame].
    now apply elem_of_map_to_list.
Qed.

Lemma insert_prediction_wf (s s' : store) (user_id : Z) (match_id : column_value)
    (outcome : option string) (h_goals a_goals : column_value) :
  store_wf s → is_Some (s.(tables).(users_tbl) !! user_id) →
  insert_prediction s user_id match_id outcome h_goals a_goals = Some s' →
  store_wf s'.
Proof.
  intros Hwf Huser Hins. pose proof (fresh_prediction_id s Hwf) as Hfresh.
  apply insert_prediction_Some in Hins as [Hno ->].
  split; cbn [tables users_tbl predictions_tbl users_seq predictions_seq
              referrals_tbl referrals_seq];
    [apply (wf_users_seq s Hwf)|apply (wf_username_unique s Hwf)
    |apply (wf_referral_code_unique s Hwf)| | | | |apply (wf_referral_users s Hwf)].
  - intros id p. destruct (decide (id = (predictions_seq s + 1)%Z)) as [->|Hne].
    + intros _. lia.
    + rewrite lookup_insert_ne by congruence. intros Hp.
      apply (wf_predictions_seq s Hwf) in Hp. lia.
  - intros id p. destruct (decide (id = (predictions_seq s + 1)%Z)) as [->|Hne].
    + rewrite lookup_insert_eq. now intros [= <-].
    + rewrite lookup_insert_ne by congruence. apply (wf_prediction_user s Hwf).
  - intros id id' p p'.
    destruct (decide (id = (predictions_seq s + 1)%Z)) as [->|Hne],
             (decide (id' = (predictions_seq s + 1)%Z)) as [->|Hne'];
      rewrite ?lookup_insert_eq, ?lookup_insert_ne by congruence.
    + reflexivity.
    + intros [= <-] Hp' Hu Hm Hnn. cbn in Hu, Hm, Hnn.
      destruct (Hno id' p' Hp'). now repeat split.
    + intros Hp [= <-] Hu Hm Hnn. cbn in Hu, Hm.
      destruct (Hno id p Hp). repeat split; congruence.
    + apply (wf_prediction_unique s Hwf).
  - intros id p. destruct (decide (id = (predictions_seq s + 1)%Z)) as [->|Hne].
    + rewrite lookup_insert_eq. intros [= <-]. now left.
    + rewrite lookup_insert_ne by congruence. apply (wf_prediction_status s Hwf).
Qed.

Lemma save_prediction_wf `{WebLib} (req : request) (username : string) (s : store) :
  store_wf s → store_wf (save_prediction req username s).1.
Proof.
  intros Hwf. unfold save_prediction. cbv zeta.
  destruct (user_by_username _ _) as [[uid u]|] eqn:Hu; [|exact Hwf].
  destruct (insert_prediction _ _ _ _ _ _) as [s'|] eqn:Hins; [|exact Hwf].
  apply user_by_username_Some in Hu as [Hu _].
  eapply insert_prediction_wf; eauto.
Qed.

Lemma predict_page_wf `{WebLib} (req : request) (d : database) (s : store) :
  store_wf s → store_wf (predict_page req d s).1.
Proof.
  intros Hwf. unfold predict_page. cbv zeta.
  case_decide; destruct (truthy _);
    auto using register_wf, save_prediction_wf.
Qed.

Lemma prediction_points_le (p : prediction) (actual_h actual_a : Z) :
  (prediction_points p actual_h actual_a ≤ 320)%Z.
Proof. unfold prediction_points. cbv zeta. repeat case_decide; lia. Qed.

Lemma score_predictions_wf (ms : gmap Z match_row) (s : store) :
  store_wf s → store_wf (with_tables s (score_predictions ms s.(tables))).
Proof.
  intros Hwf.
  assert (Hus : ∀ id u, (score_predictions ms s.(tables)).(users_tbl) !! id = Some u →
            ∃ u0, s.(tables).(users_tbl) !! id = Some u0
                  ∧ u.(u_username) = u0.(u_username)
                  ∧ u.(u_referral_code) = u0.(u_referral_code)).
  { intros id u. unfold score_predictions. rewrite foldl_score_one_users.
    destruct (_ !! id) as [u0|]; [|discriminate]. intros [= <-]. eauto. }
  assert (Hus' : ∀ id, is_Some (s.(tables).(users_tbl) !! id) →
            is_Some ((score_predictions ms s.(tables)).(users_tbl) !! id)).
  { intros id [u Hu]. unfold score_predictions. rewrite foldl_score_one_users, Hu.
    cbn. eauto. }
  assert (Hps : ∀ id p, (score_predictions ms s.(tables)).(predictions_tbl) !! id = Some p →
            ∃ p0, s.(tables).(predictions_tbl) !! id = Some p0
                  ∧ p.(p_user_id) = p0.(p_user_id) ∧ p.(p_match_id) = p0.(p_match_id)
                  ∧ ((p.(p_status) = "PENDING" ∧ p.(p_points_awarded) = 0%Z)
                     ∨ (p.(p_status) = "SCORED" ∧ (0 ≤ p.(p_points_awarded) ≤ 320)%Z))).
  { intros id p. rewrite score_predictions_lookup.
    destruct (_ !! id) as [p0|] eqn:Hp0; [|discriminate]. cbn. intros [= <-].
    exists p0. split; [reflexivity|].
    destruct (join_finished ms id p0) as [j|].
    - cbn. repeat split; [right]. split; [reflexivity|].
      split; [apply prediction_points_nonneg|apply prediction_points_le].
    - repeat split. exact (wf_prediction_status s Hwf id p0 Hp0). }
  split; cbn [with_tables tables users_seq predictions_seq referrals_tbl referrals_seq].
  - intros id u Hu. apply Hus in Hu as (u0 & Hu0 & _).
    exact (wf_users_seq s Hwf id u0 Hu0).
  - intros id id' u u' Hu Hu' Heq.
    apply Hus in Hu as (u0 & Hu0 & Hn & _). apply Hus in Hu' as (u0' & Hu0' & Hn' & _).
    apply (wf_username_unique s Hwf id id' u0 u0' Hu0 Hu0'). congruence.
  - intros id id' u u' Hu Hu' Heq.
    apply Hus in Hu as (u0 & Hu0 & _ & Hc). apply Hus in Hu' as (u0' & Hu0' & _ & Hc').
    apply (wf_referral_code_unique s Hwf id id' u0 u0' Hu0 Hu0'). congruence.
  - intros id p Hp. apply Hps in Hp as (p0 & Hp0 & _).
    exact (wf_predictions_seq s Hwf id p0 Hp0).
  - intros id p Hp. apply Hps in Hp as (p0 & Hp0 & Hu & _). rewrite Hu.
    apply Hus'. exact (wf_prediction_user s Hwf id p0 Hp0).
  - intros id id' p p' Hp Hp' Hu Hm Hnn.
    apply Hps in Hp as (p0 & Hp0 & Hu0 & Hm0 & _).
    apply Hps in Hp' as (p0' & Hp0' & Hu0' & Hm0' & _).
    apply (wf_prediction_unique s Hwf id id' p0 p0' Hp0 Hp0'); congruence.
  - intros id p Hp. now apply Hps in Hp as (p0 & _ & _ & _ & Hst).
  - intros r Hr. destruct (wf_referral_users s Hwf r Hr) as (H1 & H2 & H3).
    split; [|split]; [now apply Hus'..|exact H3].
Qed.

Lemma with_tables_id (s : store) : with_tables s s.(tables) = s.
Proof. now destruct s. Qed.

Lemma poll_and_score_game `{PyLib} (inp : cycle_input) (st : state) (g : game) :
  (poll_and_score inp (st, g)).2 = g
  ∨ (poll_and_score inp (st, g)).2
    = score_predictions (poll_live_matches inp st).(db).(matches_tbl) g.
Proof.
  unfold poll_and_score. cbn [fst snd].
  destruct (fetch_matches _ _).2 as [feed|]; [|left; reflexivity].
  destruct (write_matches _ feed _); [right | left]; reflexivity.
Qed.

Lemma site_step_wf `{PyLib} `{WebLib} (x : site) (e : event) :
  store_wf x.2 → store_wf (site_step x e).2.
Proof.
  intros Hwf. destruct e as [inp|req]; cbn [site_step snd].
  - destruct x as [st s]. cbn [fst snd] in *.
    destruct (poll_and_score_game inp st s.(tables)) as [-> | ->].
    + now rewrite with_tables_id.
    + now apply score_predictions_wf.
  - now apply predict_page_wf.
Qed.

Lemma site_run_wf `{PyLib} `{WebLib} (es : list event) (x : site) :
  store_wf x.2 → store_wf (site_run es x).2.
Proof.
  revert x. induction es as [|e es IH]; intros x Hwf; [exact Hwf|].
  cbn. apply IH. now apply site_step_wf.
Qed.

(** *** The points account *)

Lemma awarded_in_perm (user_id : Z) (l l' : list (Z * prediction)) :
  l ≡ₚ l' → awarded_in user_id l = awarded_in user_id l'.
Proof.
  induction 1 as [|ip l l' _ IH|ip1 ip2 l|l1 l2 l3 _ IH1 _ IH2]; cbn.
  - reflexivity.
  - fold (awarded_in user_id l) (awarded_in user_id l'). now rewrite IH.
  - repeat case_decide; lia.
  - congruence.
Qed.

Lemma awarded_to_empty (user_id : Z) : awarded_to user_id ∅ = 0%Z.
Proof. unfold awarded_to. now rewrite map_to_list_empty. Qed.

Lemma awarded_to_insert (user_id id : Z) (p : prediction) (ps : gmap Z prediction) :
  ps !! id = None →
  awarded_to user_id (<[id := p]> ps)
  = ((if decide (p.(p_user_id) = user_id) then p.(p_points_awarded) else 0)
     + awarded_to user_id ps)%Z.
Proof.
  intros Hid. unfold awarded_to.
  rewrite (awarded_in_perm user_id _ _ (map_to_list_insert ps id p Hid)).
  cbn. fold (awarded_in user_id (map_to_list ps)). case_decide; lia.
Qed.

Lemma awarded_to_other_users (user_id : Z) (ps : gmap Z prediction) :
  (∀ id p, ps !! id = Some p → p.(p_user_id) ≠ user_id) →
  awarded_to user_id ps = 0%Z.
Proof.
  induction ps as [|id p ps Hid IH] using map_ind; intros Hno.
  - apply awarded_to_empty.
  - rewrite awarded_to_insert by exact Hid.
    rewrite decide_False by (apply (Hno id); apply lookup_insert_eq).
    rewrite IH; [reflexivity|]. intros id' p' Hp'. apply (Hno id').
    rewrite lookup_insert_ne; [exact Hp'|]. intros ->. congruence.
Qed.

Lemma referral_bonus_app (user_id : Z) (rs rs' : list referral) :
  referral_bonus user_id (rs ++ rs')
  = (referral_bonus user_id rs + referral_bonus user_id rs')%Z.
Proof.
  induction rs as [|r rs IH]; [reflexivity|]. cbn.
  fold (referral_bonus user_id (rs ++ rs')) (referral_bonus user_id rs).
  rewrite IH. case_decide; lia.
Qed.

Lemma referral_bonus_other_users (user_id : Z) (rs : list referral) :
  (∀ r, r ∈ rs → r.(r_referrer_user_id) ≠ user_id) →
  referral_bonus user_id rs = 0%Z.
Proof.
  induction rs as [|r rs IH]; intros Hno; [reflexivity|]. cbn.
  fold (referral_bonus user_id rs).
  rewrite decide_False by (apply Hno; left).
  apply IH. intros r' Hr'. apply Hno. now right.
Qed.

Lemma init_store_balanced : balanced init_store.
Proof. intros id u. cbn. rewrite lookup_empty. discriminate. Qed.

Lemma insert_user_balanced (s s1 : store) (name code : string) (referred_by : option string) :
  store_wf s → balanced s →
  insert_user s name code referred_by = Some s1 → balanced s1.
Proof.
  intros Hwf Hbal Hins. pose proof (fresh_user_id s Hwf) as Hfresh.
  apply insert_user_Some in Hins as (_ & _ & ->).
  intros id u. cbn [tables users_tbl predictions_tbl referrals_tbl].
  destruct (decide (id = (users_seq s + 1)%Z)) as [->|Hne].
  - rewrite lookup_insert_eq. intros [= <-]. cbn.
    rewrite referral_bonus_other_users, awarded_to_other_users; [reflexivity|..].
    + intros pid p Hp Heq. destruct (wf_prediction_user s Hwf pid p Hp) as [u Hu].
      rewrite Heq in Hu. congruence.
    + intros r Hr Heq. destruct (wf_referral_users s Hwf r Hr) as ([u Hu] & _).
      rewrite Heq in Hu. congruence.
  - rewrite lookup_insert_ne by congruence. apply Hbal.
Qed.

Lemma pay_referral_balanced (s : store) (referrer_id new_user_id : Z) :
  balanced s → balanced (pay_referral s referrer_id new_user_id).
Proof.
  intros Hbal id u.
  cbn [pay_referral tables users_tbl predictions_tbl referrals_tbl].
  rewrite referral_bonus_app. cbn.
  destruct (decide (referrer_id = id)) as [->|Hne].
  - rewrite lookup_alter_eq. destruct (_ !! id) as [u0|] eqn:Hu0; [|discriminate].
    intros [= <-]. cbn. rewrite (Hbal id u0 Hu0). lia.
  - rewrite lookup_alter_ne by exact Hne. intros Hu. rewrite (Hbal id u Hu). lia.
Qed.

Lemma register_balanced `{WebLib} (req : request) (s : store) :
  store_wf s → balanced s → balanced (register req s).1.
Proof.
  intros Hwf Hbal. unfold register. cbv zeta.
  case_decide; [exact Hbal|].
  destruct (insert_user _ _ _ _) as [s1|] eqn:Hins; [|exact Hbal].
  pose proof (insert_user_balanced _ _ _ _ _ Hwf Hbal Hins) as Hbal1.
  destruct (truthy _) as [code|]; [|exact Hbal1].
  destruct (user_by_referral_code _ _) as [[rid ru]|]; [|exact Hbal1].
  destruct (user_by_username _ _) as [[nid nu]|]; [|exact Hbal1].
  cbn [fst]. now apply pay_referral_balanced.
Qed.

Lemma insert_prediction_balanced (s s' : store) (user_id : Z) (match_id : column_value)
    (outcome : option string) (h_goals a_goals : column_value) :
  store_wf s → balanced s →
  insert_prediction s user_id match_id outcome h_goals a_goals = Some s' →
  balanced s'.
Proof.
  intros Hwf Hbal Hins. pose proof (fresh_prediction_id s Hwf) as Hfresh.
  apply insert_prediction_Some in Hins as [_ ->].
  intros id u. cbn [tables users_tbl predictions_tbl referrals_tbl]. intros Hu.
  rewrite awarded_to_insert by exact Hfresh. cbn.
  rewrite (Hbal id u Hu). case_decide; lia.
Qed.

Lemma save_prediction_balanced `{WebLib} (req : request) (username : string) (s : store) :
  store_wf s → balanced s → balanced (save_prediction req username s).1.
Proof.
  intros Hwf Hbal. unfold save_prediction. cbv zeta.
  destruct (user_by_username _ _) as [[uid u]|]; [|exact Hbal].
  destruct (insert_prediction _ _ _ _ _ _) as [s'|] eqn:Hins; [|exact Hbal].
  eapply insert_prediction_balanced; eauto.
Qed.

Lemma score_predictions_imap (ms : gmap Z match_row) (g : game) :
  (score_predictions ms g).(predictions_tbl)
  = map_imap (λ id p, Some (scored_row ms id p)) g.(predictions_tbl).
Proof.
  apply map_eq. intros id. rewrite score_predictions_lookup, map_lookup_imap.
  destruct (_ !! id); reflexivity.
Qed.

Lemma pending_finished_insert
    (ms : gmap Z match_row) (ps : gmap Z prediction) (id : Z) (p : prediction)
    (user_id : Z) :
  ps !! id = None →
  points_for_user user_id (pending_finished ms (<[id := p]> ps))
  = ((match join_finished ms id p with
      | Some j => if decide (p.(p_user_id) = user_id) then joined_points j else 0
      | None => 0
      end) + points_for_user user_id (pending_finished ms ps))%Z.
Proof.
  intros Hid. unfold pending_finished.
  rewrite (points_for_user_perm user_id _ _
             (omap_Permutation _ _ _ (map_to_list_insert ps id p Hid))).
  cbn [omap list_omap fst snd].
  destruct (join_finished ms id p) as [j|] eqn:Hj; [|reflexivity].
  apply join_finished_id in Hj as [_ Hp]. cbn. rewrite Hp.
  case_decide; reflexivity.
Qed.

Lemma awarded_to_scored (ms : gmap Z match_row) (ps : gmap Z prediction) (user_id : Z) :
  (∀ id p, ps !! id = Some p → p.(p_status) = "PENDING" → p.(p_points_awarded) = 0%Z) →
  awarded_to user_id (map_imap (λ id p, Some (scored_row ms id p)) ps)
  = (awarded_to user_id ps + points_for_user user_id (pending_finished ms ps))%Z.
Proof.
  induction ps as [|id p ps Hid IH] using map_ind; intros Hpend.
  - rewrite map_imap_empty, awarded_to_empty. unfold pending_finished.
    now rewrite map_to_list_empty.
  - rewrite (map_imap_insert_Some _ _ _ _ (scored_row ms id p)) by reflexivity.
    rewrite !awarded_to_insert;
      [|exact Hid|rewrite map_lookup_imap, Hid; reflexivity].
    rewrite pending_finished_insert by exact Hid.
    rewrite IH.
    2:{ intros id' p' Hp'. apply (Hpend id').
        rewrite lookup_insert_ne; [exact Hp'|]. intros ->. congruence. }
    unfold scored_row.
    destruct (join_finished ms id p) as [j|] eqn:Hj; [|lia].
    pose proof (proj1 (join_finished_spec ms id p j) Hj) as (Hst & _).
    pose proof (Hpend id p (lookup_insert_eq _ _ _) Hst) as H0.
    apply join_finished_id in Hj as [_ Hp].
    unfold joined_points. rewrite Hp. cbn. case_decide; lia.
Qed.

Lemma score_predictions_balanced (ms : gmap Z match_row) (s : store) :
  store_wf s → balanced s →
  balanced (with_tables s (score_predictions ms s.(tables))).
Proof.
  intros Hwf Hbal id u. cbn [with_tables tables referrals_tbl].
  rewrite score_predictions_imap, awarded_to_scored.
  2:{ intros pid p Hp Hst.
      destruct (wf_prediction_status s Hwf pid p Hp) as [[_ H0]|[Hsc _]];
        [exact H0|congruence]. }
  unfold score_predictions. rewrite foldl_score_one_users.
  destruct (_ !! id) as [u0|] eqn:Hu0; [|discriminate]. intros [= <-]. cbn.
  rewrite (Hbal id u0 Hu0). lia.
Qed.

Lemma site_step_balanced `{PyLib} `{WebLib} (x : site) (e : event) :
  store_wf x.2 → balanced x.2 → balanced (site_step x e).2.
Proof.
  intros Hwf Hbal. destruct e as [inp|req]; cbn [site_step snd].
  - destruct x as [st s]. cbn [fst snd] in *.
    destruct (poll_and_score_game inp st s.(tables)) as [-> | ->].
    + now rewrite with_tables_id.
    + now apply score_predictions_balanced.
  - unfold predict_page. cbv zeta.
    case_decide; destruct (truthy _);
      auto using register_balanced, save_prediction_balanced.
Qed.

Lemma site_run_balanced `{PyLib} `{WebLib} (es : list event) (x : site) :
  store_wf x.2 → balanced x.2 → balanced (site_run es x).2.
Proof.
  revert x. induction es as [|e es IH]; intros x Hwf Hbal; [exact Hbal|].
  cbn. apply IH; [now apply site_step_wf|now apply site_step_balanced].
Qed.

Lemma referral_bonus_nonneg (user_id : Z) (rs : list referral) :
  (∀ r, r ∈ rs → r.(r_bonus_points) = 50%Z) → (0 ≤ referral_bonus user_id rs)%Z.
Proof.
  induction rs as [|r rs IH]; intros Hb; [cbn; lia|]. cbn.
  fold (referral_bonus user_id rs).
  assert (0 ≤ referral_bonus user_id rs)%Z by (apply IH; intros r' Hr'; apply Hb; now right).
  pose proof (Hb r ltac:(left)). case_decide; lia.
Qed.

Lemma awarded_to_nonneg (user_id : Z) (ps : gmap Z prediction) :
  (∀ id p, ps !! id = Some p → (0 ≤ p.(p_points_awarded))%Z) →
  (0 ≤ awarded_to user_id ps)%Z.
Proof.
  induction ps as [|id p ps Hid IH] using map_ind; intros Hp.
  - rewrite awarded_to_empty. lia.
  - rewrite awarded_to_insert by exact Hid.
    assert (0 ≤ awarded_to user_id ps)%Z.
    { apply IH. intros id' p' Hp'. apply (Hp id').
      rewrite lookup_insert_ne; [exact Hp'|]. intros ->. congruence. }
    pose proof (Hp id p (lookup_insert_eq _ _ _)). case_decide; lia.
Qed.

(** X23.  In every state the site reaches from a fresh database by
    poll cycles and requests to [/predict], taken one at a time: two
    different users differ in username and in referral code; every
    prediction belongs to a stored user and is either PENDING with no
    points or SCORED with 0 to 320 points; a user has at most one
    prediction with the same non-NULL [match_id]; every referral row
    names two stored users and a bonus of 50. *)
Theorem site_invariant `{PyLib} `{WebLib} (es : list event) :
  let s := (site_run es init_site).2 in
  let us := s.(tables).(users_tbl) in
  let ps := s.(tables).(predictions_tbl) in
  (∀ id id' u u', us !! id = Some u → us !! id' = Some u' → id ≠ id' →
     u.(u_username) ≠ u'.(u_username) ∧ u.(u_referral_code) ≠ u'.(u_referral_code))
  ∧ (∀ id p, ps !! id = Some p →
       is_Some (us !! p.(p_user_id))
       ∧ ((p.(p_status) = "PENDING" ∧ p.(p_points_awarded) = 0%Z)
          ∨ (p.(p_status) = "SCORED" ∧ (0 ≤ p.(p_points_awarded) ≤ 320)%Z)))
  ∧ (∀ id id' p p', ps !! id = Some p → ps !! id' = Some p' → id ≠ id' →
       p.(p_user_id) = p'.(p_user_id) → p.(p_match_id) ≠ SqlNull →
       p.(p_match_id) ≠ p'.(p_match_id))
  ∧ (∀ r, r ∈ s.(referrals_tbl) →
       is_Some (us !! r.(r_referrer_user_id))
       ∧ is_Some (us !! r.(r_referred_user_id))
       ∧ r.(r_bonus_points) = 50%Z).
Proof.
  intros s us ps.
  pose proof (site_run_wf es init_site init_store_wf) as Hwf. fold s in Hwf.
  split; [|split; [|split]].
  - intros id id' u u' Hu Hu' Hne. split; intros Heq; apply Hne.
    + exact (wf_username_unique s Hwf id id' u u' Hu Hu' Heq).
    + exact (wf_referral_code_unique s Hwf id id' u u' Hu Hu' Heq).
  - intros id p Hp. split.
    + exact (wf_prediction_user s Hwf id p Hp).
    + exact (wf_prediction_status s Hwf id p Hp).
  - intros id id' p p' Hp Hp' Hne Hu Hnn Hm. apply Hne.
    exact (wf_prediction_unique s Hwf id id' p p' Hp Hp' Hu Hm Hnn).
  - exact (wf_referral_users s Hwf).
Qed.

Lemma site_invariant_witness :
  let s := (@site_run exact_lib ascii_lib sample_events init_site).2 in
  is_Some (s.(tables).(users_tbl) !! 2%Z)
  ∧ (("SCORED" = "PENDING" ∧ 300%Z = 0%Z) ∨ ("SCORED" = "SCORED" ∧ (0 ≤ 300 ≤ 320)%Z)).
Proof.
  intros s.
  destruct (@site_invariant exact_lib ascii_lib sample_events) as (_ & Hp & _).
  exact (Hp 1%Z {| p_user_id := 2; p_match_id := SqlInteger 2;
                   p_predicted_outcome := Some "HOME";
                   p_predicted_home_goals := Some 1%Z;
                   p_predicted_away_goals := Some 0%Z;
                   p_points_awarded := 300; p_status := "SCORED" |} eq_refl).
Defined.

(** X24.  In every such state the points of a user are exactly the
    bonus points of the referral rows that name the user as referrer
    plus the points awarded on the user's prediction rows, and they are
    never negative. *)
Theorem points_accounting `{PyLib} `{WebLib} (es : list event) (id : Z) (u : user_row) :
  let s := (site_run es init_site).2 in
  s.(tables).(users_tbl) !! id = Some u →
  u.(u_points)
  = (referral_bonus id s.(referrals_tbl)
     + awarded_to id s.(tables).(predictions_tbl))%Z
  ∧ (0 ≤ u.(u_points))%Z.
Proof.
  intros s Hu.
  pose proof (site_run_wf es init_site init_store_wf) as Hwf. fold s in Hwf.
  pose proof (site_run_balanced es init_site init_store_wf init_store_balanced) as Hbal.
  fold s in Hbal. rewrite (Hbal id u Hu). split; [reflexivity|].
  assert (0 ≤ referral_bonus id s.(referrals_tbl))%Z.
  { apply referral_bonus_nonneg. intros r Hr.
    now destruct (wf_referral_users s Hwf r Hr) as (_ & _ & Hb). }
  assert (0 ≤ awarded_to id s.(tables).(predictions_tbl))%Z.
  { apply awarded_to_nonneg. intros pid p Hp.
    destruct (wf_prediction_status s Hwf pid p Hp) as [[_ Haw]|[_ Haw]]; lia. }
  lia.
Qed.

Lemma points_accounting_witness :
  let s := (@site_run exact_lib ascii_lib sample_events init_site).2 in
  300%Z = (referral_bonus 2 s.(referrals_tbl)
           + awarded_to 2 s.(tables).(predictions_tbl))%Z
  ∧ (0 ≤ 300)%Z.
Proof.
  intros s.
  exact (@points_accounting exact_lib ascii_lib sample_events 2
           {| u_username := "bob"; u_referral_code := "BBBB2222";
              u_referred_by_code := Some "AAAA1111"; u_points := 300 |} eq_refl).
Defined.

Lemma inserted_user_found (s s1 : store) (name code : string) (referred_by : option string) :
  insert_user s name code referred_by = Some s1 →
  is_Some (user_by_username s1.(tables).(users_tbl) name).
Proof.
  intros Hins. apply insert_user_Some in Hins as (_ & _ & ->). cbn.
  destruct (user_by_username _ _) as [x|] eqn:Hx; [eauto|].
  rewrite user_by_username_None in Hx.
  now destruct (Hx (users_seq s + 1)%Z _ (lookup_insert_eq _ _ _)).
Qed.

(** X25.  Registration.  The answer is never a server error.  A name
    that after [strip()] has fewer than 3 or more than 20 characters
    gets status 400 and nothing is written.  Otherwise the answer is the
    redirect that sets the [username] cookie to the stripped name, also
    when the name (or the drawn referral code) is already stored, in
    which case nothing is written.  With a fresh name and code the new
    user is stored under the next id with no points; exactly the user
    whose referral code is the non-empty [referred_by] cookie gains 50
    points, one referral row records it, and predictions are
    untouched. *)
Theorem register_spec `{WebLib} (req : request) (s : store) :
  let name := str_strip (default EmptyString req.(form_username)) in
  let code := req.(drawn_referral_code) in
  let referred_by := req.(cookie_referred_by) in
  let us := s.(tables).(users_tbl) in
  let r := register req s in
  r.2 ≠ InternalServerError
  ∧ ((str_len name < 3 ∨ 20 < str_len name)%nat →
       r = (s, BadRequest "Username must be 3-20 characters"))
  ∧ ((3 ≤ str_len name ≤ 20)%nat →
       r.2 = RedirectToPredict (Some name)
       ∧ (∀ id u, us !! id = Some u →
            u.(u_username) = name ∨ u.(u_referral_code) = code → r.1 = s)
       ∧ (store_wf s →
          (∀ id u, us !! id = Some u →
             u.(u_username) ≠ name ∧ u.(u_referral_code) ≠ code) →
          let new_id := (s.(users_seq) + 1)%Z in
          let row := {| u_username := name; u_referral_code := code;
                        u_referred_by_code := referred_by; u_points := 0 |} in
          let bonus (u : user_row) : Z :=
            if decide (truthy referred_by = Some u.(u_referral_code)) then 50%Z else 0%Z in
          let referral (referrer_id : Z) :=
            {| r_id := (s.(referrals_seq) + 1)%Z; r_referrer_user_id := referrer_id;
               r_referred_user_id := new_id; r_bonus_points := 50 |} in
          us !! new_id = None
          ∧ (∀ id, r.1.(tables).(users_tbl) !! id
                   = (λ u, add_points (bonus u) u) <$> (<[new_id := row]> us) !! id)
          ∧ r.1.(tables).(predictions_tbl) = s.(tables).(predictions_tbl)
          ∧ (∀ rid ru, (<[new_id := row]> us) !! rid = Some ru → bonus ru = 50%Z →
               r.1.(referrals_tbl) = s.(referrals_tbl) ++ [referral rid])
          ∧ ((∀ rid ru, (<[new_id := row]> us) !! rid = Some ru → bonus ru = 0%Z) →
               r.1.(referrals_tbl) = s.(referrals_tbl)))).
Proof.
  intros name code referred_by us r.
  assert (Hresp : r.2 = BadRequest "Username must be 3-20 characters"
                  ∨ r.2 = RedirectToPredict (Some name)).
  { unfold r, register. cbv zeta. fold name code referred_by.
    case_decide; [now left|right].
    destruct (insert_user _ _ _ _) as [s1|] eqn:Hins; [|reflexivity].
    destruct (inserted_user_found _ _ _ _ _ Hins) as [new_user Hnew].
    rewrite Hnew. destruct (truthy _); [|reflexivity].
    destruct (user_by_referral_code _ _); reflexivity. }
  split; [destruct Hresp as [-> | ->]; discriminate|].
  split.
  { intros Hlen. unfold r, register. cbv zeta. fold name. now rewrite decide_True. }
  intros Hlen.
  assert (Hr : r = match insert_user s name code referred_by with
                   | Some s1 =>
                       match truthy referred_by with
                       | Some c =>
                           match user_by_referral_code s1.(tables).(users_tbl) c with
                           | Some referrer =>
                               match user_by_username s1.(tables).(users_tbl) name with
                               | Some new_user =>
                                   (pay_referral s1 referrer.1 new_user.1,
                                    RedirectToPredict (Some name))
                               | None => (s1, InternalServerError)
                               end
                           | None => (s1, RedirectToPredict (Some name))
                           end
                       | None => (s1, RedirectToPredict (Some name))
                       end
                   | None => (s, RedirectToPredict (Some name))
                   end).
  { unfold r, register. cbv zeta. fold name code referred_by.
    rewrite decide_False by lia. reflexivity. }
  split.
  { destruct Hresp as [Hbad|Hok]; [|exact Hok]. exfalso.
    rewrite Hr in Hbad.
    destruct (insert_user _ _ _ _); [|discriminate].
    destruct (truthy _); [|discriminate].
    destruct (user_by_referral_code _ _); [|discriminate].
    destruct (user_by_username _ _); discriminate. }
  split.
  { intros id u Hu Htaken. rewrite Hr.
    assert (Hnone : insert_user s name code referred_by = None).
    { apply insert_user_None. destruct Htaken as [Hn|Hc]; [left|right].
      - destruct (user_by_username us name) as [x|] eqn:Hx; [eauto|].
        rewrite user_by_username_None in Hx. now destruct (Hx id u Hu).
      - destruct (user_by_referral_code us code) as [x|] eqn:Hx; [eauto|].
        rewrite user_by_referral_code_None in Hx. now destruct (Hx id u Hu). }
    now rewrite Hnone. }
  intros Hwf Hfresh new_id row bonus referral.
  assert (Hbonus : ∀ u, bonus u = if decide (truthy referred_by = Some u.(u_referral_code))
                                  then 50%Z else 0%Z) by reflexivity.
  clearbody bonus.
  pose proof (fresh_user_id s Hwf) as Hnew. fold us new_id in Hnew.
  split; [exact Hnew|].
  destruct (insert_user s name code referred_by) as [s1|] eqn:Hins.
  2:{ exfalso. apply insert_user_None in Hins as [[x Hx]|[x Hx]]; destruct x as [id u].
      - apply user_by_username_Some in Hx as [Hu Hn].
        now destruct (Hfresh id u Hu) as [Hne _].
      - apply user_by_referral_code_Some in Hx as [Hu Hc].
        now destruct (Hfresh id u Hu) as [_ Hne]. }
  pose proof (insert_user_wf _ _ _ _ _ Hwf Hins) as Hwf1.
  pose proof Hins as Hs1. apply insert_user_Some in Hs1 as (_ & _ & Hs1).
  fold us new_id row in Hs1.
  assert (Hus1 : s1.(tables).(users_tbl) = <[new_id := row]> us) by now rewrite Hs1.
  assert (Hps1 : s1.(tables).(predictions_tbl) = s.(tables).(predictions_tbl))
    by now rewrite Hs1.
  assert (Hrs1 : s1.(referrals_tbl) = s.(referrals_tbl)) by now rewrite Hs1.
  assert (Hseq1 : s1.(referrals_seq) = s.(referrals_seq)) by now rewrite Hs1.
  assert (Hfound : user_by_username s1.(tables).(users_tbl) name = Some (new_id, row)).
  { apply (user_by_username_wf s1 new_id row Hwf1).
    rewrite Hus1. apply lookup_insert_eq. }
  rewrite Hfound in Hr. rewrite <- Hus1.
  assert (Hzero : ∀ id, (∀ u, s1.(tables).(users_tbl) !! id = Some u → bonus u = 0%Z) →
            s1.(tables).(users_tbl) !! id
            = (λ u, add_points (bonus u) u) <$> s1.(tables).(users_tbl) !! id).
  { intros id Hb. destruct (_ !! id) as [u|] eqn:Hu; [|reflexivity].
    cbn. now rewrite (Hb u eq_refl), add_points_0. }
  destruct (truthy referred_by) as [c|] eqn:Hc.
  2:{ assert (Hb : ∀ u, bonus u = 0%Z) by (intros u; now rewrite Hbonus).
      rewrite Hr. cbn [fst]. repeat split; [|exact Hps1|..].
      - intros id. apply Hzero. auto.
      - intros rid ru _ Hb50. rewrite Hb in Hb50. discriminate.
      - intros _. exact Hrs1. }
  destruct (user_by_referral_code s1.(tables).(users_tbl) c) as [[rid ru]|] eqn:Href.
  2:{ rewrite user_by_referral_code_None in Href.
      assert (Hb : ∀ id u, s1.(tables).(users_tbl) !! id = Some u → bonus u = 0%Z).
      { intros id u Hu. rewrite Hbonus. case_decide as Heq; [|reflexivity].
        injection Heq as Heq. now destruct (Href id u Hu). }
      rewrite Hr. cbn [fst]. repeat split; [|exact Hps1|..].
      - intros id. apply Hzero. eauto.
      - intros rid ru Hru Hb50. rewrite (Hb rid ru Hru) in Hb50. discriminate.
      - intros _. exact Hrs1. }
  apply user_by_referral_code_Some in Href as [Hru Hcode].
  assert (Hb50 : bonus ru = 50%Z).
  { rewrite Hbonus, <- Hcode. now rewrite decide_True. }
  assert (Hb0 : ∀ id u, s1.(tables).(users_tbl) !! id = Some u →
                 bonus u = 50%Z → id = rid).
  { intros id u Hu. rewrite Hbonus. case_decide as Heq; [|discriminate].
    intros _. injection Heq as Heq.
    apply (wf_referral_code_unique s1 Hwf1 id rid u ru Hu Hru). congruence. }
  rewrite Hr. cbn [fst pay_referral tables users_tbl predictions_tbl referrals_tbl].
  repeat split; [|exact Hps1|..].
  - intros id. destruct (decide (rid = id)) as [<-|Hne].
    + rewrite lookup_alter_eq, Hru. cbn. now rewrite Hb50.
    + rewrite lookup_alter_ne by exact Hne. apply Hzero. intros u Hu.
      rewrite Hbonus. case_decide as Heq; [|reflexivity]. exfalso. apply Hne.
      symmetry. apply (Hb0 id u Hu). rewrite Hbonus. now rewrite decide_True.
  - intros rid' ru' Hru' Hb'. rewrite (Hb0 rid' ru' Hru' Hb').
    unfold referral. now rewrite Hrs1, Hseq1.
  - intros Hall. rewrite (Hall rid ru Hru) in Hb50. discriminate.
Qed.

Lemma register_spec_witness :
  (@register ascii_lib (registration "bob" None "CCCC3333")
     (@site_run exact_lib ascii_lib sample_events init_site).2).1
  = (@site_run exact_lib ascii_lib sample_events init_site).2.
Proof.
  destruct (@register_spec ascii_lib (registration "bob" None "CCCC3333")
              (@site_run exact_lib ascii_lib sample_events init_site).2)
    as (_ & _ & Hok).
  destruct Hok as (_ & Htaken & _); [vm_compute; lia|].
  apply (Htaken 2%Z {| u_username := "bob"; u_referral_code := "BBBB2222";
                       u_referred_by_code := Some "AAAA1111"; u_points := 300 |}).
  - reflexivity.
  - left. reflexivity.
Defined.

Lemma save_prediction_rows `{WebLib}
    (req : request) (s : store) (user_id : Z) (u : user_row) :
  store_wf s → s.(tables).(users_tbl) !! user_id = Some u →
  let r := save_prediction req u.(u_username) s in
  let match_id := bind_integer SqlNull req.(form_match_id) in
  let ps := s.(tables).(predictions_tbl) in
  let new_id := (s.(predictions_seq) + 1)%Z in
  let row :=
    {| p_user_id := user_id; p_match_id := match_id;
       p_predicted_outcome := req.(form_outcome);
       p_predicted_home_goals := goal_value (bind_integer (SqlInteger 0) req.(form_home_goals));
       p_predicted_away_goals := goal_value (bind_integer (SqlInteger 0) req.(form_away_goals));
       p_points_awarded := 0; p_status := "PENDING" |} in
  (∀ id p, ps !! id = Some p → p.(p_user_id) = user_id → p.(p_match_id) = match_id →
     match_id ≠ SqlNull →
     r = (s, BadRequest "You already predicted this match!"))
  ∧ ((∀ id p, ps !! id = Some p → p.(p_user_id) = user_id → p.(p_match_id) = match_id →
        match_id = SqlNull) →
     r.2 = RedirectToPredict None
     ∧ ps !! new_id = None
     ∧ r.1.(tables).(predictions_tbl) = <[new_id := row]> ps
     ∧ r.1.(tables).(users_tbl) = s.(tables).(users_tbl)
     ∧ r.1.(referrals_tbl) = s.(referrals_tbl)).
Proof.
  intros Hwf Hu r match_id ps new_id row.
  assert (Hr : r = match insert_prediction s user_id match_id req.(form_outcome)
                         (bind_integer (SqlInteger 0) req.(form_home_goals))
                         (bind_integer (SqlInteger 0) req.(form_away_goals)) with
                   | Some s' => (s', RedirectToPredict None)
                   | None => (s, BadRequest "You already predicted this match!")
                   end).
  { unfold r, save_prediction. cbv zeta.
    now rewrite (user_by_username_wf s user_id u Hwf Hu). }
  split.
  - intros id p Hp Hpu Hpm Hnn. rewrite Hr.
    assert (Hnone : insert_prediction s user_id match_id req.(form_outcome)
                      (bind_integer (SqlInteger 0) req.(form_home_goals))
                      (bind_integer (SqlInteger 0) req.(form_away_goals)) = None).
    { apply insert_prediction_None. exists id, p. now repeat split. }
    now rewrite Hnone.
  - intros Hno. rewrite Hr.
    destruct (insert_prediction _ _ _ _ _ _) as [s'|] eqn:Hins.
    + apply insert_prediction_Some in Hins as [_ ->]. cbn.
      repeat split. exact (fresh_prediction_id s Hwf).
    + exfalso. apply insert_prediction_None in Hins as (id & p & Hp & Hnn & Hpu & Hpm).
      apply Hnn. exact (Hno id p Hp Hpu Hpm).
Qed.

Lemma truthy_Some (name : string) : name ≠ EmptyString → truthy (Some name) = Some name.
Proof. intros Hne. cbn. now rewrite decide_False. Qed.

(** X26.  A POST to [/predict] with a [username] cookie that names a
    stored user.  If the user already has a prediction with the same
    non-NULL [match_id], the answer is status 400 and nothing is
    written.  Otherwise the answer is the redirect and exactly one row
    is added, under the next id: PENDING, with no points, for that
    user, with the form's values; users and referrals are untouched.
    A form without [match_id] stores NULL, which is never refused. *)
Theorem save_prediction_spec `{WebLib}
    (req : request) (d : database) (s : store) (user_id : Z) (u : user_row) :
  store_wf s → s.(tables).(users_tbl) !! user_id = Some u →
  u.(u_username) ≠ EmptyString →
  req.(method) = "POST" → req.(cookie_username) = Some u.(u_username) →
  let r := predict_page req d s in
  let match_id := bind_integer SqlNull req.(form_match_id) in
  let ps := s.(tables).(predictions_tbl) in
  let new_id := (s.(predictions_seq) + 1)%Z in
  let row :=
    {| p_user_id := user_id; p_match_id := match_id;
       p_predicted_outcome := req.(form_outcome);
       p_predicted_home_goals := goal_value (bind_integer (SqlInteger 0) req.(form_home_goals));
       p_predicted_away_goals := goal_value (bind_integer (SqlInteger 0) req.(form_away_goals));
       p_points_awarded := 0; p_status := "PENDING" |} in
  (∀ id p, ps !! id = Some p → p.(p_user_id) = user_id → p.(p_match_id) = match_id →
     match_id ≠ SqlNull →
     r = (s, BadRequest "You already predicted this match!"))
  ∧ ((∀ id p, ps !! id = Some p → p.(p_user_id) = user_id → p.(p_match_id) = match_id →
        match_id = SqlNull) →
     r.2 = RedirectToPredict None
     ∧ ps !! new_id = None
     ∧ r.1.(tables).(predictions_tbl) = <[new_id := row]> ps
     ∧ r.1.(tables).(users_tbl) = s.(tables).(users_tbl)
     ∧ r.1.(referrals_tbl) = s.(referrals_tbl))
  ∧ (req.(form_match_id) = None → r.2 = RedirectToPredict None).
Proof.
  intros Hwf Hu Hname Hpost Hcookie r match_id ps new_id row.
  assert (Hr : r = save_prediction req u.(u_username) s).
  { unfold r, predict_page. cbv zeta.
    now rewrite decide_True, Hcookie, truthy_Some by assumption. }
  rewrite Hr.
  destruct (save_prediction_rows req s user_id u Hwf Hu) as [Hdup Hnew].
  split; [exact Hdup|]. split; [exact Hnew|].
  intros Hnone. apply Hnew. intros _ _ _ _ _. unfold match_id. now rewrite Hnone.
Qed.

Lemma save_prediction_spec_witness :
  @predict_page ascii_lib (prediction_form "bob" "2" "AWAY" "0" "3")
    (@site_run exact_lib ascii_lib sample_events init_site).1.(db)
    (@site_run exact_lib ascii_lib sample_events init_site).2
  = ((@site_run exact_lib ascii_lib sample_events init_site).2,
     BadRequest "You already predicted this match!").
Proof.
  destruct (@save_prediction_spec ascii_lib (prediction_form "bob" "2" "AWAY" "0" "3")
              (@site_run exact_lib ascii_lib sample_events init_site).1.(db)
              (@site_run exact_lib ascii_lib sample_events init_site).2 2
              {| u_username := "bob"; u_referral_code := "BBBB2222";
                 u_referred_by_code := Some "AAAA1111"; u_points := 300 |}
              (site_run_wf sample_events init_site init_store_wf) eq_refl
              ltac:(discriminate) eq_refl eq_refl)
    as [Hdup _].
  apply (Hdup 1%Z {| p_user_id := 2; p_match_id := SqlInteger 2;
                     p_predicted_outcome := Some "HOME";
                     p_predicted_home_goals := Some 1%Z;
                     p_predicted_away_goals := Some 0%Z;
                     p_points_awarded := 300; p_status := "SCORED" |});
    [reflexivity..|discriminate].
Defined.

Lemma elem_of_pred_ids (user_id : Z) (ps : gmap Z prediction) (v : column_value) :
  v ∈ pred_ids user_id ps ↔
  ∃ id p, ps !! id = Some p ∧ p.(p_user_id) = user_id ∧ p.(p_match_id) = v.
Proof.
  unfold pred_ids. rewrite list_elem_of_fmap. split.
  - intros ([id p] & -> & Hin). apply list_elem_of_filter in Hin as [Hu Hin].
    apply elem_of_map_to_list in Hin. eauto.
  - intros (id & p & Hp & Hu & <-). exists (id, p). split; [reflexivity|].
    apply list_elem_of_filter. split; [exact Hu|]. now apply elem_of_map_to_list.
Qed.

Lemma elem_of_available_matches
    (user_id : Z) (d : database) (ps : gmap Z prediction) (mid : Z) (m : match_row) :
  (mid, m) ∈ available_matches user_id d ps ↔
  d.(matches_tbl) !! mid = Some m ∧ m.(m_status) ∈ predictable_statuses
  ∧ ∀ id p, ps !! id = Some p → p.(p_user_id) = user_id →
            p.(p_match_id) ≠ SqlInteger mid.
Proof.
  unfold available_matches. cbv zeta.
  rewrite list_elem_of_filter, merge_sort_Permutation, list_elem_of_filter,
    elem_of_map_to_list, elem_of_pred_ids. cbn [fst snd].
  split.
  - intros (Hno & Hst & Hm). repeat split; [exact Hm|exact Hst|].
    intros id p Hp Hu Hpm. apply Hno. eauto.
  - intros (Hm & Hst & Hno). repeat split; [|exact Hst|exact Hm].
    intros (id & p & Hp & Hu & Hpm). exact (Hno id p Hp Hu Hpm).
Qed.

Lemma ascii_compare_N (a b : ascii) :
  Ascii.compare a b = N.compare (N_of_ascii a) (N_of_ascii b).
Proof. reflexivity. Qed.

Lemma string_leb_trans (a b c : string) :
  String.leb a b = true → String.leb b c = true → String.leb a c = true.
Proof.
  unfold String.leb. revert b c.
  induction a as [|x a IH]; intros [|y b] [|z c]; cbn; try (intros; congruence).
  rewrite !ascii_compare_N.
  destruct (N.compare_spec (N_of_ascii x) (N_of_ascii y)),
           (N.compare_spec (N_of_ascii y) (N_of_ascii z)),
           (N.compare_spec (N_of_ascii x) (N_of_ascii z));
    try (intros; congruence); try lia.
  apply IH.
Qed.

#[global] Instance kickoff_le_trans : Transitive kickoff_le.
Proof.
  intros a b c. unfold kickoff_le.
  destruct (utc_date_text a.2.(m_utc_date)), (utc_date_text b.2.(m_utc_date)),
    (utc_date_text c.2.(m_utc_date)); try tauto.
  apply string_leb_trans.
Qed.

#[global] Instance kickoff_le_total : Total kickoff_le.
Proof.
  intros a b. unfold kickoff_le.
  destruct (utc_date_text a.2.(m_utc_date)), (utc_date_text b.2.(m_utc_date)); try tauto.
  apply String.leb_total.
Qed.

Lemma StronglySorted_filter {A : Type} (R : relation A) (P : A → Prop)
    `{!∀ x, Decision (P x)} (l : list A) :
  StronglySorted R l → StronglySorted R (filter P l).
Proof.
  induction 1 as [|x l _ IH Hx]; [constructor|].
  rewrite filter_cons. case_decide; [|exact IH].
  constructor; [exact IH|].
  apply Forall_forall. intros y [_ Hy]%list_elem_of_filter.
  rewrite Forall_forall in Hx. now apply Hx.
Qed.

(** X27.  The listing and the form, for a cookie that names a stored
    user.  A GET shows that user the stored matches with status LIVE,
    IN_PLAY, PAUSED, SCHEDULED or TIMED on which the user has no
    prediction, each once, by kickoff date.  Posting the id of a listed
    match is
    accepted; afterwards the match is no longer listed for that user,
    and posting it again is answered with status 400 and changes
    nothing. *)
Theorem predict_list_round_trip `{WebLib}
    (d : database) (s : store) (user_id : Z) (u : user_row) :
  store_wf s → s.(tables).(users_tbl) !! user_id = Some u →
  u.(u_username) ≠ EmptyString →
  let listing := available_matches user_id d s.(tables).(predictions_tbl) in
  (∀ req, req.(cookie_username) = Some u.(u_username) → req.(method) ≠ "POST" →
     predict_page req d s
     = (s, PredictList (user_id, u) listing
             (rstrip "/" req.(url_root) +:+ "/ref/" +:+ u.(u_referral_code))))
  ∧ NoDup listing.*1
  ∧ StronglySorted kickoff_le listing
  ∧ (∀ mid m, (mid, m) ∈ listing ↔
       d.(matches_tbl) !! mid = Some m ∧ m.(m_status) ∈ predictable_statuses
       ∧ ∀ id p, s.(tables).(predictions_tbl) !! id = Some p →
                 p.(p_user_id) = user_id → p.(p_match_id) ≠ SqlInteger mid)
  ∧ (∀ mid m post,
       (mid, m) ∈ listing →
       post.(method) = "POST" → post.(cookie_username) = Some u.(u_username) →
       bind_integer SqlNull post.(form_match_id) = SqlInteger mid →
       let r := predict_page post d s in
       r.2 = RedirectToPredict None
       ∧ (∀ m', (mid, m') ∉ available_matches user_id d r.1.(tables).(predictions_tbl))
       ∧ predict_page post d r.1
         = (r.1, BadRequest "You already predicted this match!")).
Proof.
  intros Hwf Hu Hname listing.
  split; [|split; [|split; [|split]]].
  - intros req Hcookie Hget. unfold predict_page, predict_list. cbv zeta.
    rewrite decide_False by exact Hget.
    rewrite Hcookie, truthy_Some by exact Hname.
    now rewrite (user_by_username_wf s user_id u Hwf Hu).
  - unfold listing, available_matches. cbv zeta.
    eapply sublist_NoDup; [|apply fmap_sublist, sublist_filter].
    rewrite merge_sort_Permutation.
    eapply sublist_NoDup; [|apply fmap_sublist, sublist_filter].
    set (mt := matches_tbl d). apply (NoDup_fst_map_to_list mt).
  - unfold listing, available_matches. cbv zeta.
    apply StronglySorted_filter, StronglySorted_merge_sort; apply _.
  - intros mid m. apply elem_of_available_matches.
  - intros mid m post Hin Hpost Hcookie Hmid r.
    apply elem_of_available_matches in Hin as (Hm & Hst & Hno).
    assert (Hr : r = save_prediction post u.(u_username) s).
    { unfold r, predict_page. cbv zeta.
      now rewrite decide_True, Hcookie, truthy_Some by assumption. }
    destruct (save_prediction_rows post s user_id u Hwf Hu) as [_ Hnew].
    rewrite Hmid in Hnew. fold r in Hnew. rewrite <- Hr in Hnew.
    destruct Hnew as (Hresp & Hfresh & Hps & Hus & _).
    { intros id p Hp Hpu Hpm. now destruct (Hno id p Hp Hpu). }
    split; [exact Hresp|]. split.
    + intros m' Hin'. apply elem_of_available_matches in Hin' as (_ & _ & Hno').
      apply (Hno' (predictions_seq s + 1)%Z
               {| p_user_id := user_id; p_match_id := SqlInteger mid;
                  p_predicted_outcome := post.(form_outcome);
                  p_predicted_home_goals :=
                    goal_value (bind_integer (SqlInteger 0) post.(form_home_goals));
                  p_predicted_away_goals :=
                    goal_value (bind_integer (SqlInteger 0) post.(form_away_goals));
                  p_points_awarded := 0; p_status := "PENDING" |});
        [|reflexivity..].
      rewrite Hps. apply lookup_insert_eq.
    + assert (Hwf' : store_wf r.1) by (rewrite Hr; now apply save_prediction_wf).
      assert (Hu' : r.1.(tables).(users_tbl) !! user_id = Some u) by now rewrite Hus.
      unfold predict_page. cbv zeta.
      rewrite decide_True, Hcookie, truthy_Some by assumption.
      destruct (save_prediction_rows post r.1 user_id u Hwf' Hu') as [Hdup _].
      rewrite Hmid in Hdup.
      eapply (Hdup (predictions_seq s + 1)%Z); [rewrite Hps; apply lookup_insert_eq|..];
        [reflexivity..|discriminate].
Qed.

Lemma predict_list_round_trip_witness :
  let x := @site_run exact_lib ascii_lib (take 3 sample_events) init_site in
  (@predict_page ascii_lib (listing_request "bob") x.1.(db) x.2).1 = x.2.
Proof.
  intros x.
  destruct (@predict_list_round_trip ascii_lib x.1.(db) x.2 2
              {| u_username := "bob"; u_referral_code := "BBBB2222";
                 u_referred_by_code := Some "AAAA1111"; u_points := 0 |}
              (site_run_wf (take 3 sample_events) init_site init_store_wf) eq_refl
              ltac:(discriminate))
    as [Hget _].
  now rewrite (Hget (listing_request "bob") eq_refl ltac:(discriminate)).
Defined.

(** X28.  A [username] cookie that names no stored user (after the
    database file was replaced, say).  A GET of [/predict] ends in an
    exception nothing catches, status 500; a POST writes nothing and
    redirects to that GET.  The registration form is not reached while
    the cookie is held. *)
Theorem predict_page_unknown_user `{WebLib}
    (req : request) (d : database) (s : store) (name : string) :
  req.(cookie_username) = Some name → name ≠ EmptyString →
  (∀ id u, s.(tables).(users_tbl) !! id = Some u → u.(u_username) ≠ name) →
  predict_page req d s
  = (s, if decide (req.(method) = "POST") then RedirectToPredict None
        else InternalServerError).
Proof.
  intros Hcookie Hname Hno. apply user_by_username_None in Hno.
  unfold predict_page, save_prediction, predict_list. cbv zeta.
  rewrite Hcookie, truthy_Some by exact Hname.
  case_decide; now rewrite Hno.
Qed.

Lemma predict_page_unknown_user_witness :
  @predict_page ascii_lib (listing_request "bob") init_state.(db) init_store
  = (init_store, InternalServerError).
Proof.
  apply (@predict_page_unknown_user ascii_lib (listing_request "bob")
           init_state.(db) init_store "bob" eq_refl).
  - discriminate.
  - intros id u. cbn. rewrite lookup_empty. discriminate.
Defined.

#[global] Instance points_ge_trans : Transitive points_ge.
Proof. intros a b c. unfold points_ge. lia. Qed.

#[global] Instance points_ge_total : Total points_ge.
Proof. intros a b. unfold points_ge. lia. Qed.

(** X29.  The leaderboard shows the 50 users with the most points (all
    users, if there are fewer), highest first: each entry is the name
    and the points of a stored user, and a stored user who is not shown
    has no more points than any entry shown. *)
Theorem leaderboard_spec (us : gmap Z user_row) :
  length (leaderboard us) = Nat.min 50 (size us)
  ∧ StronglySorted (λ a b : string * Z, (b.2 ≤ a.2)%Z) (leaderboard us)
  ∧ (∀ e, e ∈ leaderboard us →
       ∃ id u, us !! id = Some u ∧ e = (u.(u_username), u.(u_points)))
  ∧ (∀ id u e, us !! id = Some u → (u.(u_username), u.(u_points)) ∉ leaderboard us →
       e ∈ leaderboard us → (u.(u_points) ≤ e.2)%Z).
Proof.
  unfold leaderboard. set (rows := merge_sort points_ge (map_to_list us)).
  assert (Hperm : rows ≡ₚ map_to_list us) by apply merge_sort_Permutation.
  assert (Hsorted : StronglySorted points_ge (take 50 rows ++ drop 50 rows)).
  { rewrite take_drop. apply StronglySorted_merge_sort; apply _. }
  split; [|split; [|split]].
  - rewrite length_fmap, length_take, Hperm, length_map_to_list. lia.
  - apply StronglySorted_app_1_l in Hsorted as Htake.
    clear Hsorted. induction Htake as [|x l _ IH Hx]; [constructor|].
    rewrite fmap_cons. constructor; [exact IH|].
    apply Forall_forall. intros e (y & -> & Hy)%list_elem_of_fmap.
    rewrite Forall_forall in Hx. exact (Hx y Hy).
  - intros e ([id u] & -> & Hin)%list_elem_of_fmap.
    apply elem_of_take in Hin as (i & Hi & _).
    apply list_elem_of_lookup_2 in Hi. rewrite Hperm in Hi.
    apply elem_of_map_to_list in Hi. eauto.
  - intros id u e Hu Hnot ([id' u'] & -> & Hin)%list_elem_of_fmap. cbn.
    assert (Hrow : (id, u) ∈ take 50 rows ++ drop 50 rows).
    { rewrite take_drop, Hperm. now apply elem_of_map_to_list. }
    apply elem_of_app in Hrow as [Hrow|Hrow].
    + destruct Hnot. apply list_elem_of_fmap. now exists (id, u).
    + exact (StronglySorted_app_1_elem_of _ _ _ (id', u') (id, u) Hsorted Hin Hrow).
Qed.
